(** * A shallow embedding of the mini-react scheduler

    Source: [packages/scheduler/src/Scheduler.ts].

    The module-level [let] variables of the scheduler, the JavaScript
    objects it allocates (tasks) and the part of the host it talks to (the
    clock, [setTimeout]/[clearTimeout] and the message channel) are
    gathered in one record that every function threads explicitly.  Task
    objects are shared between the two queues and the callers, so queues
    hold references into an object store and every field is read and
    written through the store.

    Numbers are modelled as [Z]: time is counted in whole time units.
    JavaScript numbers are binary64 floats, on which the code's additions
    are exact as long as the operands and the sum are integers of
    magnitude at most 2^53 ([exact_sum]); what the addition of
    [scheduleCallback] gives outside that range is shown on floats
    ([scheduleCallback_startTime]). *)

From stdpp Require Import list gmap.
From Stdlib Require Import ZArith Lia PrimFloat.

Local Open Scope Z_scope.

(** ** Data model *)

(** Modelled from the spec: the enumeration exported by
    [SchedulerPriorities], listed from most to least urgent. *)
Inductive PriorityLevel :=
  | ImmediatePriority
  | UserBlockingPriority
  | NormalPriority
  | LowPriority
  | IdlePriority.

(** Modelled from the spec: one possible [getTimeoutByPriorityLevel] table
    of [SchedulerPriorities], with the budgets the interface section
    quotes.  The scheduler itself is parametric in the table; this instance
    is only used to run it on concrete inputs. *)
Definition quotedTimeouts (p : PriorityLevel) : Z :=
  match p with
  | ImmediatePriority => 0
  | UserBlockingPriority => 250
  | NormalPriority => 5000
  | LowPriority => 10000
  | IdlePriority => 1073741823
  end.

(** A reference to a [Task] object (its address in the object store). *)
Abbreviation ref := nat (only parsing).

(** A JavaScript function value used as a task callback. *)
Abbreviation CbId := nat (only parsing).

Module Task.

(** [interface Task]; [callback = None] is the JavaScript [null]. *)
Record t := mk {
  id : Z;
  priorityLevel : PriorityLevel;
  callback : option CbId;
  startTime : Z;
  expirationTime : Z;
  sortIndex : Z
}.

Definition set_callback (v : option CbId) (x : t) : t :=
  mk (id x) (priorityLevel x) v (startTime x) (expirationTime x) (sortIndex x).

Definition set_sortIndex (v : Z) (x : t) : t :=
  mk (id x) (priorityLevel x) (callback x) (startTime x) (expirationTime x) v.

(** What a read through a reference that holds no object yields.  The
    scheduler only ever follows references it allocated itself. *)
Definition absent : t := mk 0 NormalPriority None 0 0 0.

End Task.

(** The function handed to [requestHostCallback]; the source only ever
    passes [flushWork]. *)
Inductive HostCallback := flushWorkCallback.

(** The function handed to [requestHostTimeout]. *)
Inductive TimeoutHandler := handleTimeoutHandler | flushWorkHandler.

(** A pending [setTimeout]. *)
Record Timer := mkTimer {
  handler : TimeoutHandler;
  timeout : Z;
  armedAt : Z
}.

(** What a task callback does when it is invoked.  A callback cannot read
    the scheduler's private state; all it can do to the scheduler is call
    its two exported functions, and let time pass while it runs. *)
Inductive Action :=
  | CallScheduleCallback (priorityLevel : PriorityLevel)
      (callback : option CbId) (delay : option Z)
  | CallCancelCallback (task : ref)
  | Elapse (dt : N).

Inductive CallbackResult :=
  | ReturnsFunction (continuation : CbId)
  | ReturnsOther
  | Throws.

Record CallbackBody := mkBody {
  actions : list Action;
  result : CallbackResult
}.

(** What the scheduler takes from its surroundings: the table of
    [SchedulerPriorities] (not among the sources, so the scheduler is read
    for any table) and the behaviour of every function value that may be
    submitted as a task callback. *)
Class Environment := {
  getTimeoutByPriorityLevel : PriorityLevel -> Z;
  body : CbId -> CallbackBody
}.

(** A JavaScript completion: a normal return or a propagating exception. *)
Inductive Completion (A : Type) :=
  | Returned (v : A)
  | Thrown.
Arguments Returned {A} v.
Arguments Thrown {A}.

(** The value of a call expression. *)
Inductive ReturnValue :=
  | undefined
  | taskValue (task : ref).

Record Scheduler := mkScheduler {
  (* module-level variables of Scheduler.ts *)
  taskIdCounter : Z;
  isHostCallbackScheduled : bool;
  isHostTimeoutScheduled : bool;
  isPerformingWork : bool;
  isMessageLoopRunning : bool;
  scheduledHostCallback : option HostCallback;
  taskTimeoutId : Z;
  startTime : option Z;            (* [None] is [undefined] *)
  taskQueue : list ref;
  timerQueue : list ref;
  (* the Task objects allocated so far *)
  tasks : list Task.t;
  (* the host *)
  now : Z;                         (* the clock read by getCurrentTime *)
  timers : gmap Z Timer;           (* pending setTimeout calls, by id *)
  nextTimerId : Z;
  posted : nat;                    (* messages posted to the channel *)
  (* ghost: every callback invocation so far, oldest first *)
  executed : list (ref * CbId)
}.

Definition set_taskIdCounter (v : Z) (s : Scheduler) : Scheduler :=
  mkScheduler v (isHostCallbackScheduled s) (isHostTimeoutScheduled s)
    (isPerformingWork s) (isMessageLoopRunning s) (scheduledHostCallback s)
    (taskTimeoutId s) (startTime s) (taskQueue s) (timerQueue s) (tasks s)
    (now s) (timers s) (nextTimerId s) (posted s) (executed s).

Definition set_isHostCallbackScheduled (v : bool) (s : Scheduler) : Scheduler :=
  mkScheduler (taskIdCounter s) v (isHostTimeoutScheduled s)
    (isPerformingWork s) (isMessageLoopRunning s) (scheduledHostCallback s)
    (taskTimeoutId s) (startTime s) (taskQueue s) (timerQueue s) (tasks s)
    (now s) (timers s) (nextTimerId s) (posted s) (executed s).

Definition set_isHostTimeoutScheduled (v : bool) (s : Scheduler) : Scheduler :=
  mkScheduler (taskIdCounter s) (isHostCallbackScheduled s) v
    (isPerformingWork s) (isMessageLoopRunning s) (scheduledHostCallback s)
    (taskTimeoutId s) (startTime s) (taskQueue s) (timerQueue s) (tasks s)
    (now s) (timers s) (nextTimerId s) (posted s) (executed s).

Definition set_isPerformingWork (v : bool) (s : Scheduler) : Scheduler :=
  mkScheduler (taskIdCounter s) (isHostCallbackScheduled s)
    (isHostTimeoutScheduled s) v (isMessageLoopRunning s)
    (scheduledHostCallback s) (taskTimeoutId s) (startTime s) (taskQueue s)
    (timerQueue s) (tasks s) (now s) (timers s) (nextTimerId s) (posted s)
    (executed s).

Definition set_isMessageLoopRunning (v : bool) (s : Scheduler) : Scheduler :=
  mkScheduler (taskIdCounter s) (isHostCallbackScheduled s)
    (isHostTimeoutScheduled s) (isPerformingWork s) v
    (scheduledHostCallback s) (taskTimeoutId s) (startTime s) (taskQueue s)
    (timerQueue s) (tasks s) (now s) (timers s) (nextTimerId s) (posted s)
    (executed s).

Definition set_scheduledHostCallback (v : option HostCallback) (s : Scheduler) : Scheduler :=
  mkScheduler (taskIdCounter s) (isHostCallbackScheduled s)
    (isHostTimeoutScheduled s) (isPerformingWork s) (isMessageLoopRunning s) v
    (taskTimeoutId s) (startTime s) (taskQueue s) (timerQueue s) (tasks s)
    (now s) (timers s) (nextTimerId s) (posted s) (executed s).

Definition set_taskTimeoutId (v : Z) (s : Scheduler) : Scheduler :=
  mkScheduler (taskIdCounter s) (isHostCallbackScheduled s)
    (isHostTimeoutScheduled s) (isPerformingWork s) (isMessageLoopRunning s)
    (scheduledHostCallback s) v (startTime s) (taskQueue s) (timerQueue s)
    (tasks s) (now s) (timers s) (nextTimerId s) (posted s) (executed s).

Definition set_startTime (v : option Z) (s : Scheduler) : Scheduler :=
  mkScheduler (taskIdCounter s) (isHostCallbackScheduled s)
    (isHostTimeoutScheduled s) (isPerformingWork s) (isMessageLoopRunning s)
    (scheduledHostCallback s) (taskTimeoutId s) v (taskQueue s) (timerQueue s)
    (tasks s) (now s) (timers s) (nextTimerId s) (posted s) (executed s).

Definition set_taskQueue (v : list ref) (s : Scheduler) : Scheduler :=
  mkScheduler (taskIdCounter s) (isHostCallbackScheduled s)
    (isHostTimeoutScheduled s) (isPerformingWork s) (isMessageLoopRunning s)
    (scheduledHostCallback s) (taskTimeoutId s) (startTime s) v (timerQueue s)
    (tasks s) (now s) (timers s) (nextTimerId s) (posted s) (executed s).

Definition set_timerQueue (v : list ref) (s : Scheduler) : Scheduler :=
  mkScheduler (taskIdCounter s) (isHostCallbackScheduled s)
    (isHostTimeoutScheduled s) (isPerformingWork s) (isMessageLoopRunning s)
    (scheduledHostCallback s) (taskTimeoutId s) (startTime s) (taskQueue s) v
    (tasks s) (now s) (timers s) (nextTimerId s) (posted s) (executed s).

Definition set_tasks (v : list Task.t) (s : Scheduler) : Scheduler :=
  mkScheduler (taskIdCounter s) (isHostCallbackScheduled s)
    (isHostTimeoutScheduled s) (isPerformingWork s) (isMessageLoopRunning s)
    (scheduledHostCallback s) (taskTimeoutId s) (startTime s) (taskQueue s)
    (timerQueue s) v (now s) (timers s) (nextTimerId s) (posted s)
    (executed s).

Definition set_now (v : Z) (s : Scheduler) : Scheduler :=
  mkScheduler (taskIdCounter s) (isHostCallbackScheduled s)
    (isHostTimeoutScheduled s) (isPerformingWork s) (isMessageLoopRunning s)
    (scheduledHostCallback s) (taskTimeoutId s) (startTime s) (taskQueue s)
    (timerQueue s) (tasks s) v (timers s) (nextTimerId s) (posted s)
    (executed s).

Definition set_timers (v : gmap Z Timer) (s : Scheduler) : Scheduler :=
  mkScheduler (taskIdCounter s) (isHostCallbackScheduled s)
    (isHostTimeoutScheduled s) (isPerformingWork s) (isMessageLoopRunning s)
    (scheduledHostCallback s) (taskTimeoutId s) (startTime s) (taskQueue s)
    (timerQueue s) (tasks s) (now s) v (nextTimerId s) (posted s) (executed s).

Definition set_nextTimerId (v : Z) (s : Scheduler) : Scheduler :=
  mkScheduler (taskIdCounter s) (isHostCallbackScheduled s)
    (isHostTimeoutScheduled s) (isPerformingWork s) (isMessageLoopRunning s)
    (scheduledHostCallback s) (taskTimeoutId s) (startTime s) (taskQueue s)
    (timerQueue s) (tasks s) (now s) (timers s) v (posted s) (executed s).

Definition set_posted (v : nat) (s : Scheduler) : Scheduler :=
  mkScheduler (taskIdCounter s) (isHostCallbackScheduled s)
    (isHostTimeoutScheduled s) (isPerformingWork s) (isMessageLoopRunning s)
    (scheduledHostCallback s) (taskTimeoutId s) (startTime s) (taskQueue s)
    (timerQueue s) (tasks s) (now s) (timers s) (nextTimerId s) v (executed s).

Definition set_executed (v : list (ref * CbId)) (s : Scheduler) : Scheduler :=
  mkScheduler (taskIdCounter s) (isHostCallbackScheduled s)
    (isHostTimeoutScheduled s) (isPerformingWork s) (isMessageLoopRunning s)
    (scheduledHostCallback s) (taskTimeoutId s) (startTime s) (taskQueue s)
    (timerQueue s) (tasks s) (now s) (timers s) (nextTimerId s) (posted s) v.

(** Reading a task object through a reference. *)
Definition deref (objs : list Task.t) (r : ref) : Task.t :=
  default Task.absent (objs !! r).

Definition task_at (s : Scheduler) (r : ref) : Task.t := deref (tasks s) r.

(** [task.callback = v] and [task.sortIndex = v]. *)
Definition write_callback (r : ref) (v : option CbId) (s : Scheduler) : Scheduler :=
  set_tasks (alter (Task.set_callback v) r (tasks s)) s.

Definition write_sortIndex (r : ref) (v : Z) (s : Scheduler) : Scheduler :=
  set_tasks (alter (Task.set_sortIndex v) r (tasks s)) s.

(** ** The min-heap *)

(** Modelled from the spec: [SchedulerMinHeap] is not among the sources.
    The functions below follow the description of the array-backed binary
    heap: entries are compared by [(sortIndex, id)] lexicographically,
    [push] appends and sifts up while the parent's key is greater, [pop]
    moves the last entry to the root and sifts down, [peek] returns the
    root or nothing.  Nothing is [None], the [null] that [Scheduler.ts]
    tests the results against.  Entries are references, so keys are read
    through the object store at the time of the call.  The fuel of the two
    sifts is the length of the array, which bounds the number of swaps. *)
Definition compare (a b : Task.t) : Z :=
  let diff := Task.sortIndex a - Task.sortIndex b in
  if diff =? 0 then Task.id a - Task.id b else diff.

Fixpoint siftUp (fuel : nat) (objs : list Task.t) (heap : list ref)
    (node : ref) (index : nat) : list ref :=
  match fuel with
  | O => heap
  | S fuel' =>
    if (0 <? index)%nat then
      let parentIndex := ((index - 1) / 2)%nat in
      match heap !! parentIndex with
      | Some parent =>
        if 0 <? compare (deref objs parent) (deref objs node) then
          siftUp fuel' objs (<[index := parent]> (<[parentIndex := node]> heap))
            node parentIndex
        else heap
      | None => heap
      end
    else heap
  end.

Fixpoint siftDown (fuel : nat) (objs : list Task.t) (heap : list ref)
    (node : ref) (index : nat) : list ref :=
  match fuel with
  | O => heap
  | S fuel' =>
    let leftIndex := (2 * index + 1)%nat in
    let rightIndex := (leftIndex + 1)%nat in
    let swap child childIndex :=
      siftDown fuel' objs (<[childIndex := node]> (<[index := child]> heap))
        node childIndex in
    match heap !! leftIndex with
    | None => heap
    | Some lhs =>
      match heap !! rightIndex with
      | Some rhs =>
        if compare (deref objs lhs) (deref objs node) <? 0 then
          if compare (deref objs rhs) (deref objs lhs) <? 0
          then swap rhs rightIndex
          else swap lhs leftIndex
        else if compare (deref objs rhs) (deref objs node) <? 0
          then swap rhs rightIndex
          else heap
      | None =>
        if compare (deref objs lhs) (deref objs node) <? 0
        then swap lhs leftIndex
        else heap
      end
    end
  end.

Definition push (objs : list Task.t) (heap : list ref) (node : ref) : list ref :=
  siftUp (length heap) objs (heap ++ [node]) node (length heap).

Definition peek (heap : list ref) : option ref := head heap.

(** [pop] returns the removed root together with the heap it leaves. *)
Definition pop (objs : list Task.t) (heap : list ref) : option ref * list ref :=
  match heap with
  | [] => (None, [])
  | first :: rest =>
    match reverse rest with
    | [] => (Some first, [])
    | last :: front =>
      let heap' := last :: reverse front in
      (Some first, siftDown (length heap') objs heap' last 0)
    end
  end.

(** ** The host *)

(** Modelled from the spec: [getCurrentTime] of [shared/utils], a clock
    that never goes back.  Reading it does not change the state; time
    passes while callbacks run and between host turns. *)
Definition getCurrentTime (s : Scheduler) : Z := now s.

(** [setTimeout(handler, timeout)]: registers a pending timer under a
    fresh id and returns the id. *)
Definition setTimeout (h : TimeoutHandler) (delay : Z) (s : Scheduler)
    : Z * Scheduler :=
  (nextTimerId s,
   set_nextTimerId (nextTimerId s + 1)
     (set_timers (<[nextTimerId s := mkTimer h delay (now s)]> (timers s)) s)).

(** [clearTimeout(id)]: forgets the timer if it is still pending. *)
Definition clearTimeout (tid : Z) (s : Scheduler) : Scheduler :=
  set_timers (delete tid (timers s)) s.

(** [channel.port2.postMessage(0)]. *)
Definition postMessage (s : Scheduler) : Scheduler :=
  set_posted (S (posted s)) s.

(** The state of the module once it has been loaded, at clock [t0]. *)
Definition initial (t0 : Z) : Scheduler :=
  mkScheduler 0 false false false false None (-1) None [] [] []
    t0 ∅ 1 0%nat [].

(** [let frameInterval = 5]; never assigned again. *)
Definition frameInterval : Z := 5.

(** ** The scheduler *)

Section Scheduler.

Context {env : Environment}.

Definition push_taskQueue (task : ref) (s : Scheduler) : Scheduler :=
  set_taskQueue (push (tasks s) (taskQueue s) task) s.

Definition push_timerQueue (task : ref) (s : Scheduler) : Scheduler :=
  set_timerQueue (push (tasks s) (timerQueue s) task) s.

Definition pop_taskQueue (s : Scheduler) : Scheduler :=
  set_taskQueue (snd (pop (tasks s) (taskQueue s))) s.

Definition pop_timerQueue (s : Scheduler) : Scheduler :=
  set_timerQueue (snd (pop (tasks s) (timerQueue s))) s.

Definition requestHostTimeout (h : TimeoutHandler) (delay : Z)
    (s : Scheduler) : Scheduler :=
  if bool_decide (isHostTimeoutScheduled s = false) then
    let s := set_isHostTimeoutScheduled true s in
    let '(tid, s) := setTimeout h delay s in
    set_taskTimeoutId tid s
  else s.

Definition cancelHostTimeout (s : Scheduler) : Scheduler :=
  let s := clearTimeout (taskTimeoutId s) s in
  set_taskTimeoutId (-1) s.

Definition requestHostCallback (cb : HostCallback) (s : Scheduler) : Scheduler :=
  set_scheduledHostCallback (Some cb) s.

Definition schedulePerformWorkUntilDeadline (s : Scheduler) : Scheduler :=
  postMessage s.

Definition scheduleCallback (priorityLevel : PriorityLevel)
    (callback : option CbId) (delay : option Z) (s : Scheduler)
    : ReturnValue * Scheduler :=
  let currentTime := getCurrentTime s in
  let startTime := currentTime + default 0 delay in
  let expirationTime := startTime + getTimeoutByPriorityLevel priorityLevel in
  (* const task = { id: taskIdCounter++, ..., sortIndex: 0 } *)
  let task : ref := length (tasks s) in
  let s :=
    set_tasks
      (tasks s ++ [Task.mk (taskIdCounter s) priorityLevel callback
                     startTime expirationTime 0]) s in
  let s := set_taskIdCounter (taskIdCounter s + 1) s in
  let s :=
    if startTime >? currentTime then
      let s := write_sortIndex task startTime s in
      let s := push_timerQueue task s in
      if bool_decide (peek (taskQueue s) = None)
         && bool_decide (peek (timerQueue s) = Some task)
      then
        let s :=
          if bool_decide (isHostTimeoutScheduled s = true)
          then cancelHostTimeout s
          else set_isHostTimeoutScheduled true s in
        requestHostTimeout handleTimeoutHandler (startTime - currentTime) s
      else s
    else
      let s := write_sortIndex task expirationTime s in
      let s := push_taskQueue task s in
      if negb (isHostCallbackScheduled s) && negb (isPerformingWork s)
      then
        let s := set_isHostCallbackScheduled true s in
        requestHostCallback flushWorkCallback s
      else s in
  (* the function body ends without a return statement *)
  (undefined, s).

Fixpoint advanceTimers_while (fuel : nat) (currentTime : Z) (s : Scheduler)
    : Scheduler :=
  match fuel with
  | O => s
  | S fuel' =>
    match peek (timerQueue s) with
    | None => s
    | Some top =>
      if bool_decide (Task.callback (task_at s top) = None) then
        advanceTimers_while fuel' currentTime (pop_timerQueue s)
      else if Task.startTime (task_at s top) <=? currentTime then
        let s := pop_timerQueue s in
        let s := write_sortIndex top (Task.expirationTime (task_at s top)) s in
        let s := push_taskQueue top s in
        advanceTimers_while fuel' currentTime s
      else s
    end
  end.

(** Every iteration that does not leave the loop pops the timer queue,
    so its length bounds the number of iterations. *)
Definition advanceTimers (currentTime : Z) (s : Scheduler) : Scheduler :=
  advanceTimers_while (length (timerQueue s)) currentTime s.

Definition handleTimeout (currentTime : Z) (s : Scheduler) : Scheduler :=
  let s := set_isHostTimeoutScheduled false s in
  let s := advanceTimers currentTime s in
  if negb (isHostCallbackScheduled s) then
    match peek (taskQueue s) with
    | Some _ =>
      let s := set_isHostCallbackScheduled true s in
      requestHostCallback flushWorkCallback s
    | None =>
      match peek (timerQueue s) with
      | Some top =>
        requestHostTimeout handleTimeoutHandler
          (Task.startTime (task_at s top) - currentTime) s
      | None => s
      end
    end
  else s.

Definition cancelCallback (task : ref) (s : Scheduler) : Scheduler :=
  write_callback task None s.

Definition shouldYieldToHost (s : Scheduler) : bool :=
  match startTime s with
  | Some sliceStart =>
    let timeElapsed := getCurrentTime s - sliceStart in
    frameInterval <=? timeElapsed
  | None => false   (* a comparison with NaN *)
  end.

(** *** Calling a task callback *)

Definition perform (s : Scheduler) (a : Action) : Scheduler :=
  match a with
  | CallScheduleCallback p cb delay => snd (scheduleCallback p cb delay s)
  | CallCancelCallback task => cancelCallback task s
  | Elapse dt => set_now (now s + Z.of_N dt) s
  end.

(** [callback()] on behalf of [task]. *)
Definition invoke (task : ref) (callback : CbId) (s : Scheduler)
    : CallbackResult * Scheduler :=
  let s := set_executed (executed s ++ [(task, callback)]) s in
  (result (body callback), foldl perform s (actions (body callback))).

(** *** The work loop *)

(** The statements after the [while] loop; [currentTask] is the value
    the loop variable has when the loop is left. *)
Definition workLoop_end (currentTask : option ref) (currentTime : Z)
    (s : Scheduler) : Completion bool * Scheduler :=
  match currentTask with
  | Some _ => (Returned true, s)
  | None =>
    match peek (taskQueue s) with
    | Some top =>
      (Returned false,
       requestHostTimeout flushWorkHandler
         (Task.startTime (task_at s top) - currentTime) s)
    | None => (Returned false, s)
    end
  end.

(** What one pass through the loop, condition included, does. *)
Inductive Pass :=
  | Again (currentTime : Z) (s : Scheduler)
  | Leave (r : Completion bool * Scheduler).

Definition workLoop_pass (currentTime : Z) (s : Scheduler) : Pass :=
  match peek (taskQueue s) with
  | None => Leave (workLoop_end None currentTime s)
  | Some currentTask =>
    if (Task.expirationTime (task_at s currentTask) >? currentTime)
       && shouldYieldToHost s
    then Leave (workLoop_end (Some currentTask) currentTime s)
    else
      match Task.callback (task_at s currentTask) with
      | None => Again currentTime (pop_taskQueue s)
      | Some callback =>
        let s := write_callback currentTask None s in
        match invoke currentTask callback s with
        | (Throws, s) => Leave (Thrown, s)
        | (ReturnsFunction continuationCallback, s) =>
          let currentTime := getCurrentTime s in
          let s := write_callback currentTask (Some continuationCallback) s in
          let s := advanceTimers currentTime s in
          Leave (Returned true, s)
        | (ReturnsOther, s) =>
          let currentTime := getCurrentTime s in
          let s :=
            if bool_decide (peek (taskQueue s) = Some currentTask)
            then pop_taskQueue s else s in
          let s := advanceTimers currentTime s in
          Again currentTime s
        end
      end
  end.

(** The loop may run for ever (callbacks can keep submitting overdue
    work), so it is iterated on fuel; [None] means the fuel ran out. *)
Fixpoint workLoop_while (fuel : nat) (currentTime : Z) (s : Scheduler)
    : option (Completion bool * Scheduler) :=
  match fuel with
  | O => None
  | S fuel' =>
    match workLoop_pass currentTime s with
    | Again currentTime' s' => workLoop_while fuel' currentTime' s'
    | Leave r => Some r
    end
  end.

Definition workLoop (fuel : nat) (hasTimeRemaining : bool)
    (initialTime : Z) (s : Scheduler)
    : option (Completion bool * Scheduler) :=
  let currentTime := initialTime in
  let s := advanceTimers currentTime s in
  workLoop_while fuel currentTime s.

Definition flushWork (fuel : nat) (hasTimeRemaining : bool)
    (initialTime : Z) (s : Scheduler)
    : option (Completion bool * Scheduler) :=
  let s := set_isHostCallbackScheduled false s in
  let s :=
    if isHostTimeoutScheduled s
    then cancelHostTimeout (set_isHostTimeoutScheduled false s)
    else s in
  let s := set_isPerformingWork true s in
  (* try { return workLoop(...) } finally { isPerformingWork = false } *)
  match workLoop fuel hasTimeRemaining initialTime s with
  | Some (c, s) => Some (c, set_isPerformingWork false s)
  | None => None
  end.

Definition performWorkUntilDealine (fuel : nat) (s : Scheduler)
    : option (Completion unit * Scheduler) :=
  match scheduledHostCallback s with
  | Some flushWorkCallback =>
    let currentTime := getCurrentTime s in
    let s := set_startTime (Some currentTime) s in
    let hasTimeRemaining := true in
    match flushWork fuel hasTimeRemaining currentTime s with
    | Some (Returned hasMoreWork, s) =>
      if hasMoreWork
      then Some (Returned tt, schedulePerformWorkUntilDeadline s)
      else
        Some (Returned tt,
              set_scheduledHostCallback None (set_isMessageLoopRunning false s))
    | Some (Thrown, s) =>
      (* hasMoreWork still holds its initial value, true *)
      Some (Thrown, schedulePerformWorkUntilDeadline s)
    | None => None
    end
  | None => Some (Returned tt, set_isMessageLoopRunning false s)
  end.

(** *** The host event loop *)

(** One atomic turn of the host.  The caller may use either exported
    function, time may pass, the message handler of the channel may run
    and the function given to [setTimeout] may run.  The entry points
    are enabled at every moment: a real host runs the message handler
    only for a message that was posted and a timeout only once it was
    armed and is due, so every real run is a run of this relation
    ([host_step] below, [host_step_step]).  The function given to
    [setTimeout] always calls [handleTimeout]: the one call that would
    pass [flushWork] is never reached ([reachable_timeouts]). *)
Inductive step : Scheduler -> Scheduler -> Prop :=
  | step_scheduleCallback p cb delay s :
      step s (snd (scheduleCallback p cb delay s))
  | step_cancelCallback task s :
      step s (cancelCallback task s)
  | step_elapse dt s :
      step s (set_now (now s + Z.of_N dt) s)
  | step_message fuel s c s' :
      performWorkUntilDealine fuel (set_posted (Nat.pred (posted s)) s)
        = Some (c, s') ->
      step s s'
  | step_timeout tid s :
      step s (handleTimeout (getCurrentTime s) (clearTimeout tid s)).

(** The same turns as a real host takes them: the message handler runs
    once for each message posted to the channel, and a timeout fires only
    if it is pending and its delay has passed. *)
Inductive host_step : Scheduler -> Scheduler -> Prop :=
  | host_scheduleCallback p cb delay s :
      host_step s (snd (scheduleCallback p cb delay s))
  | host_cancelCallback task s :
      host_step s (cancelCallback task s)
  | host_elapse dt s :
      host_step s (set_now (now s + Z.of_N dt) s)
  | host_message fuel s c s' :
      (0 < posted s)%nat ->
      performWorkUntilDealine fuel (set_posted (Nat.pred (posted s)) s)
        = Some (c, s') ->
      host_step s s'
  | host_timeout tid timer s :
      timers s !! tid = Some timer ->
      handler timer = handleTimeoutHandler ->
      armedAt timer + timeout timer <= now s ->
      host_step s (handleTimeout (getCurrentTime s) (clearTimeout tid s)).

(** *** What the functions do to the queues, piece by piece *)

(** Two states that differ only in flags and in host bookkeeping (timers,
    posted messages, the slice start, the id counter). *)
Definition same_work (s s' : Scheduler) : Prop :=
  tasks s' = tasks s /\ taskQueue s' = taskQueue s /\
  timerQueue s' = timerQueue s /\ now s' = now s /\
  executed s' = executed s /\ isPerformingWork s' = isPerformingWork s.

(** The state in which a callback starts to run: its slot has been
    cleared and the invocation is on record. *)
Definition entered (task : ref) (callback : CbId) (s : Scheduler) : Scheduler :=
  set_executed (executed s ++ [(task, callback)]) (write_callback task None s).

(** What a call of an exported function can do, as a sequence of these. *)
Inductive api_effect : Scheduler -> Scheduler -> Prop :=
  | api_control s s' :
      same_work s s' -> api_effect s s'
  | api_elapse dt s :
      api_effect s (set_now (now s + Z.of_N dt) s)
  | api_submit_ready t v s :
      Task.startTime t <= now s ->
      api_effect s
        (push_taskQueue (length (tasks s))
           (write_sortIndex (length (tasks s)) v
              (set_tasks (tasks s ++ [t]) s)))
  | api_submit_delayed t v s :
      api_effect s
        (push_timerQueue (length (tasks s))
           (write_sortIndex (length (tasks s)) v
              (set_tasks (tasks s ++ [t]) s)))
  | api_cancel task s :
      api_effect s (write_callback task None s).

(** What one iteration of [advanceTimers] can do. *)
Inductive timer_effect : Scheduler -> Scheduler -> Prop :=
  | timer_discard top s :
      peek (timerQueue s) = Some top ->
      Task.callback (task_at s top) = None ->
      timer_effect s (pop_timerQueue s)
  | timer_promote top s :
      peek (timerQueue s) = Some top ->
      Task.startTime (task_at s top) <= now s ->
      timer_effect s
        (push_taskQueue top
           (write_sortIndex top (Task.expirationTime (task_at s top))
              (pop_timerQueue s))).

(** What a host turn can do. *)
Inductive work_effect : Scheduler -> Scheduler -> Prop :=
  | work_api s s' :
      api_effect s s' -> work_effect s s'
  | work_timer s s' :
      timer_effect s s' -> work_effect s s'
  | work_flag b s :
      work_effect s (set_isPerformingWork b s)
  | work_retire s :
      work_effect s (pop_taskQueue s)
  | work_call task callback s :
      peek (taskQueue s) = Some task ->
      Task.callback (task_at s task) = Some callback ->
      work_effect s
        (foldl perform (entered task callback s) (actions (body callback)))
  | work_resume task callback continuation s :
      peek (taskQueue s) = Some task ->
      Task.callback (task_at s task) = Some callback ->
      work_effect s
        (write_callback task (Some continuation)
           (foldl perform (entered task callback s) (actions (body callback)))).

(** *** Invariants *)

(** Every task in the ready queue exists and has reached its start time;
    every task in the timer queue exists. *)
Definition queues_on_time (s : Scheduler) : Prop :=
  (forall r, r ∈ taskQueue s ->
     exists t, tasks s !! r = Some t /\ Task.startTime t <= now s) /\
  (forall r, r ∈ timerQueue s -> (r < length (tasks s))%nat).

(** The task exists and its callback slot is empty. *)
Definition cancelled (task : ref) (s : Scheduler) : Prop :=
  exists t, tasks s !! task = Some t /\ Task.callback t = None.

(** The invocations of one task in a log. *)
Definition runs_of (task : ref) (log : list (ref * CbId)) : list (ref * CbId) :=
  filter (fun e => e.1 = task) log.

(** The second object store has every object of the first, with the
    fields that are never assigned after creation unchanged. *)
Definition extends (objs objs' : list Task.t) : Prop :=
  forall r t, objs !! r = Some t ->
    exists t', objs' !! r = Some t' /\
      Task.id t' = Task.id t /\
      Task.priorityLevel t' = Task.priorityLevel t /\
      Task.startTime t' = Task.startTime t /\
      Task.expirationTime t' = Task.expirationTime t.

(** How a later state relates to an earlier one: the clock has not gone
    back, no task object was lost or had a fixed field changed, the timer
    queue gained only tasks created since, and the ready queue gained only
    tasks created since or taken from the timer queue. *)
Definition evolves (s s' : Scheduler) : Prop :=
  now s <= now s' /\
  extends (tasks s) (tasks s') /\
  (forall r, r ∈ timerQueue s' ->
     r ∈ timerQueue s \/ (length (tasks s) <= r)%nat) /\
  (forall r, r ∈ taskQueue s' ->
     r ∈ taskQueue s \/ r ∈ timerQueue s \/ (length (tasks s) <= r)%nat).

(** A real host never gets anything to do: nothing is posted to the
    channel, no timeout is pending, nothing has run. *)
Definition host_idle (s : Scheduler) : Prop :=
  posted s = 0%nat /\ timers s = ∅ /\ executed s = [].

(** Every pending timeout is one that calls [handleTimeout]. *)
Definition timeouts_call_handleTimeout (s : Scheduler) : Prop :=
  map_Forall (fun _ timer => handler timer = handleTimeoutHandler) (timers s).

(** The state a [Pass] carries. *)
Definition pass_state (p : Pass) : Scheduler :=
  match p with
  | Again _ s => s
  | Leave r => r.2
  end.

End Scheduler.

(** ** Sample inputs *)

(** A few callbacks: [0] runs for one time unit and finishes, [1] runs for
    seven and returns [0] as its continuation, [2] throws, [3] submits a
    delayed task and finishes. *)
Definition sampleBody (c : CbId) : CallbackBody :=
  match c with
  | 0%nat => mkBody [Elapse 1] ReturnsOther
  | 1%nat => mkBody [Elapse 7] (ReturnsFunction 0%nat)
  | 2%nat => mkBody [] Throws
  | 3%nat =>
    mkBody [CallScheduleCallback NormalPriority (Some 0%nat) (Some 10)]
      ReturnsOther
  | _ => mkBody [] ReturnsOther
  end.

Definition sampleEnv : Environment :=
  {| getTimeoutByPriorityLevel := quotedTimeouts; body := sampleBody |}.

(** [scheduleCallback(NormalPriority, cb0)] on a freshly loaded module. *)
Definition readyOnly : Scheduler :=
  (scheduleCallback (env := sampleEnv) NormalPriority (Some 0%nat) None
     (initial 0)).2.

(** [scheduleCallback(NormalPriority, cb0, {delay: 50})] on a freshly
    loaded module. *)
Definition delayedOnly : Scheduler :=
  (scheduleCallback (env := sampleEnv) NormalPriority (Some 0%nat) (Some 50)
     (initial 0)).2.

(** A ready task followed by a delayed one. *)
Definition readyAndDelayed : Scheduler :=
  (scheduleCallback (env := sampleEnv) NormalPriority (Some 0%nat) (Some 50)
     readyOnly).2.

(** A freshly loaded module on which the host has run the timeout handler
    while one delayed task (due at 100) was waiting, at time 10.  This is
    the only way a timeout gets armed. *)
Definition timeoutArmed : Scheduler :=
  handleTimeout 10
    (set_now 10
       (scheduleCallback (env := sampleEnv) NormalPriority (Some 0%nat)
          (Some 100) (initial 0)).2).

(** The ready task of [readyOnly] at the head of the work loop, in a slice
    that started at 0, with the clock at 5. *)
Definition sliceSpent : Scheduler :=
  set_startTime (Some 0) (set_now 5 readyOnly).

(** An overdue task whose callback returns a continuation. *)
Definition continuationReady : Scheduler :=
  (scheduleCallback (env := sampleEnv) ImmediatePriority (Some 1%nat) None
     (initial 0)).2.

(** An overdue task whose callback throws. *)
Definition throwingReady : Scheduler :=
  (scheduleCallback (env := sampleEnv) ImmediatePriority (Some 2%nat) None
     (initial 0)).2.

(** The head of the work loop after the ready task of [readyAndDelayed]
    has run in a flush: the ready queue is empty, the delayed task waits. *)
Definition timerWaiting : Scheduler :=
  pass_state
    (workLoop_pass (env := sampleEnv) 0
       (set_isPerformingWork true
          (set_isHostCallbackScheduled false readyAndDelayed))).

(** ** Further invariants of the reachable states *)

Section Invariants.

Context {env : Environment}.

(** [taskIdCounter] counts the tasks created so far, and the [id] of a task
    is its rank of creation. *)
Definition ids_in_order (s : Scheduler) : Prop :=
  taskIdCounter s = Z.of_nat (length (tasks s)) /\
  forall r t, tasks s !! r = Some t -> Task.id t = Z.of_nat r.

(** The deadline of every task is its start time plus the budget of its
    priority level. *)
Definition deadlines_set (s : Scheduler) : Prop :=
  forall r t, tasks s !! r = Some t ->
    Task.expirationTime t
    = Task.startTime t + getTimeoutByPriorityLevel (Task.priorityLevel t).

(** No task is in both queues or twice in one, and every queue entry is a
    task that exists. *)
Definition queues_distinct (s : Scheduler) : Prop :=
  NoDup (taskQueue s ++ timerQueue s) /\
  forall r, r ∈ taskQueue s ++ timerQueue s -> (r < length (tasks s))%nat.

(** The key a queue sorts by: the start time in the timer queue, the
    deadline in the ready queue. *)
Definition sort_keys_set (s : Scheduler) : Prop :=
  (forall r, r ∈ timerQueue s ->
     Task.sortIndex (task_at s r) = Task.startTime (task_at s r)) /\
  (forall r, r ∈ taskQueue s ->
     Task.sortIndex (task_at s r) = Task.expirationTime (task_at s r)).

(** Everything in the state but the tasks, the queues, the id counter,
    the clock and the log: the flags, the stored host callback, the slice
    start and the host's timers and messages. *)
Definition control (s : Scheduler) :=
  (isHostCallbackScheduled s, isHostTimeoutScheduled s, isPerformingWork s,
   isMessageLoopRunning s, scheduledHostCallback s, taskTimeoutId s,
   startTime s, timers s, nextTimerId s, posted s).

(** A callback that does not call [scheduleCallback]. *)
Definition submits_nothing (b : CallbackBody) : Prop :=
  Forall (fun a =>
            match a with
            | CallScheduleCallback _ _ _ => False
            | _ => True
            end) (actions b).

(** The number of queue entries. *)
Definition queued (s : Scheduler) : nat :=
  (length (taskQueue s) + length (timerQueue s))%nat.

(** At most one message is waiting in the channel, and
    [isMessageLoopRunning] is not set. *)
Definition one_message (s : Scheduler) : Prop :=
  (posted s <= 1)%nat /\ isMessageLoopRunning s = false.

(** What holds of the flags whenever the host has control: no flush is
    in progress, and a host callback marked as scheduled is stored. *)
Definition between_turns (s : Scheduler) : Prop :=
  isPerformingWork s = false /\
  (isHostCallbackScheduled s = true ->
   scheduledHostCallback s = Some flushWorkCallback).

(** The two invariants together. *)
Definition queues_keyed (s : Scheduler) : Prop :=
  queues_distinct s /\ sort_keys_set s.

(** How a later state relates to an earlier one as regards cancelling
    [task]: the task still exists and the log has only grown; if the slot of
    the task was empty it still is and the task was not invoked in between;
    and if a callback invoked in between on behalf of another task cancels
    [task], the slot is empty and [task] was not invoked after that
    invocation. *)
Definition cancel_kept (task : ref) (s s' : Scheduler) : Prop :=
  (task < length (tasks s'))%nat /\
  exists new,
    executed s' = executed s ++ new /\
    (cancelled task s -> cancelled task s' /\ runs_of task new = []) /\
    (forall before r callback after,
       new = before ++ (r, callback) :: after ->
       r <> task ->
       CallCancelCallback task ∈ actions (body callback) ->
       cancelled task s' /\ runs_of task after = []).

(** What the state of the scheduler goes through, between host turns and
    inside one.  Besides whole turns these are the statements of
    [flushWork] and [workLoop] one at a time: a write of a flag or of the
    host's bookkeeping, a call of [advanceTimers] with the time on the
    clock or an earlier one, a pop of the ready queue (l.200, l.212), the
    start of the callback of the root (l.202-203), one action of the
    callback that is running, and the write of a continuation into a slot
    (l.207). *)
Inductive moves : Scheduler -> Scheduler -> Prop :=
  | moves_turn s s' :
      step s s' -> moves s s'
  | moves_control s s' :
      same_work s s' -> moves s s'
  | moves_performing b s :
      moves s (set_isPerformingWork b s)
  | moves_advanceTimers currentTime s :
      currentTime <= now s -> moves s (advanceTimers currentTime s)
  | moves_pop s :
      moves s (pop_taskQueue s)
  | moves_enter task callback s :
      peek (taskQueue s) = Some task ->
      Task.callback (task_at s task) = Some callback ->
      moves s (entered task callback s)
  | moves_action a s :
      moves s (perform s a)
  | moves_continuation task continuationCallback s :
      moves s (write_callback task (Some continuationCallback) s).

End Invariants.

(** ** Start times in double precision *)


(** [options?.delay || 0] on JavaScript numbers: [||] gives its right
    operand when the left one is [undefined], a zero or NaN. *)
Definition delay_or_zero (delay : option float) : float :=
  match delay with
  | Some d =>
    if PrimFloat.eqb d 0%float || PrimFloat.is_nan d then 0%float else d
  | None => 0%float
  end.

(** The start time [scheduleCallback] computes (l.40-41). *)
Definition scheduleCallback_startTime (currentTime : float)
    (delay : option float) : float :=
  PrimFloat.add currentTime (delay_or_zero delay).

(** The queue [scheduleCallback] pushes the new task on: the timer queue
    if [startTime > currentTime] (l.54, l.57), the ready queue otherwise
    (l.75). *)
Inductive Queue := TimerQueue | TaskQueue.

Definition scheduleCallback_queue (currentTime : float)
    (delay : option float) : Queue :=
  if PrimFloat.ltb currentTime (scheduleCallback_startTime currentTime delay)
  then TimerQueue else TaskQueue.

(** ** More sample inputs *)

(** Callbacks that submit nothing: [0] finishes after one time unit, [1]
    cancels task 0 and returns [0] as its continuation, [2] throws. *)
Definition quietBody (c : CbId) : CallbackBody :=
  match c with
  | 0%nat => mkBody [Elapse 1] ReturnsOther
  | 1%nat => mkBody [CallCancelCallback 0%nat; Elapse 7] (ReturnsFunction 0%nat)
  | 2%nat => mkBody [] Throws
  | _ => mkBody [] ReturnsOther
  end.

Definition quietEnv : Environment :=
  {| getTimeoutByPriorityLevel := quotedTimeouts; body := quietBody |}.



(** A normal task with callback [0] and then an immediate one whose
    callback, [1] of [quietBody], cancels the first: the second is the root
    of the ready queue. *)
Definition cancellerReady : Scheduler :=
  (scheduleCallback (env := quietEnv) ImmediatePriority (Some 1%nat) None
     (scheduleCallback (env := quietEnv) NormalPriority (Some 0%nat) None
        (initial 0)).2).2.

(** * Properties *)

(** ** The min-heap keeps its entries *)

(** Sifting only exchanges entries, so both queue operations are
    permutations: nothing is lost or duplicated by [push], and [pop]
    removes the root and nothing else. *)

Lemma siftUp_perm fuel objs heap node index :
  heap !! index = Some node ->
  siftUp fuel objs heap node index ≡ₚ heap.
Proof.
  revert heap index.
  induction fuel as [|fuel IH]; intros heap index Hnode; cbn [siftUp]; [done|].
  destruct (0 <? index)%nat eqn:Hpos; [|done].
  apply Nat.ltb_lt in Hpos.
  destruct (heap !! ((index - 1) / 2)%nat) as [parent|] eqn:Hparent; [|done].
  case_match; [|done].
  assert (Hlt : ((index - 1) / 2 < index)%nat).
  { pose proof (Nat.Div0.div_le_upper_bound (index - 1) 2 (index - 1)). lia. }
  rewrite IH.
  - by apply Permutation_insert_swap.
  - rewrite list_lookup_insert_ne by lia.
    apply list_lookup_insert_eq. by eapply lookup_lt_Some.
Qed.

Lemma siftDown_perm fuel objs heap node index :
  heap !! index = Some node ->
  siftDown fuel objs heap node index ≡ₚ heap.
Proof.
  revert heap index.
  induction fuel as [|fuel IH]; intros heap index Hnode; cbn [siftDown]; [done|].
  assert (Hswap : forall child childIndex,
    childIndex <> index -> heap !! childIndex = Some child ->
    siftDown fuel objs (<[childIndex := node]> (<[index := child]> heap))
      node childIndex ≡ₚ heap).
  { intros child childIndex Hne Hchild. rewrite IH.
    - by apply Permutation_insert_swap.
    - apply list_lookup_insert_eq. rewrite length_insert.
      by eapply lookup_lt_Some. }
  repeat case_match; try done; apply Hswap; (lia || done).
Qed.

Lemma push_perm objs heap node : push objs heap node ≡ₚ node :: heap.
Proof.
  unfold push. rewrite siftUp_perm.
  - by rewrite Permutation_app_comm.
  - by rewrite lookup_app_r, Nat.sub_diag.
Qed.

Lemma pop_perm objs first rest :
  exists heap', pop objs (first :: rest) = (Some first, heap') /\ heap' ≡ₚ rest.
Proof.
  unfold pop. destruct (reverse rest) as [|last front] eqn:Hrev;
    apply (f_equal reverse) in Hrev; rewrite reverse_involutive in Hrev;
    subst rest.
  - by exists [].
  - eexists. split; [done|]. rewrite siftDown_perm by done.
    rewrite reverse_cons. by rewrite Permutation_app_comm.
Qed.

Lemma elem_of_push objs heap node x :
  x ∈ push objs heap node <-> x = node \/ x ∈ heap.
Proof. rewrite push_perm. apply elem_of_cons. Qed.

Lemma length_push objs heap node :
  length (push objs heap node) = S (length heap).
Proof. by rewrite push_perm. Qed.

Lemma peek_Some heap top :
  peek heap = Some top -> exists rest, heap = top :: rest.
Proof. destruct heap; simpl; [done|]. intros [= ->]. eauto. Qed.

Lemma peek_None heap : peek heap = None -> heap = [].
Proof. by destruct heap. Qed.

Lemma peek_elem_of heap top : peek heap = Some top -> top ∈ heap.
Proof. intros [rest ->]%peek_Some. left. Qed.

Lemma elem_of_pop objs heap x : x ∈ (pop objs heap).2 -> x ∈ heap.
Proof.
  destruct heap as [|first rest]; [done|].
  destruct (pop_perm objs first rest) as (heap' & -> & Hperm); simpl.
  rewrite Hperm. by right.
Qed.

Lemma length_pop objs heap top :
  peek heap = Some top -> S (length (pop objs heap).2) = length heap.
Proof.
  intros [rest ->]%peek_Some.
  destruct (pop_perm objs top rest) as (heap' & -> & Hperm); simpl.
  by rewrite Hperm.
Qed.

Lemma elem_of_before_pop objs heap top x :
  peek heap = Some top -> x ∈ heap -> x = top \/ x ∈ (pop objs heap).2.
Proof.
  intros [rest ->]%peek_Some.
  destruct (pop_perm objs top rest) as (heap' & -> & Hperm); simpl.
  rewrite Hperm. apply elem_of_cons.
Qed.

(** ** Every function is a sequence of effects *)

Section Properties.

Context {env : Environment}.

Ltac split_branches :=
  repeat first
    [ case_bool_decide
    | match goal with
      | |- context [if ?b then _ else _] => destruct b eqn:?
      | |- context [match ?x with _ => _ end] => destruct x eqn:?
      end ].

Ltac solve_same_work :=
  unfold same_work, requestHostTimeout, cancelHostTimeout, clearTimeout,
    requestHostCallback, setTimeout, push_timerQueue, push_taskQueue,
    write_sortIndex;
  split_branches; simpl; by repeat split.

Lemma same_work_refl s : same_work s s.
Proof. solve_same_work. Qed.

Lemma requestHostTimeout_same_work h delay s :
  same_work s (requestHostTimeout h delay s).
Proof. solve_same_work. Qed.

Lemma scheduleCallback_api p cb delay s :
  rtc api_effect s (scheduleCallback p cb delay s).2.
Proof.
  unfold scheduleCallback; simpl.
  destruct (getCurrentTime s + default 0 delay >? getCurrentTime s) eqn:Hlater.
  - eapply rtc_l; [apply api_submit_delayed|].
    apply rtc_once, api_control. solve_same_work.
  - eapply rtc_l.
    + apply (api_submit_ready
               (Task.mk (taskIdCounter s) p cb
                  (getCurrentTime s + default 0 delay)
                  (getCurrentTime s + default 0 delay
                   + getTimeoutByPriorityLevel p) 0)).
      rewrite Z.gtb_ltb in Hlater. apply Z.ltb_ge in Hlater.
      simpl. unfold getCurrentTime in *. lia.
    + apply rtc_once, api_control. solve_same_work.
Qed.

Lemma perform_api s a : rtc api_effect s (perform s a).
Proof.
  destruct a; simpl.
  - apply scheduleCallback_api.
  - apply rtc_once, api_cancel.
  - apply rtc_once, api_elapse.
Qed.

Lemma foldl_perform_api l s : rtc api_effect s (foldl perform s l).
Proof.
  revert s. induction l as [|a l IH]; intros s; simpl; [done|].
  etrans; [apply perform_api | apply IH].
Qed.

Lemma rtc_timer_effect_now s s' : rtc timer_effect s s' -> now s' = now s.
Proof.
  induction 1 as [|s s1 s' Hstep _ IH]; [done|].
  rewrite IH. by destruct Hstep.
Qed.

Lemma advanceTimers_while_timer fuel currentTime s :
  currentTime <= now s ->
  rtc timer_effect s (advanceTimers_while fuel currentTime s).
Proof.
  revert s. induction fuel as [|fuel IH]; intros s Hnow; simpl; [done|].
  destruct (peek (timerQueue s)) as [top|] eqn:Htop; [|done].
  case_bool_decide as Hcb.
  - eapply rtc_l; [by eapply timer_discard|]. by apply IH.
  - destruct (Task.startTime (task_at s top) <=? currentTime) eqn:Hdue; [|done].
    eapply rtc_l; [eapply (timer_promote top); [done|lia]|]. by apply IH.
Qed.

Lemma advanceTimers_timer currentTime s :
  currentTime <= now s ->
  rtc timer_effect s (advanceTimers currentTime s).
Proof. apply advanceTimers_while_timer. Qed.

Lemma rtc_work_api s s' : rtc api_effect s s' -> rtc work_effect s s'.
Proof. induction 1; [done|]. eapply rtc_l; [by apply work_api|done]. Qed.

Lemma rtc_work_timer s s' : rtc timer_effect s s' -> rtc work_effect s s'.
Proof. induction 1; [done|]. eapply rtc_l; [by apply work_timer|done]. Qed.

Lemma work_control s s' : same_work s s' -> rtc work_effect s s'.
Proof. intros. by apply rtc_once, work_api, api_control. Qed.

Lemma handleTimeout_work currentTime s :
  currentTime <= now s ->
  rtc work_effect s (handleTimeout currentTime s).
Proof.
  intros Hnow. unfold handleTimeout.
  set (s1 := set_isHostTimeoutScheduled false s).
  set (s2 := advanceTimers currentTime s1).
  etrans; [apply (work_control s s1); solve_same_work|].
  etrans; [apply rtc_work_timer, (advanceTimers_timer currentTime s1 Hnow)|].
  fold s2. apply work_control.
  solve_same_work.
Qed.

Lemma workLoop_end_same_work currentTask currentTime s :
  same_work s (workLoop_end currentTask currentTime s).2.
Proof.
  unfold workLoop_end. solve_same_work.
Qed.

Lemma rtc_api_effect_now s s' : rtc api_effect s s' -> now s <= now s'.
Proof.
  induction 1 as [|s s1 s' Hstep _ IH]; [done|].
  etrans; [|exact IH].
  destruct Hstep as [s s1 Hsame| | | |]; simpl; try lia.
  destruct Hsame as (_ & _ & _ & -> & _). done.
Qed.

Lemma workLoop_pass_work currentTime s :
  currentTime <= now s ->
  rtc work_effect s (pass_state (workLoop_pass currentTime s)) /\
  match workLoop_pass currentTime s with
  | Again currentTime' s' => currentTime' <= now s'
  | Leave _ => True
  end.
Proof.
  intros Hnow. unfold workLoop_pass.
  destruct (peek (taskQueue s)) as [currentTask|] eqn:Hpeek.
  2:{ split; [|done]. cbn [pass_state].
      apply work_control, workLoop_end_same_work. }
  destruct (_ && _).
  { split; [|done]. cbn [pass_state].
    apply work_control, workLoop_end_same_work. }
  destruct (Task.callback (task_at s currentTask)) as [callback|] eqn:Hcb.
  2:{ split; [|done]. simpl. apply rtc_once, work_retire. }
  unfold invoke. simpl.
  change (set_executed _ (write_callback currentTask None s))
    with (entered currentTask callback s).
  set (s1 := foldl perform (entered currentTask callback s)
               (actions (body callback))).
  destruct (result (body callback)) as [k| |]; simpl.
  - split; [|done].
    eapply rtc_l; [by apply (work_resume currentTask callback k)|].
    apply rtc_work_timer, advanceTimers_timer. simpl. done.
  - assert (Hs1 : rtc work_effect s s1)
      by (apply rtc_once; by apply work_call).
    assert (Hnow1 : forall s2, now s2 = now s1 ->
              rtc work_effect s2 (advanceTimers (getCurrentTime s1) s2) /\
              now (advanceTimers (getCurrentTime s1) s2) = now s1).
    { intros s2 Hs2.
      assert (Ht : rtc timer_effect s2 (advanceTimers (getCurrentTime s1) s2))
        by (apply advanceTimers_timer; unfold getCurrentTime; lia).
      split; [by apply rtc_work_timer|].
      by rewrite (rtc_timer_effect_now _ _ Ht). }
    case_bool_decide.
    + destruct (Hnow1 (pop_taskQueue s1) eq_refl) as [Hrtc Heq].
      split; [|cbn beta iota; unfold getCurrentTime in *; lia].
      etrans; [exact Hs1|]. eapply rtc_l; [apply work_retire|done].
    + destruct (Hnow1 s1 eq_refl) as [Hrtc Heq].
      split; [|cbn beta iota; unfold getCurrentTime in *; lia].
      etrans; [exact Hs1|done].
  - split; [|done]. apply rtc_once. by apply work_call.
Qed.

Lemma workLoop_while_work fuel currentTime s c s' :
  currentTime <= now s ->
  workLoop_while fuel currentTime s = Some (c, s') ->
  rtc work_effect s s'.
Proof.
  revert currentTime s.
  induction fuel as [|fuel IH]; intros currentTime s Hnow; simpl; [done|].
  destruct (workLoop_pass_work currentTime s Hnow) as [Hrtc Hle].
  destruct (workLoop_pass currentTime s) as [currentTime1 s1|[c1 s1]]; simpl in *.
  - intros Hrun. etrans; [exact Hrtc|]. by eapply IH.
  - by intros [= <- <-].
Qed.

Lemma workLoop_work fuel hasTimeRemaining initialTime s c s' :
  initialTime <= now s ->
  workLoop fuel hasTimeRemaining initialTime s = Some (c, s') ->
  rtc work_effect s s'.
Proof.
  intros Hnow Hrun. unfold workLoop in Hrun.
  pose proof (advanceTimers_timer initialTime s Hnow) as Ht.
  etrans; [by apply rtc_work_timer|].
  eapply workLoop_while_work; [|done].
  by rewrite (rtc_timer_effect_now _ _ Ht).
Qed.

Lemma flushWork_work fuel hasTimeRemaining initialTime s c s' :
  initialTime <= now s ->
  flushWork fuel hasTimeRemaining initialTime s = Some (c, s') ->
  rtc work_effect s s'.
Proof.
  intros Hnow. unfold flushWork.
  set (s1 := set_isHostCallbackScheduled false s).
  set (s2 := if isHostTimeoutScheduled s1 then _ else _).
  destruct (workLoop _ _ _ _) as [[c1 s3]|] eqn:Hrun; [|done].
  intros [= <- <-].
  assert (Hs2 : same_work s s2).
  { subst s2 s1. destruct (isHostTimeoutScheduled _); solve_same_work. }
  etrans; [by apply work_control|].
  eapply rtc_l; [apply (work_flag true)|].
  etrans.
  - eapply workLoop_work; [|done]. simpl.
    destruct Hs2 as (_ & _ & _ & -> & _). done.
  - apply rtc_once, work_flag.
Qed.

Lemma performWorkUntilDealine_work fuel s c s' :
  performWorkUntilDealine fuel s = Some (c, s') ->
  rtc work_effect s s'.
Proof.
  unfold performWorkUntilDealine.
  destruct (scheduledHostCallback s) as [[]|].
  2:{ intros [= <- <-]. apply work_control. solve_same_work. }
  destruct (flushWork _ _ _ _) as [[c1 s1]|] eqn:Hflush; [|done].
  apply flushWork_work in Hflush; [|simpl; unfold getCurrentTime; lia].
  intros Hret.
  etrans; [apply (work_control s (set_startTime (Some (getCurrentTime s)) s));
           solve_same_work|].
  etrans; [exact Hflush|].
  apply work_control.
  destruct c1 as [[]|]; injection Hret as <- <-; solve_same_work.
Qed.

Lemma step_work s s' : step s s' -> rtc work_effect s s'.
Proof.
  destruct 1 as [p cb delay s|task s|dt s|fuel s c s' Hrun|tid s].
  - apply rtc_work_api, scheduleCallback_api.
  - apply rtc_once, work_api, api_cancel.
  - apply rtc_once, work_api, api_elapse.
  - etrans; [|by eapply performWorkUntilDealine_work].
    apply work_control. solve_same_work.
  - etrans; [apply (work_control s (clearTimeout tid s)); solve_same_work|].
    apply handleTimeout_work. simpl. unfold getCurrentTime. lia.
Qed.

Lemma steps_work s s' : rtc step s s' -> rtc work_effect s s'.
Proof.
  induction 1 as [|s s1 s' Hstep _ IH]; [done|].
  etrans; [by apply step_work|done].
Qed.

(** ** The object store only grows *)

Lemma extends_refl objs : extends objs objs.
Proof. intros r t Hr. by exists t. Qed.

Lemma extends_trans objs1 objs2 objs3 :
  extends objs1 objs2 -> extends objs2 objs3 -> extends objs1 objs3.
Proof.
  intros H12 H23 r t Hr.
  destruct (H12 r t Hr) as (t2 & Hr2 & Hid & Hprio & Hstart & Hexp).
  destruct (H23 r t2 Hr2) as (t3 & Hr3 & Hid' & Hprio' & Hstart' & Hexp').
  exists t3. repeat split; congruence.
Qed.

Lemma extends_length objs objs' :
  extends objs objs' -> (length objs <= length objs')%nat.
Proof.
  intros Hext. destruct (decide (length objs = 0%nat)) as [|Hpos]; [lia|].
  destruct (lookup_lt_is_Some_2 objs (length objs - 1)) as [t Ht]; [lia|].
  destruct (Hext _ _ Ht) as (t' & Ht' & _).
  apply lookup_lt_Some in Ht'. lia.
Qed.

Lemma extends_app objs more : extends objs (objs ++ more).
Proof.
  intros r t Hr. exists t. split; [|done]. by apply lookup_app_l_Some.
Qed.

Lemma extends_alter f r objs :
  (forall t, Task.id (f t) = Task.id t /\
             Task.priorityLevel (f t) = Task.priorityLevel t /\
             Task.startTime (f t) = Task.startTime t /\
             Task.expirationTime (f t) = Task.expirationTime t) ->
  extends objs (alter f r objs).
Proof.
  intros Hf r' t Hr'. destruct (decide (r = r')) as [->|Hne].
  - exists (f t). rewrite list_lookup_alter_eq, Hr'. split; [done|]. apply Hf.
  - exists t. by rewrite list_lookup_alter_ne.
Qed.

Lemma extends_set_callback v r objs :
  extends objs (alter (Task.set_callback v) r objs).
Proof. by apply extends_alter. Qed.

Lemma extends_set_sortIndex v r objs :
  extends objs (alter (Task.set_sortIndex v) r objs).
Proof. by apply extends_alter. Qed.

(** ** Effects and [evolves] *)

Lemma evolves_refl s : evolves s s.
Proof.
  split; [done|]. split; [apply extends_refl|]. split; intros r Hr; auto.
Qed.

Lemma evolves_trans s1 s2 s3 : evolves s1 s2 -> evolves s2 s3 -> evolves s1 s3.
Proof.
  intros (Hnow & Hext & Htimer & Hready) (Hnow' & Hext' & Htimer' & Hready').
  pose proof (extends_length _ _ Hext) as Hlen.
  split; [lia|]. split; [by eapply extends_trans|]. split.
  - intros r Hr. destruct (Htimer' r Hr) as [Hin|Hnew]; [auto|right; lia].
  - intros r Hr. destruct (Hready' r Hr) as [Hin|[Hin|Hnew]].
    + auto.
    + destruct (Htimer r Hin) as [|]; auto.
    + right; right; lia.
Qed.

Lemma api_effect_evolves s s' : api_effect s s' -> evolves s s'.
Proof.
  destruct 1 as [s s' (Hobjs & Hready & Htimer & Hnow & _)|dt s|t v s _|t v s|r s].
  - unfold evolves. rewrite Hobjs, Hready, Htimer, Hnow.
    apply evolves_refl.
  - split; [simpl; lia|]. split; [apply extends_refl|]. split; simpl; auto.
  - split; [done|]. split; [|split]; simpl.
    + eapply extends_trans; [apply extends_app|apply extends_set_sortIndex].
    + auto.
    + intros r [->|Hr]%elem_of_push; auto.
  - split; [done|]. split; [|split]; simpl.
    + eapply extends_trans; [apply extends_app|apply extends_set_sortIndex].
    + intros r [->|Hr]%elem_of_push; auto.
    + auto.
  - split; [done|]. split; [apply extends_set_callback|]. split; simpl; auto.
Qed.

Lemma timer_effect_evolves s s' : timer_effect s s' -> evolves s s'.
Proof.
  destruct 1 as [top s Htop _|top s Htop _].
  - split; [done|]. split; [apply extends_refl|]. split; simpl; [|auto].
    intros r Hr%elem_of_pop. auto.
  - split; [done|]. split; [apply extends_set_sortIndex|]. split; simpl.
    + intros r Hr%elem_of_pop. auto.
    + intros r [->|Hr]%elem_of_push; [|auto].
      right; left. by apply peek_elem_of.
Qed.

Lemma rtc_evolves (R : relation Scheduler) s s' :
  (forall x y, R x y -> evolves x y) -> rtc R s s' -> evolves s s'.
Proof.
  intros HR. induction 1 as [|s s1 s' Hstep _ IH]; [apply evolves_refl|].
  eapply evolves_trans; [by apply HR|done].
Qed.

Lemma entered_evolves task callback s : evolves s (entered task callback s).
Proof.
  split; [done|]. split; [apply extends_set_callback|]. split; simpl; auto.
Qed.

Lemma work_effect_evolves s s' : work_effect s s' -> evolves s s'.
Proof.
  destruct 1 as [s s' Hapi|s s' Htimer|b s|s|task callback s _ _
                |task callback k s _ _].
  - by apply api_effect_evolves.
  - by apply timer_effect_evolves.
  - split; [done|]. split; [apply extends_refl|]. split; simpl; auto.
  - split; [done|]. split; [apply extends_refl|]. split; simpl; [auto|].
    intros r Hr%elem_of_pop. auto.
  - eapply evolves_trans; [apply entered_evolves|].
    eapply rtc_evolves; [apply api_effect_evolves|apply foldl_perform_api].
  - eapply evolves_trans; [apply (entered_evolves task callback)|].
    eapply evolves_trans.
    + eapply rtc_evolves; [apply api_effect_evolves|].
      apply (foldl_perform_api (actions (body callback))).
    + split; [done|]. split; [apply extends_set_callback|]. split; simpl; auto.
Qed.


Lemma steps_evolve s s' : rtc step s s' -> evolves s s'.
Proof.
  intros Hsteps. eapply rtc_evolves; [apply work_effect_evolves|].
  by apply steps_work.
Qed.

(** ** The ready queue only holds tasks whose start time has come *)

Lemma started_later s s' r :
  evolves s s' ->
  (exists t, tasks s !! r = Some t /\ Task.startTime t <= now s) ->
  exists t', tasks s' !! r = Some t' /\ Task.startTime t' <= now s'.
Proof.
  intros (Hnow & Hext & _) (t & Hr & Hstart).
  destruct (Hext r t Hr) as (t' & Hr' & _ & _ & Hsame & _).
  exists t'. split; [done|]. lia.
Qed.

Lemma allocated_later s s' (r : ref) :
  evolves s s' -> (r < length (tasks s))%nat -> (r < length (tasks s'))%nat.
Proof.
  intros (_ & Hext & _) Hr. pose proof (extends_length _ _ Hext). lia.
Qed.

(** An effect that adds nothing to either queue keeps the invariant. *)
Lemma on_time_no_new s s' :
  evolves s s' ->
  (forall r, r ∈ taskQueue s' -> r ∈ taskQueue s) ->
  (forall r, r ∈ timerQueue s' -> r ∈ timerQueue s) ->
  queues_on_time s -> queues_on_time s'.
Proof.
  intros Hev Hready Htimer [Hinv1 Hinv2]. split.
  - intros r Hr. eapply started_later; [done|]. auto.
  - intros r Hr. eapply allocated_later; [done|]. auto.
Qed.

Lemma task_at_lookup s r t : tasks s !! r = Some t -> task_at s r = t.
Proof. unfold task_at, deref. by intros ->. Qed.

Lemma lookup_new_task (objs : list Task.t) t v :
  alter (Task.set_sortIndex v) (length objs) (objs ++ [t]) !! length objs
  = Some (Task.set_sortIndex v t).
Proof.
  rewrite list_lookup_alter_eq, lookup_app_r by lia.
  by rewrite Nat.sub_diag.
Qed.

Lemma api_effect_on_time s s' :
  api_effect s s' -> queues_on_time s -> queues_on_time s'.
Proof.
  intros Heff. pose proof (api_effect_evolves _ _ Heff) as Hev.
  destruct Heff as [s s' (Hobjs & Hready & Htimer & Hnow & _)|dt s|t v s Ht
                   |t v s|r s].
  - apply on_time_no_new; [done|..]; intros r; by rewrite ?Hready, ?Htimer.
  - by apply on_time_no_new.
  - intros [Hinv1 Hinv2]. split.
    + intros r [->|Hr]%elem_of_push.
      * exists (Task.set_sortIndex v t). split; [apply lookup_new_task|done].
      * eapply started_later; [done|]. auto.
    + intros r Hr. eapply allocated_later; [done|]. auto.
  - intros [Hinv1 Hinv2]. split.
    + intros r Hr. eapply started_later; [done|]. auto.
    + intros r [->|Hr]%elem_of_push.
      * simpl. rewrite length_alter, length_app. simpl. lia.
      * eapply allocated_later; [done|]. auto.
  - by apply on_time_no_new.
Qed.

Lemma timer_effect_on_time s s' :
  timer_effect s s' -> queues_on_time s -> queues_on_time s'.
Proof.
  intros Heff. pose proof (timer_effect_evolves _ _ Heff) as Hev.
  destruct Heff as [top s Htop _|top s Htop Hdue].
  - apply on_time_no_new; [done|auto|]. intros r. apply elem_of_pop.
  - intros [Hinv1 Hinv2]. split.
    + intros r [->|Hr]%elem_of_push.
      * eapply started_later; [done|].
        destruct (lookup_lt_is_Some_2 (tasks s) top) as [t Ht].
        { by apply Hinv2, peek_elem_of. }
        exists t. split; [done|].
        by rewrite (task_at_lookup _ _ _ Ht) in Hdue.
      * eapply started_later; [done|]. auto.
    + intros r Hr%elem_of_pop. eapply allocated_later; [done|]. auto.
Qed.

Lemma rtc_on_time (R : relation Scheduler) s s' :
  (forall x y, R x y -> queues_on_time x -> queues_on_time y) ->
  rtc R s s' -> queues_on_time s -> queues_on_time s'.
Proof. intros HR. induction 1; eauto. Qed.

Lemma entered_on_time task callback s :
  queues_on_time s -> queues_on_time (entered task callback s).
Proof. apply on_time_no_new; [apply entered_evolves|auto..]. Qed.

Lemma work_effect_on_time s s' :
  work_effect s s' -> queues_on_time s -> queues_on_time s'.
Proof.
  intros Heff. pose proof (work_effect_evolves _ _ Heff) as Hev.
  destruct Heff as [s s' Hapi|s s' Htimer|b s|s|task callback s _ _
                   |task callback k s _ _].
  - by apply api_effect_on_time.
  - by apply timer_effect_on_time.
  - by apply on_time_no_new.
  - apply on_time_no_new; [done| |auto]. intros r. apply elem_of_pop.
  - intros Hinv. eapply rtc_on_time; [apply api_effect_on_time| |].
    + apply foldl_perform_api.
    + by apply entered_on_time.
  - intros Hinv.
    assert (Hs1 : queues_on_time
              (foldl perform (entered task callback s) (actions (body callback)))).
    { eapply rtc_on_time; [apply api_effect_on_time| |].
      - apply foldl_perform_api.
      - by apply entered_on_time. }
    revert Hs1. apply on_time_no_new; [|auto..].
    split; [done|]. split; [apply extends_set_callback|]. split; simpl; auto.
Qed.

Lemma initial_on_time t0 : queues_on_time (initial t0).
Proof. split; intros r Hr; simpl in Hr; by apply elem_of_nil in Hr. Qed.

Lemma steps_on_time s s' :
  rtc step s s' -> queues_on_time s -> queues_on_time s'.
Proof.
  intros Hsteps. apply steps_work in Hsteps.
  eapply rtc_on_time; [apply work_effect_on_time|done].
Qed.

(** ** An empty callback slot stays empty *)

Lemma cancelled_alter f task r s s' :
  tasks s' = alter f r (tasks s) ->
  (r = task -> forall t, Task.callback t = None -> Task.callback (f t) = None) ->
  cancelled task s -> cancelled task s'.
Proof.
  intros Hobjs Hf (t & Ht & Hcb). unfold cancelled. rewrite Hobjs.
  destruct (decide (r = task)) as [->|Hne].
  - exists (f t). rewrite list_lookup_alter_eq, Ht. auto.
  - exists t. by rewrite list_lookup_alter_ne.
Qed.

Lemma cancelled_new_task t v task s s' :
  tasks s' = alter (Task.set_sortIndex v) (length (tasks s)) (tasks s ++ [t]) ->
  cancelled task s -> cancelled task s'.
Proof.
  intros Hobjs (t0 & Ht0 & Hcb). exists t0. rewrite Hobjs. split; [|done].
  pose proof (lookup_lt_Some _ _ _ Ht0).
  rewrite list_lookup_alter_ne by lia. by apply lookup_app_l_Some.
Qed.

Lemma cancelled_not_pending task r callback s :
  cancelled task s -> Task.callback (task_at s r) = Some callback -> r <> task.
Proof.
  intros (t & Ht & Hcb) Hr ->. rewrite (task_at_lookup _ _ _ Ht) in Hr.
  congruence.
Qed.

Lemma api_effect_executed s s' : api_effect s s' -> executed s' = executed s.
Proof. destruct 1 as [s s' Hsame| | | |]; [apply Hsame|done..]. Qed.

Lemma rtc_api_effect_executed s s' :
  rtc api_effect s s' -> executed s' = executed s.
Proof.
  induction 1 as [|s s1 s' Hstep _ IH]; [done|].
  rewrite IH. by apply api_effect_executed.
Qed.

Lemma timer_effect_executed s s' : timer_effect s s' -> executed s' = executed s.
Proof. by destruct 1. Qed.

Lemma rtc_timer_effect_executed s s' :
  rtc timer_effect s s' -> executed s' = executed s.
Proof.
  induction 1 as [|s s1 s' Hstep _ IH]; [done|].
  rewrite IH. by apply timer_effect_executed.
Qed.

Lemma api_effect_cancelled task s s' :
  api_effect s s' -> cancelled task s -> cancelled task s'.
Proof.
  destruct 1 as [s s' (Hobjs & _)|dt s|t v s _|t v s|r s].
  - unfold cancelled. by rewrite Hobjs.
  - done.
  - by apply (cancelled_new_task t v).
  - by apply (cancelled_new_task t v).
  - by apply (cancelled_alter (Task.set_callback None) task r).
Qed.

Lemma rtc_api_effect_cancelled task s s' :
  rtc api_effect s s' -> cancelled task s -> cancelled task s'.
Proof. induction 1; eauto using api_effect_cancelled. Qed.

Lemma timer_effect_cancelled task s s' :
  timer_effect s s' -> cancelled task s -> cancelled task s'.
Proof.
  destruct 1 as [top s _ _|top s _ _]; [done|].
  by eapply (cancelled_alter _ task top).
Qed.

Lemma runs_of_snoc task r callback log :
  r <> task -> runs_of task (log ++ [(r, callback)]) = runs_of task log.
Proof.
  intros Hne. unfold runs_of. rewrite filter_app, filter_cons_False by done.
  by rewrite filter_nil, app_nil_r.
Qed.

Lemma called_cancelled task r callback s :
  Task.callback (task_at s r) = Some callback ->
  cancelled task s ->
  let s1 := foldl perform (entered r callback s) (actions (body callback)) in
  r <> task /\ cancelled task s1 /\
  runs_of task (executed s1) = runs_of task (executed s).
Proof.
  intros Hr Hc s1.
  pose proof (cancelled_not_pending _ _ _ _ Hc Hr) as Hne.
  pose proof (foldl_perform_api (actions (body callback))
                (entered r callback s)) as Hapi.
  fold s1 in Hapi. split; [done|]. split.
  - eapply rtc_api_effect_cancelled; [done|].
    apply (cancelled_alter (Task.set_callback None) task r s); [done| |done].
    by intros ->.
  - rewrite (rtc_api_effect_executed _ _ Hapi). simpl.
    by apply runs_of_snoc.
Qed.

Lemma work_effect_cancelled task s s' :
  work_effect s s' -> cancelled task s ->
  cancelled task s' /\ runs_of task (executed s') = runs_of task (executed s).
Proof.
  destruct 1 as [s s' Hapi|s s' Htimer|b s|s|r callback s _ Hr
                |r callback k s _ Hr]; intros Hc.
  - split; [by eapply api_effect_cancelled|].
    by rewrite (api_effect_executed _ _ Hapi).
  - split; [by eapply timer_effect_cancelled|].
    by rewrite (timer_effect_executed _ _ Htimer).
  - done.
  - done.
  - by destruct (called_cancelled task r callback s Hr Hc) as (_ & ? & ?).
  - destruct (called_cancelled task r callback s Hr Hc) as (Hne & Hc1 & Hruns).
    split; [|done].
    revert Hc1. apply (cancelled_alter (Task.set_callback (Some k)) task r);
      [done|]. by intros ->.
Qed.

Lemma rtc_work_effect_cancelled task s s' :
  rtc work_effect s s' -> cancelled task s ->
  cancelled task s' /\ runs_of task (executed s') = runs_of task (executed s).
Proof.
  induction 1 as [|s s1 s' Hstep _ IH]; [done|]. intros Hc.
  destruct (work_effect_cancelled task _ _ Hstep Hc) as [Hc1 Hruns1].
  destruct (IH Hc1) as [Hc' Hruns']. split; [done|]. congruence.
Qed.

(** ** Submission *)

Ltac unfold_submission :=
  unfold scheduleCallback, requestHostTimeout, cancelHostTimeout,
    clearTimeout, requestHostCallback, setTimeout, push_timerQueue,
    push_taskQueue, write_sortIndex, cancelCallback, write_callback.

Lemma scheduleCallback_posted p cb delay s :
  posted (scheduleCallback p cb delay s).2 = posted s /\
  isMessageLoopRunning (scheduleCallback p cb delay s).2
    = isMessageLoopRunning s /\
  executed (scheduleCallback p cb delay s).2 = executed s.
Proof. unfold_submission. split_branches; simpl; done. Qed.

Lemma scheduleCallback_timers p cb delay s :
  timers (scheduleCallback p cb delay s).2 = timers s \/
  timers (scheduleCallback p cb delay s).2
    = delete (taskTimeoutId s) (timers s).
Proof.
  unfold_submission. split_branches; simpl in *; try congruence; auto.
Qed.

Lemma scheduleCallback_queues p cb delay s :
  let s' := (scheduleCallback p cb delay s).2 in
  let startTime := now s + default 0 delay in
  tasks s' =
    alter
      (Task.set_sortIndex
         (if startTime >? now s
          then startTime
          else startTime + getTimeoutByPriorityLevel p))
      (length (tasks s))
      (tasks s ++
         [Task.mk (taskIdCounter s) p cb startTime
            (startTime + getTimeoutByPriorityLevel p) 0]) /\
  now s' = now s /\
  if startTime >? now s
  then taskQueue s' = taskQueue s /\
       timerQueue s' = push (tasks s') (timerQueue s) (length (tasks s))
  else taskQueue s' = push (tasks s') (taskQueue s) (length (tasks s)) /\
       timerQueue s' = timerQueue s.
Proof.
  unfold_submission. unfold getCurrentTime. simpl.
  destruct (now s + default 0 delay >? now s); split_branches; simpl; done.
Qed.

Lemma host_step_idle s s' : host_step s s' -> host_idle s -> host_idle s'.
Proof.
  intros Hstep (Hposted & Htimers & Hexecuted).
  destruct Hstep as [p cb delay s|task s|dt s|fuel s c s' Hpos _
                    |tid timer s Hpending _ _].
  - unfold host_idle.
    destruct (scheduleCallback_posted p cb delay s) as (-> & _ & ->).
    repeat split; [done| |done].
    destruct (scheduleCallback_timers p cb delay s) as [->| ->]; [done|].
    rewrite Htimers. apply delete_empty.
  - done.
  - done.
  - lia.
  - by rewrite Htimers in Hpending.
Qed.

(** C1.  The claim fails on the code: [requestHostCallback] only stores the
    function and never calls [schedulePerformWorkUntilDeadline].  Submitting
    a ready task to a freshly loaded module marks the host callback as
    scheduled and stores [flushWork], yet posts no message; and along every
    run of a real host from the initial state no message is ever posted, no
    timeout is ever pending, and so no callback is ever invoked. *)
Theorem scheduleCallback_never_asks_turn_driver :
  (isHostCallbackScheduled (initial 0) = false /\
   isPerformingWork (initial 0) = false /\
   taskQueue readyOnly = [0%nat] /\
   isHostCallbackScheduled readyOnly = true /\
   scheduledHostCallback readyOnly = Some flushWorkCallback /\
   isMessageLoopRunning readyOnly = false /\
   posted readyOnly = 0%nat) /\
  (forall p cb delay s,
     posted (scheduleCallback p cb delay s).2 = posted s) /\
  (forall t0 s,
     rtc host_step (initial t0) s ->
     posted s = 0%nat /\ timers s = ∅ /\ executed s = []).
Proof.
  split; [by repeat split|]. split.
  - intros. apply scheduleCallback_posted.
  - intros t0 s Hrun.
    assert (Hidle : host_idle (initial t0)) by done.
    revert Hidle. induction Hrun; eauto using host_step_idle.
Qed.

(** C2.  The claim fails on the code.  Under the conditions of the claim
    (a delayed task, an empty ready queue, the new task at the root of the
    timer queue) [scheduleCallback] sets [isHostTimeoutScheduled] before it
    calls [requestHostTimeout], whose guard then skips [setTimeout]: a
    timeout that was pending is cancelled and none is armed. *)
Theorem scheduleCallback_arms_no_timeout p cb delay s :
  0 < delay ->
  peek (taskQueue s) = None ->
  peek (timerQueue (scheduleCallback p cb (Some delay) s).2)
    = Some (length (tasks s)) ->
  let s' := (scheduleCallback p cb (Some delay) s).2 in
  isHostTimeoutScheduled s' = true /\
  nextTimerId s' = nextTimerId s /\
  timers s' =
    if isHostTimeoutScheduled s
    then delete (taskTimeoutId s) (timers s)
    else timers s.
Proof.
  intros Hdelay Hready. unfold_submission. simpl.
  assert (Hlater : (getCurrentTime s + delay >? getCurrentTime s) = true)
    by (rewrite Z.gtb_ltb; apply Z.ltb_lt; lia).
  rewrite Hlater. simpl. rewrite Hready.
  split_branches; simpl in *; intros; simpl in *; try done; congruence.
Qed.

(** C4.  The claim fails on the code: the body of [scheduleCallback] has no
    [return] statement, so every call evaluates to [undefined]; the task it
    created sits in one of the queues, out of reach of the caller. *)
Theorem scheduleCallback_returns_undefined p cb delay s :
  (scheduleCallback p cb delay s).1 = undefined /\
  (scheduleCallback p cb delay s).1 <> taskValue (length (tasks s)) /\
  (length (tasks s) ∈ taskQueue (scheduleCallback p cb delay s).2 \/
   length (tasks s) ∈ timerQueue (scheduleCallback p cb delay s).2).
Proof.
  split; [done|]. split; [done|].
  destruct (scheduleCallback_queues p cb delay s) as (_ & _ & Hqueues).
  destruct (_ >? _).
  - right. destruct Hqueues as [_ ->]. apply elem_of_push. auto.
  - left. destruct Hqueues as [-> _]. apply elem_of_push. auto.
Qed.

(** ** Fuel *)

(** Once the loop has come to an end, more fuel changes nothing. *)
Lemma workLoop_while_more_fuel fuel extra currentTime s r :
  workLoop_while fuel currentTime s = Some r ->
  workLoop_while (fuel + extra) currentTime s = Some r.
Proof.
  revert currentTime s. induction fuel as [|fuel IH]; intros currentTime s;
    simpl; [done|].
  destruct (workLoop_pass currentTime s); [apply IH|done].
Qed.

Lemma flushWork_more_fuel fuel extra hasTimeRemaining initialTime s r :
  flushWork fuel hasTimeRemaining initialTime s = Some r ->
  flushWork (fuel + extra) hasTimeRemaining initialTime s = Some r.
Proof.
  unfold flushWork, workLoop.
  destruct (workLoop_while fuel _ _) as [[c s']|] eqn:Hrun; [|done].
  by rewrite (workLoop_while_more_fuel _ extra _ _ _ Hrun).
Qed.

(** ** Host timeouts *)

Lemma advanceTimers_while_timers fuel currentTime s :
  timers (advanceTimers_while fuel currentTime s) = timers s.
Proof.
  revert s. induction fuel as [|fuel IH]; intros s; simpl; [done|].
  destruct (peek (timerQueue s)); [|done].
  destruct (bool_decide _); [by rewrite IH|].
  destruct (_ <=? _); [by rewrite IH|done].
Qed.

Lemma scheduleCallback_timers_subseteq p cb delay s :
  timers (scheduleCallback p cb delay s).2 ⊆ timers s.
Proof.
  destruct (scheduleCallback_timers p cb delay s) as [->| ->];
    [done|apply delete_subseteq].
Qed.

Lemma perform_timers s a : timers (perform s a) ⊆ timers s.
Proof.
  destruct a; simpl; [apply scheduleCallback_timers_subseteq|done..].
Qed.

Lemma foldl_perform_timers l s : timers (foldl perform s l) ⊆ timers s.
Proof.
  revert s. induction l as [|a l IH]; intros s; simpl; [done|].
  etrans; [apply IH|apply perform_timers].
Qed.

Lemma workLoop_pass_timers currentTime s :
  timers (pass_state (workLoop_pass currentTime s)) ⊆ timers s.
Proof.
  unfold workLoop_pass.
  destruct (peek (taskQueue s)) as [currentTask|] eqn:Hroot.
  2:{ unfold workLoop_end. by rewrite Hroot. }
  destruct (_ && _); [done|].
  destruct (Task.callback (task_at s currentTask)) as [callback|]; [|done].
  unfold invoke. simpl.
  pose proof (foldl_perform_timers (actions (body callback))
    (set_executed (executed s ++ [(currentTask, callback)])
       (write_callback currentTask None s))) as Hsub.
  destruct (result (body callback)); simpl; [| |done].
  - unfold advanceTimers. by rewrite advanceTimers_while_timers.
  - unfold advanceTimers. rewrite advanceTimers_while_timers.
    by case_bool_decide.
Qed.

Lemma workLoop_while_timers fuel currentTime s c s' :
  workLoop_while fuel currentTime s = Some (c, s') ->
  timers s' ⊆ timers s.
Proof.
  revert currentTime s. induction fuel as [|fuel IH]; intros currentTime s;
    simpl; [done|].
  pose proof (workLoop_pass_timers currentTime s) as Hpass.
  destruct (workLoop_pass currentTime s) as [currentTime1 s1|[c1 s1]];
    simpl in Hpass.
  - intros Hrun. etrans; [by eapply IH|done].
  - by intros [= <- <-].
Qed.

Lemma workLoop_timers fuel hasTimeRemaining initialTime s c s' :
  workLoop fuel hasTimeRemaining initialTime s = Some (c, s') ->
  timers s' ⊆ timers s.
Proof.
  unfold workLoop. intros Hrun%workLoop_while_timers.
  unfold advanceTimers in Hrun. by rewrite advanceTimers_while_timers in Hrun.
Qed.

(** C3.  The claim fails on the code.  When the loop is left because the
    ready queue is empty, [workLoop] looks for the next timer in the ready
    queue again, finds nothing, and returns [false] with the state as it
    is: no timeout is armed, whatever the timer queue holds.  No exit of
    [workLoop] leaves a timeout pending that was not pending before. *)
Theorem workLoop_exit_arms_nothing fuel currentTime s :
  (peek (taskQueue s) = None ->
   workLoop_while (S fuel) currentTime s = Some (Returned false, s)) /\
  (forall hasTimeRemaining c s',
     workLoop fuel hasTimeRemaining currentTime s = Some (c, s') ->
     timers s' ⊆ timers s).
Proof.
  split.
  - intros Hready. simpl. unfold workLoop_pass, workLoop_end.
    by rewrite Hready.
  - intros hasTimeRemaining c s'. apply workLoop_timers.
Qed.

Lemma flushWork_timers fuel hasTimeRemaining initialTime s c s' :
  flushWork fuel hasTimeRemaining initialTime s = Some (c, s') ->
  timers s' ⊆ timers s.
Proof.
  unfold flushWork, workLoop.
  destruct (workLoop_while _ _ _) as [[c1 s1]|] eqn:Hrun; [|done].
  intros [= <- <-]. apply workLoop_while_timers in Hrun.
  unfold advanceTimers in Hrun. rewrite advanceTimers_while_timers in Hrun.
  simpl in *. etrans; [exact Hrun|].
  destruct (isHostTimeoutScheduled s); simpl; [apply delete_subseteq|done].
Qed.

Lemma timeouts_subseteq s s' :
  timers s' ⊆ timers s ->
  timeouts_call_handleTimeout s -> timeouts_call_handleTimeout s'.
Proof.
  intros Hsub Hall tid timer Hpending. apply (Hall tid).
  by eapply lookup_weaken.
Qed.

Lemma handleTimeout_timeouts currentTime s :
  timeouts_call_handleTimeout s ->
  timeouts_call_handleTimeout (handleTimeout currentTime s).
Proof.
  intros Hall. unfold handleTimeout, requestHostTimeout, setTimeout,
    requestHostCallback, advanceTimers, timeouts_call_handleTimeout.
  split_branches; simpl; rewrite ?advanceTimers_while_timers; simpl;
    try done.
  by apply map_Forall_insert_2.
Qed.

Lemma step_timeouts s s' :
  step s s' -> timeouts_call_handleTimeout s -> timeouts_call_handleTimeout s'.
Proof.
  destruct 1 as [p cb delay s|task s|dt s|fuel s c s' Hrun|tid s].
  - apply timeouts_subseteq, scheduleCallback_timers_subseteq.
  - done.
  - done.
  - apply timeouts_subseteq. unfold performWorkUntilDealine in Hrun.
    destruct (scheduledHostCallback _) as [[]|]; [|by injection Hrun as _ <-].
    destruct (flushWork _ _ _ _) as [[c1 s1]|] eqn:Hflush; [|done].
    apply flushWork_timers in Hflush.
    destruct c1 as [[]|]; injection Hrun as _ <-; exact Hflush.
  - intros Hall. apply handleTimeout_timeouts.
    revert Hall. apply timeouts_subseteq. simpl. apply delete_subseteq.
Qed.

(** The only timeouts the scheduler leaves pending call [handleTimeout]:
    the call in [workLoop] that would pass [flushWork] is never reached. *)
Lemma reachable_timeouts t0 s :
  rtc step (initial t0) s -> timeouts_call_handleTimeout s.
Proof.
  intros Hrun.
  assert (Hinit : timeouts_call_handleTimeout (initial t0))
    by apply map_Forall_empty.
  revert Hinit. induction Hrun; eauto using step_timeouts.
Qed.

(** Every turn of a real host is a turn of [step]. *)
Lemma host_step_step s s' : host_step s s' -> step s s'.
Proof. destruct 1; econstructor; eassumption. Qed.

(** ** The work loop *)

(** C5.  At the head of the loop, a root that is not yet overdue stops
    the loop as soon as five time units have passed since the slice
    started: [workLoop] returns [true] and the state is untouched, so the
    task has not run.  A root that is overdue is not subject to the yield
    check: whatever the slice, the pass invokes its callback. *)
Theorem workLoop_yields_unless_overdue fuel currentTime s task :
  peek (taskQueue s) = Some task ->
  (currentTime < Task.expirationTime (task_at s task) ->
   (exists sliceStart,
      startTime s = Some sliceStart /\ 5 <= now s - sliceStart) ->
   workLoop_while (S fuel) currentTime s = Some (Returned true, s)) /\
  (Task.expirationTime (task_at s task) <= currentTime ->
   forall callback,
     Task.callback (task_at s task) = Some callback ->
     executed (pass_state (workLoop_pass currentTime s))
       = executed s ++ [(task, callback)]).
Proof.
  intros Hroot. split.
  - intros Hfresh (sliceStart & Hslice & Hspent).
    simpl. unfold workLoop_pass. rewrite Hroot.
    assert (Hyield : shouldYieldToHost s = true).
    { unfold shouldYieldToHost, frameInterval, getCurrentTime.
      rewrite Hslice. apply Z.leb_le. lia. }
    rewrite Hyield, andb_true_r.
    assert (Hgt : (Task.expirationTime (task_at s task) >? currentTime) = true)
      by (rewrite Z.gtb_ltb; apply Z.ltb_lt; lia).
    by rewrite Hgt.
  - intros Hoverdue callback Hcb.
    unfold workLoop_pass. rewrite Hroot.
    assert (Hgt : (Task.expirationTime (task_at s task) >? currentTime) = false)
      by (rewrite Z.gtb_ltb; apply Z.ltb_ge; lia).
    rewrite Hgt, Hcb. simpl. unfold invoke.
    set (s1 := foldl perform _ _).
    assert (Hlog : executed s1 = executed s ++ [(task, callback)]).
    { subst s1. by rewrite (rtc_api_effect_executed _ _ (foldl_perform_api _ _)). }
    assert (Hadvance : forall s2, now s2 = now s1 ->
              executed (advanceTimers (getCurrentTime s1) s2) = executed s2).
    { intros s2 Hs2. apply rtc_timer_effect_executed, advanceTimers_timer.
      unfold getCurrentTime. lia. }
    destruct (result (body callback)); simpl.
    + by rewrite Hadvance.
    + case_bool_decide; by rewrite Hadvance.
    + done.
Qed.

Lemma deref_alter_sortIndex v r r' objs :
  Task.callback (deref (alter (Task.set_sortIndex v) r objs) r')
  = Task.callback (deref objs r').
Proof.
  unfold deref. destruct (decide (r = r')) as [->|Hne].
  - rewrite list_lookup_alter_eq. by destruct (objs !! r').
  - by rewrite list_lookup_alter_ne.
Qed.

Lemma timer_effect_callback r s s' :
  timer_effect s s' ->
  Task.callback (task_at s' r) = Task.callback (task_at s r).
Proof.
  destruct 1 as [top s _ _|top s _ _]; [done|].
  unfold task_at. simpl. apply deref_alter_sortIndex.
Qed.

Lemma rtc_timer_effect_callback r s s' :
  rtc timer_effect s s' ->
  Task.callback (task_at s' r) = Task.callback (task_at s r).
Proof.
  induction 1 as [|s s1 s' Hstep _ IH]; [done|].
  rewrite IH. by apply timer_effect_callback.
Qed.

Lemma api_effect_ready_kept r s s' :
  api_effect s s' -> r ∈ taskQueue s -> r ∈ taskQueue s'.
Proof.
  destruct 1 as [s s' (_ & Hready & _)|dt s|t v s _|t v s|r' s]; simpl;
    try done.
  - by rewrite Hready.
  - intros Hr. apply elem_of_push. auto.
Qed.

Lemma timer_effect_ready_kept r s s' :
  timer_effect s s' -> r ∈ taskQueue s -> r ∈ taskQueue s'.
Proof.
  destruct 1 as [top s _ _|top s _ _]; simpl; [done|].
  intros Hr. apply elem_of_push. auto.
Qed.

Lemma rtc_ready_kept (R : relation Scheduler) r s s' :
  (forall x y, R x y -> r ∈ taskQueue x -> r ∈ taskQueue y) ->
  rtc R s s' -> r ∈ taskQueue s -> r ∈ taskQueue s'.
Proof. intros HR. induction 1; eauto. Qed.

Lemma pending_allocated s r callback :
  Task.callback (task_at s r) = Some callback ->
  exists t, tasks s !! r = Some t /\ task_at s r = t.
Proof.
  unfold task_at, deref. destruct (tasks s !! r) as [t|]; [eauto|done].
Qed.

(** C6.  When the callback of the root returns a function, [workLoop]
    returns [true] at once.  The state it leaves is the one in which the
    callback returned, with the function written back into the slot of the
    same task and [advanceTimers] run at the time read after the call.  The
    task object is the one that was the root (same reference, same [id]),
    it is still in the ready queue, and the log shows that nothing else
    has run. *)
Theorem continuation_resumes_same_task fuel currentTime s task callback k :
  peek (taskQueue s) = Some task ->
  Task.callback (task_at s task) = Some callback ->
  (Task.expirationTime (task_at s task) >? currentTime)
    && shouldYieldToHost s = false ->
  result (body callback) = ReturnsFunction k ->
  let returned :=
    foldl perform (entered task callback s) (actions (body callback)) in
  let s' :=
    advanceTimers (getCurrentTime returned)
      (write_callback task (Some k) returned) in
  workLoop_while (S fuel) currentTime s = Some (Returned true, s') /\
  Task.callback (task_at s' task) = Some k /\
  Task.id (task_at s' task) = Task.id (task_at s task) /\
  task ∈ taskQueue s' /\
  executed s' = executed s ++ [(task, callback)].
Proof.
  intros Hroot Hcb Hrun Hresult returned s'.
  assert (Hapi : rtc api_effect (entered task callback s) returned)
    by apply foldl_perform_api.
  assert (Htimer : rtc timer_effect (write_callback task (Some k) returned) s')
    by (apply advanceTimers_timer; simpl; done).
  assert (Hev : evolves s s').
  { eapply evolves_trans.
    - apply work_effect_evolves. by apply (work_resume task callback k).
    - eapply rtc_evolves; [apply timer_effect_evolves|done]. }
  destruct (pending_allocated _ _ _ Hcb) as (t & Ht & Hat).
  split; [|split; [|split; [|split]]].
  - simpl. unfold workLoop_pass, invoke. rewrite Hroot, Hrun, Hcb. simpl.
    by rewrite Hresult.
  - rewrite (rtc_timer_effect_callback _ _ _ Htimer).
    destruct (entered_evolves task callback s) as (_ & Hext0 & _).
    destruct (Hext0 _ _ Ht) as (t0 & Ht0 & _).
    destruct (rtc_evolves _ _ _ api_effect_evolves Hapi) as (_ & Hext1 & _).
    destruct (Hext1 _ _ Ht0) as (t1 & Ht1 & _).
    unfold task_at, deref. simpl.
    by rewrite list_lookup_alter_eq, Ht1.
  - destruct Hev as (_ & Hext & _).
    destruct (Hext _ _ Ht) as (t' & Ht' & Hid & _).
    by rewrite (task_at_lookup _ _ _ Ht'), Hat.
  - eapply (rtc_ready_kept timer_effect); [apply timer_effect_ready_kept|done|].
    simpl.
    eapply (rtc_ready_kept api_effect); [apply api_effect_ready_kept|done|].
    simpl. by apply peek_elem_of.
  - rewrite (rtc_timer_effect_executed _ _ Htimer). simpl.
    by rewrite (rtc_api_effect_executed _ _ Hapi).
Qed.

(** ** Timer promotion *)

(** The state after the two branches of the loop body that go on. *)
Lemma length_after_pop_timerQueue s top :
  peek (timerQueue s) = Some top ->
  S (length (timerQueue (pop_timerQueue s))) = length (timerQueue s).
Proof. intros Htop. simpl. by apply (length_pop _ _ top). Qed.

Lemma advanceTimers_while_enough fuel currentTime s :
  (length (timerQueue s) <= fuel)%nat ->
  advanceTimers_while fuel currentTime s = advanceTimers currentTime s.
Proof.
  unfold advanceTimers. revert s.
  induction fuel as [|fuel IH]; intros s Hfuel.
  { by replace (length (timerQueue s)) with 0%nat by lia. }
  destruct (peek (timerQueue s)) as [top|] eqn:Htop.
  2:{ simpl. rewrite Htop. apply peek_None in Htop. by rewrite Htop. }
  pose proof (length_after_pop_timerQueue s top Htop) as Hlen.
  rewrite <- Hlen. simpl. rewrite Htop.
  destruct (bool_decide _); [apply IH; lia|].
  destruct (_ <=? _); [|done].
  apply IH. simpl in *. lia.
Qed.

Lemma advanceTimers_while_stops fuel currentTime s :
  (length (timerQueue s) <= fuel)%nat ->
  match peek (timerQueue (advanceTimers_while fuel currentTime s)) with
  | None => True
  | Some top =>
    let s' := advanceTimers_while fuel currentTime s in
    Task.callback (task_at s' top) <> None /\
    currentTime < Task.startTime (task_at s' top)
  end.
Proof.
  revert s. induction fuel as [|fuel IH]; intros s Hfuel.
  { simpl. destruct (timerQueue s); [done|simpl in Hfuel; lia]. }
  simpl. destruct (peek (timerQueue s)) as [top|] eqn:Htop.
  2:{ by rewrite Htop. }
  pose proof (length_after_pop_timerQueue s top Htop) as Hlen.
  case_bool_decide as Hcb; [apply IH; lia|].
  destruct (_ <=? _) eqn:Hdue; [apply IH; simpl in *; lia|].
  rewrite Htop. split; [done|]. by apply Z.leb_gt.
Qed.

(** C7.  [advanceTimers] looks at the root of the timer queue.  With no
    root it changes nothing.  A root whose callback slot is empty is popped
    and dropped: it leaves the timer queue, which keeps its other entries,
    the ready queue and the task objects stay as they are, and the loop
    goes on.  A root that has started is popped, gets its
    [expirationTime] as [sortIndex] and is pushed on the ready queue: it
    leaves the timer queue, the ready queue gains it and nothing else, its
    [sortIndex] is its deadline, its other fields and all other tasks are
    unchanged, and the loop goes on.  At a root that has not started the
    loop stops and the state is left as it is.  When the loop has stopped,
    the root of the timer queue, if any, is a live task that has not
    started. *)
Theorem advanceTimers_examines_root currentTime s :
  match peek (timerQueue s) with
  | None => advanceTimers currentTime s = s
  | Some top =>
    timerQueue s ≡ₚ top :: timerQueue (pop_timerQueue s) /\
    taskQueue (pop_timerQueue s) = taskQueue s /\
    tasks (pop_timerQueue s) = tasks s /\
    match Task.callback (task_at s top) with
    | None =>
      advanceTimers currentTime s
      = advanceTimers currentTime (pop_timerQueue s)
    | Some _ =>
      if Task.startTime (task_at s top) <=? currentTime then
        let promoted :=
          push_taskQueue top
            (write_sortIndex top (Task.expirationTime (task_at s top))
               (pop_timerQueue s)) in
        advanceTimers currentTime s = advanceTimers currentTime promoted /\
        timerQueue s ≡ₚ top :: timerQueue promoted /\
        taskQueue promoted ≡ₚ top :: taskQueue s /\
        Task.sortIndex (task_at promoted top)
        = Task.expirationTime (task_at s top) /\
        Task.id (task_at promoted top) = Task.id (task_at s top) /\
        Task.priorityLevel (task_at promoted top)
        = Task.priorityLevel (task_at s top) /\
        Task.callback (task_at promoted top)
        = Task.callback (task_at s top) /\
        Task.startTime (task_at promoted top)
        = Task.startTime (task_at s top) /\
        Task.expirationTime (task_at promoted top)
        = Task.expirationTime (task_at s top) /\
        (forall r : nat, r <> top -> task_at promoted r = task_at s r)
      else advanceTimers currentTime s = s
    end
  end /\
  match peek (timerQueue (advanceTimers currentTime s)) with
  | None => True
  | Some top =>
    Task.callback (task_at (advanceTimers currentTime s) top) <> None /\
    currentTime < Task.startTime (task_at (advanceTimers currentTime s) top)
  end.
Proof.
  split; [|by apply advanceTimers_while_stops].
  destruct (peek (timerQueue s)) as [top|] eqn:Htop.
  2:{ unfold advanceTimers. apply peek_None in Htop. by rewrite Htop. }
  pose proof (length_after_pop_timerQueue s top Htop) as Hlen.
  assert (Hpop : timerQueue s ≡ₚ top :: timerQueue (pop_timerQueue s)).
  { destruct (peek_Some _ _ Htop) as [rest Hqueue]. simpl. rewrite Hqueue.
    destruct (pop_perm (tasks s) top rest) as (heap' & -> & Hperm).
    by rewrite Hperm. }
  split; [done|]. split; [done|]. split; [done|].
  assert (Hunfold : advanceTimers currentTime s
            = advanceTimers_while (S (length (timerQueue (pop_timerQueue s))))
                currentTime s)
    by (unfold advanceTimers; by rewrite Hlen).
  destruct (Task.callback (task_at s top)) as [callback|] eqn:Hcb.
  - destruct (_ <=? _) eqn:Hdue.
    2:{ rewrite Hunfold. simpl. rewrite Htop, Hcb, Hdue.
        by rewrite bool_decide_eq_false_2. }
    destruct (pending_allocated _ _ _ Hcb) as (t & Ht & _).
    cbv zeta. split; [|split; [done|split; [apply push_perm|]]].
    { rewrite Hunfold. simpl. rewrite Htop, Hcb, Hdue.
      rewrite bool_decide_eq_false_2 by done.
      apply advanceTimers_while_enough. simpl. lia. }
    unfold task_at, deref in *. simpl.
    rewrite list_lookup_alter_eq, Ht. rewrite Ht in Hcb. simpl in *.
    repeat (split; [done|]).
    intros r Hne. by rewrite list_lookup_alter_ne.
  - rewrite Hunfold. simpl. rewrite Htop, Hcb.
    rewrite bool_decide_eq_true_2 by done.
    by apply advanceTimers_while_enough.
Qed.

(** ** Delayed tasks *)

Lemma reachable_on_time t0 s : rtc step (initial t0) s -> queues_on_time s.
Proof. intros Hrun. eapply steps_on_time; [done|apply initial_on_time]. Qed.


(** ** Cancellation *)

Lemma cancelCallback_cancelled task s :
  is_Some (tasks s !! task) -> cancelled task (cancelCallback task s).
Proof.
  intros [t Ht]. exists (Task.set_callback None t). split; [|done].
  simpl. by rewrite list_lookup_alter_eq, Ht.
Qed.

Lemma cancelled_task_at task s :
  cancelled task s -> Task.callback (task_at s task) = None.
Proof. intros (t & Ht & Hcb). by rewrite (task_at_lookup _ _ _ Ht). Qed.

Lemma cancelCallback_empty_slot task s :
  Task.callback (task_at s task) = None -> cancelCallback task s = s.
Proof.
  intros Hcb. unfold cancelCallback, write_callback.
  assert (Hobjs : alter (Task.set_callback None) task (tasks s) = tasks s).
  { apply list_eq. intros r. destruct (decide (task = r)) as [->|Hne].
    - rewrite list_lookup_alter_eq. unfold task_at, deref in Hcb.
      destruct (tasks s !! r) as [[]|]; simpl in *; [by subst|done].
    - by rewrite list_lookup_alter_ne. }
  rewrite Hobjs. by destruct s.
Qed.

(** ** Flushing *)

Lemma advanceTimers_while_performing fuel currentTime s :
  isPerformingWork (advanceTimers_while fuel currentTime s)
  = isPerformingWork s.
Proof.
  revert s. induction fuel as [|fuel IH]; intros s; simpl; [done|].
  destruct (peek (timerQueue s)); [|done].
  destruct (bool_decide _); [by rewrite IH|].
  destruct (_ <=? _); [by rewrite IH|done].
Qed.

Lemma rtc_api_effect_performing s s' :
  rtc api_effect s s' -> isPerformingWork s' = isPerformingWork s.
Proof.
  induction 1 as [|s s1 s' Hstep _ IH]; [done|]. rewrite IH.
  destruct Hstep as [s s1 Hsame| | | |]; [apply Hsame|done..].
Qed.

Lemma workLoop_pass_performing currentTime s :
  isPerformingWork (pass_state (workLoop_pass currentTime s))
  = isPerformingWork s.
Proof.
  unfold workLoop_pass.
  destruct (peek (taskQueue s)) as [currentTask|].
  2:{ apply workLoop_end_same_work. }
  destruct (_ && _); [apply workLoop_end_same_work|].
  destruct (Task.callback (task_at s currentTask)) as [callback|]; [|done].
  unfold invoke. simpl.
  set (s1 := foldl perform _ _).
  assert (Hs1 : isPerformingWork s1 = isPerformingWork s).
  { subst s1. by rewrite (rtc_api_effect_performing _ _ (foldl_perform_api _ _)). }
  destruct (result (body callback)); simpl; [| |done].
  - unfold advanceTimers. by rewrite advanceTimers_while_performing.
  - unfold advanceTimers. rewrite advanceTimers_while_performing.
    by case_bool_decide.
Qed.

Lemma workLoop_while_performing fuel currentTime s c s' :
  workLoop_while fuel currentTime s = Some (c, s') ->
  isPerformingWork s' = isPerformingWork s.
Proof.
  revert currentTime s. induction fuel as [|fuel IH]; intros currentTime s;
    simpl; [done|].
  pose proof (workLoop_pass_performing currentTime s) as Hpass.
  destruct (workLoop_pass currentTime s) as [currentTime1 s1|[c1 s1]];
    simpl in Hpass.
  - intros Hrun. rewrite <- Hpass. by eapply IH.
  - by intros [= <- <-].
Qed.

Lemma workLoop_performing fuel hasTimeRemaining initialTime s c s' :
  workLoop fuel hasTimeRemaining initialTime s = Some (c, s') ->
  isPerformingWork s' = isPerformingWork s.
Proof.
  unfold workLoop. intros Hrun%workLoop_while_performing.
  rewrite Hrun. apply advanceTimers_while_performing.
Qed.

(** C10.  [flushWork] runs [workLoop] on a state in which the flag is set
    and which otherwise holds the same tasks, queues, clock and log; the
    flag is still set when [workLoop] returns or throws; [flushWork]
    completes exactly when [workLoop] does, with the same completion (a
    thrown exception stays thrown), and in the state it leaves the flag is
    cleared. *)
Theorem flushWork_clears_isPerformingWork fuel hasTimeRemaining initialTime s :
  (exists entry,
     isPerformingWork entry = true /\
     tasks entry = tasks s /\ taskQueue entry = taskQueue s /\
     timerQueue entry = timerQueue s /\ now entry = now s /\
     executed entry = executed s /\
     forall c s',
       flushWork fuel hasTimeRemaining initialTime s = Some (c, s') <->
       exists left,
         workLoop fuel hasTimeRemaining initialTime entry = Some (c, left) /\
         isPerformingWork left = true /\
         s' = set_isPerformingWork false left) /\
  (forall c s',
     flushWork fuel hasTimeRemaining initialTime s = Some (c, s') ->
     isPerformingWork s' = false).
Proof.
  unfold flushWork.
  set (entry := set_isPerformingWork true _).
  split.
  - exists entry. split; [done|].
    assert (Hsame : tasks entry = tasks s /\ taskQueue entry = taskQueue s /\
              timerQueue entry = timerQueue s /\ now entry = now s /\
              executed entry = executed s).
    { subst entry. simpl. by destruct (isHostTimeoutScheduled s). }
    destruct Hsame as (? & ? & ? & ? & ?). repeat (split; [done|]).
    intros c s'.
    destruct (workLoop _ _ _ entry) as [[c1 s1]|] eqn:Hrun.
    + pose proof (workLoop_performing _ _ _ _ _ _ Hrun) as Hflag.
      split.
      * intros [= <- <-]. by exists s1.
      * intros (left & [= <- <-] & _ & ->). done.
    + split; [done|]. by intros (left & ? & _).
  - intros c s'. destruct (workLoop _ _ _ entry) as [[c1 s1]|]; [|done].
    by intros [= <- <-].
Qed.

(** * More about the code *)

(** ** A rule for invariants of the work loop *)

(** A property kept by the few ways in which the work loop changes the
    state is kept by the work loop. *)
Section WorkInvariant.

Variable P : Scheduler -> Prop.

Hypothesis P_scheduleCallback :
  forall p cb delay s, P s -> P (scheduleCallback p cb delay s).2.
Hypothesis P_write_callback :
  forall r v s, P s -> P (write_callback r v s).
Hypothesis P_elapse :
  forall dt s, P s -> P (set_now (now s + Z.of_N dt) s).
Hypothesis P_executed :
  forall log s, P s -> P (set_executed log s).
Hypothesis P_pop_taskQueue :
  forall top s, peek (taskQueue s) = Some top -> P s -> P (pop_taskQueue s).
Hypothesis P_discard :
  forall top s,
    peek (timerQueue s) = Some top ->
    Task.callback (task_at s top) = None ->
    P s -> P (pop_timerQueue s).
Hypothesis P_promote :
  forall top s,
    peek (timerQueue s) = Some top ->
    Task.callback (task_at s top) <> None ->
    P s ->
    P (push_taskQueue top
         (write_sortIndex top (Task.expirationTime (task_at s top))
            (pop_timerQueue s))).

Lemma perform_keeps s a : P s -> P (perform s a).
Proof.
  destruct a; cbn [perform]; unfold cancelCallback; auto.
Qed.

Lemma foldl_perform_keeps l s : P s -> P (foldl perform s l).
Proof.
  revert s. induction l as [|a l IH]; intros s Hs; simpl; [done|].
  by apply IH, perform_keeps.
Qed.

Lemma advanceTimers_while_keeps fuel currentTime s :
  P s -> P (advanceTimers_while fuel currentTime s).
Proof.
  revert s. induction fuel as [|fuel IH]; intros s Hs; simpl; [done|].
  destruct (peek (timerQueue s)) as [top|] eqn:Htop; [|done].
  case_bool_decide as Hcb; [by eapply IH, P_discard|].
  destruct (_ <=? _); [|done]. apply IH. exact (P_promote top s Htop Hcb Hs).
Qed.

Lemma advanceTimers_keeps currentTime s :
  P s -> P (advanceTimers currentTime s).
Proof. apply advanceTimers_while_keeps. Qed.

Lemma workLoop_pass_keeps currentTime s :
  P s -> P (pass_state (workLoop_pass currentTime s)).
Proof.
  intros Hs. unfold workLoop_pass.
  destruct (peek (taskQueue s)) as [currentTask|] eqn:Hroot.
  2:{ unfold workLoop_end. by rewrite Hroot. }
  destruct (_ && _); [done|].
  destruct (Task.callback (task_at s currentTask)) as [callback|].
  2:{ simpl. by eapply P_pop_taskQueue. }
  unfold invoke. simpl.
  set (s1 := foldl perform _ _).
  assert (Hs1 : P s1) by (apply foldl_perform_keeps; auto).
  destruct (result (body callback)); simpl; [| |done].
  - by apply advanceTimers_keeps, P_write_callback.
  - apply advanceTimers_keeps. case_bool_decide; [|done].
    by eapply P_pop_taskQueue.
Qed.

Lemma workLoop_while_keeps fuel currentTime s c s' :
  workLoop_while fuel currentTime s = Some (c, s') -> P s -> P s'.
Proof.
  revert currentTime s. induction fuel as [|fuel IH]; intros currentTime s;
    simpl; [done|].
  pose proof (workLoop_pass_keeps currentTime s) as Hpass.
  destruct (workLoop_pass currentTime s) as [currentTime1 s1|[c1 s1]];
    simpl in Hpass.
  - intros Hrun Hs. eapply IH; eauto.
  - intros [= <- <-]. done.
Qed.

Lemma workLoop_keeps fuel hasTimeRemaining initialTime s c s' :
  workLoop fuel hasTimeRemaining initialTime s = Some (c, s') -> P s -> P s'.
Proof.
  unfold workLoop. intros Hrun Hs.
  eapply workLoop_while_keeps; [done|]. by apply advanceTimers_keeps.
Qed.

End WorkInvariant.

(** A property of the tasks and the queues alone that is kept by
    submission, by writing a callback slot, by promotion and by the two
    kinds of pop is kept by every turn of the host. *)
Section DataInvariant.

Variable P : Scheduler -> Prop.

Hypothesis P_data :
  forall s s',
    tasks s' = tasks s -> taskQueue s' = taskQueue s ->
    timerQueue s' = timerQueue s -> taskIdCounter s' = taskIdCounter s ->
    P s -> P s'.
Hypothesis P_scheduleCallback :
  forall p cb delay s, P s -> P (scheduleCallback p cb delay s).2.
Hypothesis P_write_callback :
  forall r v s, P s -> P (write_callback r v s).
Hypothesis P_pop_taskQueue :
  forall top s, peek (taskQueue s) = Some top -> P s -> P (pop_taskQueue s).
Hypothesis P_discard :
  forall top s,
    peek (timerQueue s) = Some top ->
    Task.callback (task_at s top) = None ->
    P s -> P (pop_timerQueue s).
Hypothesis P_promote :
  forall top s,
    peek (timerQueue s) = Some top ->
    Task.callback (task_at s top) <> None ->
    P s ->
    P (push_taskQueue top
         (write_sortIndex top (Task.expirationTime (task_at s top))
            (pop_timerQueue s))).

Ltac same_data := intros; eapply P_data; [..|eassumption]; done.

Lemma data_workLoop fuel hasTimeRemaining initialTime s c s' :
  workLoop fuel hasTimeRemaining initialTime s = Some (c, s') -> P s -> P s'.
Proof.
  apply (workLoop_keeps P); auto; same_data.
Qed.

Lemma data_flushWork fuel hasTimeRemaining initialTime s c s' :
  flushWork fuel hasTimeRemaining initialTime s = Some (c, s') -> P s -> P s'.
Proof.
  unfold flushWork.
  destruct (workLoop _ _ _ _) as [[c1 s1]|] eqn:Hrun; [|done].
  intros [= <- <-] Hs.
  apply (P_data s1); [done..|].
  eapply data_workLoop; [done|].
  apply (P_data s); [| | | |done]; simpl;
    by destruct (isHostTimeoutScheduled s).
Qed.

Lemma data_performWorkUntilDealine fuel s c s' :
  performWorkUntilDealine fuel s = Some (c, s') -> P s -> P s'.
Proof.
  unfold performWorkUntilDealine.
  destruct (scheduledHostCallback s) as [[]|].
  2:{ intros [= <- <-]. same_data. }
  destruct (flushWork _ _ _ _) as [[c1 s1]|] eqn:Hflush; [|done].
  intros Hret Hs.
  assert (Hs1 : P s1).
  { eapply data_flushWork; [done|]. revert Hs. same_data. }
  destruct c1 as [[]|]; injection Hret as <- <-; revert Hs1; same_data.
Qed.

Lemma data_handleTimeout currentTime s : P s -> P (handleTimeout currentTime s).
Proof.
  intros Hs. unfold handleTimeout.
  set (s1 := advanceTimers currentTime _).
  assert (Hs1 : P s1).
  { apply (advanceTimers_keeps P); auto. revert Hs. same_data. }
  unfold requestHostTimeout, requestHostCallback, setTimeout.
  split_branches; simpl; try done; revert Hs1; same_data.
Qed.

Lemma data_step s s' : step s s' -> P s -> P s'.
Proof.
  destruct 1 as [p cb delay s|task s|dt s|fuel s c s' Hrun|tid s]; intros Hs.
  - auto.
  - by apply P_write_callback.
  - revert Hs. same_data.
  - eapply data_performWorkUntilDealine; [done|]. revert Hs. same_data.
  - apply data_handleTimeout. revert Hs. same_data.
Qed.

Lemma data_steps s s' : rtc step s s' -> P s -> P s'.
Proof. induction 1; eauto using data_step. Qed.

End DataInvariant.

(** ** Task identities and deadlines *)

Lemma lookup_alter_inv (f : Task.t -> Task.t) (r r' : nat)
    (objs : list Task.t) t :
  alter f r objs !! r' = Some t ->
  exists t0, objs !! r' = Some t0 /\ (t = t0 \/ t = f t0).
Proof.
  destruct (decide (r = r')) as [->|Hne].
  - rewrite list_lookup_alter_eq. destruct (objs !! r') as [t0|]; [|done].
    intros [= <-]. eauto.
  - rewrite list_lookup_alter_ne by done. eauto.
Qed.

Lemma lookup_submitted (objs : list Task.t) t0 v (r : nat) t :
  alter (Task.set_sortIndex v) (length objs) (objs ++ [t0]) !! r = Some t ->
  (r = length objs /\ t = Task.set_sortIndex v t0) \/
  ((r < length objs)%nat /\ objs !! r = Some t).
Proof.
  intros Hr. destruct (decide (r = length objs)) as [->|Hne].
  - left. rewrite lookup_new_task in Hr. by injection Hr as <-.
  - right. rewrite list_lookup_alter_ne in Hr by done.
    pose proof (lookup_lt_Some _ _ _ Hr) as Hlt.
    rewrite length_app in Hlt. simpl in Hlt.
    rewrite lookup_app_l in Hr by lia. split; [lia|done].
Qed.

Lemma scheduleCallback_taskIdCounter p cb delay s :
  taskIdCounter (scheduleCallback p cb delay s).2 = taskIdCounter s + 1.
Proof. unfold_submission. split_branches; simpl; done. Qed.

Lemma scheduleCallback_ids p cb delay s :
  ids_in_order s -> ids_in_order (scheduleCallback p cb delay s).2.
Proof.
  intros [Hcount Hids].
  destruct (scheduleCallback_queues p cb delay s) as (Hobjs & _).
  cbv zeta in Hobjs. split.
  - rewrite scheduleCallback_taskIdCounter, Hobjs, length_alter, length_app.
    simpl. lia.
  - intros r t. rewrite Hobjs.
    intros [[-> ->]|[_ Hr]]%lookup_submitted; simpl; auto.
Qed.

Lemma alter_ids f r s s' :
  tasks s' = alter f r (tasks s) ->
  taskIdCounter s' = taskIdCounter s ->
  (forall t, Task.id (f t) = Task.id t) ->
  ids_in_order s -> ids_in_order s'.
Proof.
  intros Hobjs Hcounter Hf [Hcount Hids]. split.
  - by rewrite Hcounter, Hobjs, length_alter.
  - intros r' t. rewrite Hobjs.
    intros (t0 & Ht0 & [->| ->])%lookup_alter_inv; [|rewrite Hf]; eauto.
Qed.

Lemma steps_ids s s' : rtc step s s' -> ids_in_order s -> ids_in_order s'.
Proof.
  apply (data_steps ids_in_order).
  - intros x y Hobjs _ _ Hcounter. unfold ids_in_order.
    by rewrite Hobjs, Hcounter.
  - apply scheduleCallback_ids.
  - intros r v x. by apply (alter_ids (Task.set_callback v) r).
  - done.
  - done.
  - intros top x _ _. by eapply (alter_ids _ top).
Qed.

(** X1.  In every state the host can reach, [taskIdCounter] is the number
    of tasks created so far and each task carries its rank of creation as
    [id]: ids are below the counter, and two different tasks never share
    an id. *)
Theorem task_ids_are_unique t0 s :
  rtc step (initial t0) s ->
  taskIdCounter s = Z.of_nat (length (tasks s)) /\
  (forall r t, tasks s !! r = Some t ->
     Task.id t = Z.of_nat r /\ 0 <= Task.id t < taskIdCounter s) /\
  (forall r1 r2 t1 t2,
     tasks s !! r1 = Some t1 -> tasks s !! r2 = Some t2 ->
     Task.id t1 = Task.id t2 -> r1 = r2).
Proof.
  intros Hrun.
  assert (Hinit : ids_in_order (initial t0)) by (split; [done|by intros []]).
  destruct (steps_ids _ _ Hrun Hinit) as [Hcount Hids].
  split; [done|]. split.
  - intros r t Hr. pose proof (lookup_lt_Some _ _ _ Hr).
    rewrite (Hids _ _ Hr). lia.
  - intros r1 r2 t1 t2 H1 H2. rewrite (Hids _ _ H1), (Hids _ _ H2). lia.
Qed.

Lemma scheduleCallback_deadlines p cb delay s :
  deadlines_set s -> deadlines_set (scheduleCallback p cb delay s).2.
Proof.
  intros Hall r t.
  destruct (scheduleCallback_queues p cb delay s) as (Hobjs & _).
  cbv zeta in Hobjs. rewrite Hobjs.
  intros [[-> ->]|[_ Hr]]%lookup_submitted; simpl; eauto.
Qed.

Lemma alter_deadlines f r s s' :
  tasks s' = alter f r (tasks s) ->
  (forall t, Task.expirationTime (f t) = Task.expirationTime t /\
             Task.startTime (f t) = Task.startTime t /\
             Task.priorityLevel (f t) = Task.priorityLevel t) ->
  deadlines_set s -> deadlines_set s'.
Proof.
  intros Hobjs Hf Hall r' t. rewrite Hobjs.
  intros (t0 & Ht0 & [->| ->])%lookup_alter_inv; [by eapply Hall|].
  destruct (Hf t0) as (-> & -> & ->). by eapply Hall.
Qed.

(** X2.  In every state the host can reach, the deadline of every task is
    its start time plus the budget [getTimeoutByPriorityLevel] gives to
    its priority level: neither promotion nor cancellation nor a
    continuation moves a deadline. *)
Theorem deadline_is_start_plus_budget t0 s r t :
  rtc step (initial t0) s ->
  tasks s !! r = Some t ->
  Task.expirationTime t
  = Task.startTime t + getTimeoutByPriorityLevel (Task.priorityLevel t).
Proof.
  intros Hrun. revert r t.
  assert (Hinit : deadlines_set (initial t0)) by (by intros []).
  revert Hinit. apply (data_steps deadlines_set); [| | | | | |done].
  - intros x y Hobjs _ _ _. unfold deadlines_set. by rewrite Hobjs.
  - apply scheduleCallback_deadlines.
  - intros r v x. by apply (alter_deadlines (Task.set_callback v) r).
  - done.
  - done.
  - intros top x _ _. by eapply (alter_deadlines _ top).
Qed.

(** ** Queue membership and sort keys *)

Lemma pop_Permutation objs heap top :
  peek heap = Some top -> heap ≡ₚ top :: (pop objs heap).2.
Proof.
  intros [rest ->]%peek_Some.
  destruct (pop_perm objs top rest) as (heap' & -> & Hperm). simpl.
  by rewrite Hperm.
Qed.

Lemma deref_alter_keys f (r r' : nat) (objs : list Task.t) :
  (forall t, Task.sortIndex (f t) = Task.sortIndex t /\
             Task.startTime (f t) = Task.startTime t /\
             Task.expirationTime (f t) = Task.expirationTime t) ->
  Task.sortIndex (deref (alter f r objs) r') = Task.sortIndex (deref objs r') /\
  Task.startTime (deref (alter f r objs) r') = Task.startTime (deref objs r') /\
  Task.expirationTime (deref (alter f r objs) r')
  = Task.expirationTime (deref objs r').
Proof.
  intros Hf. unfold deref. destruct (decide (r = r')) as [->|Hne].
  - rewrite list_lookup_alter_eq. destruct (objs !! r'); [apply Hf|done].
  - by rewrite list_lookup_alter_ne.
Qed.

Lemma deref_alter_ne f (r r' : nat) (objs : list Task.t) :
  r <> r' -> deref (alter f r objs) r' = deref objs r'.
Proof. intros Hne. unfold deref. by rewrite list_lookup_alter_ne. Qed.

Lemma deref_submitted_old (objs : list Task.t) t0 v (r : nat) :
  (r < length objs)%nat ->
  deref (alter (Task.set_sortIndex v) (length objs) (objs ++ [t0])) r
  = deref objs r.
Proof.
  intros Hr. rewrite deref_alter_ne by lia. unfold deref.
  by rewrite lookup_app_l.
Qed.

Lemma deref_submitted_new (objs : list Task.t) t0 v :
  deref (alter (Task.set_sortIndex v) (length objs) (objs ++ [t0]))
    (length objs)
  = Task.set_sortIndex v t0.
Proof. unfold deref. by rewrite lookup_new_task. Qed.

Lemma deref_promoted (objs : list Task.t) top v :
  Task.sortIndex (deref (alter (Task.set_sortIndex v) top objs) top) = v \/
  objs !! top = None.
Proof.
  unfold deref. rewrite list_lookup_alter_eq.
  destruct (objs !! top); simpl; auto.
Qed.

Lemma scheduleCallback_keyed p cb delay s :
  queues_keyed s -> queues_keyed (scheduleCallback p cb delay s).2.
Proof.
  intros [[Hnodup Halloc] [Htimer Hready]].
  destruct (scheduleCallback_queues p cb delay s) as (Hobjs & _ & Hqueues).
  cbv zeta in Hobjs, Hqueues.
  set (s' := (scheduleCallback p cb delay s).2) in *.
  set (task := length (tasks s)) in *.
  match type of Hobjs with
  | _ = alter (Task.set_sortIndex ?v) _ (_ ++ [?t]) =>
    set (v0 := v) in Hobjs; set (t0 := t) in Hobjs
  end.
  assert (Hfresh : task ∉ taskQueue s ++ timerQueue s).
  { intros Hin%Halloc. unfold task in Hin. lia. }
  assert (Hlen : length (tasks s') = S task).
  { rewrite Hobjs, length_alter, length_app. simpl. unfold task. lia. }
  assert (Hold : forall r, r ∈ taskQueue s ++ timerQueue s ->
            task_at s' r = task_at s r).
  { intros r Hr%Halloc. unfold task_at. rewrite Hobjs.
    by apply deref_submitted_old. }
  assert (Hnew : task_at s' task = Task.set_sortIndex v0 t0).
  { unfold task_at. rewrite Hobjs. apply deref_submitted_new. }
  subst v0 t0.
  destruct (now s + default 0 delay >? now s) eqn:Hlater;
    destruct Hqueues as [Hq1 Hq2]; (split; [split|split]).
  - rewrite Hq1, Hq2, push_perm. rewrite <- Permutation_middle.
    by apply NoDup_cons.
  - intros r. rewrite Hq1, Hq2, push_perm, <- Permutation_middle, Hlen.
    intros [->|Hr%Halloc]%elem_of_cons; lia.
  - intros r. rewrite Hq2. intros [->|Hr]%elem_of_push.
    + by rewrite Hnew.
    + rewrite Hold by (apply elem_of_app; auto). auto.
  - intros r. rewrite Hq1. intros Hr.
    rewrite Hold by (apply elem_of_app; auto). auto.
  - rewrite Hq1, Hq2, push_perm. by apply NoDup_cons.
  - intros r. rewrite Hq1, Hq2, push_perm, Hlen.
    intros [->|Hr%Halloc]%elem_of_cons; lia.
  - intros r. rewrite Hq2. intros Hr.
    rewrite Hold by (apply elem_of_app; auto). auto.
  - intros r. rewrite Hq1. intros [->|Hr]%elem_of_push.
    + by rewrite Hnew.
    + rewrite Hold by (apply elem_of_app; auto). auto.
Qed.

Lemma write_callback_keyed r v s :
  queues_keyed s -> queues_keyed (write_callback r v s).
Proof.
  intros [[Hnodup Halloc] [Htimer Hready]].
  assert (Hkeys : forall r',
    Task.sortIndex (task_at (write_callback r v s) r')
      = Task.sortIndex (task_at s r') /\
    Task.startTime (task_at (write_callback r v s) r')
      = Task.startTime (task_at s r') /\
    Task.expirationTime (task_at (write_callback r v s) r')
      = Task.expirationTime (task_at s r'))
    by (intros r'; by apply deref_alter_keys).
  split; [split|split]; simpl.
  - done.
  - intros r' Hr'. rewrite length_alter. auto.
  - intros r' Hr'. destruct (Hkeys r') as (-> & -> & _). auto.
  - intros r' Hr'. destruct (Hkeys r') as (-> & _ & ->). auto.
Qed.

Lemma pop_taskQueue_keyed top s :
  peek (taskQueue s) = Some top -> queues_keyed s ->
  queues_keyed (pop_taskQueue s).
Proof.
  intros Htop [[Hnodup Halloc] [Htimer Hready]].
  pose proof (pop_Permutation (tasks s) _ _ Htop) as Hperm.
  rewrite Hperm in Hnodup. simpl in Hnodup. apply NoDup_cons in Hnodup.
  split; [split|split]; simpl.
  - apply Hnodup.
  - intros r Hr. apply Halloc. rewrite Hperm. simpl. by right.
  - done.
  - intros r Hr%elem_of_pop. by apply Hready.
Qed.

Lemma pop_timerQueue_keyed top s :
  peek (timerQueue s) = Some top -> queues_keyed s ->
  queues_keyed (pop_timerQueue s).
Proof.
  intros Htop [[Hnodup Halloc] [Htimer Hready]].
  pose proof (pop_Permutation (tasks s) _ _ Htop) as Hperm.
  rewrite Hperm, <- Permutation_middle in Hnodup.
  apply NoDup_cons in Hnodup.
  split; [split|split]; simpl.
  - apply Hnodup.
  - intros r Hr. apply Halloc. rewrite Hperm, <- Permutation_middle.
    by right.
  - intros r Hr%elem_of_pop. by apply Htimer.
  - done.
Qed.

Lemma promote_keyed top s :
  peek (timerQueue s) = Some top -> queues_keyed s ->
  queues_keyed
    (push_taskQueue top
       (write_sortIndex top (Task.expirationTime (task_at s top))
          (pop_timerQueue s))).
Proof.
  intros Htop [[Hnodup Halloc] [Htimer Hready]].
  pose proof (pop_Permutation (tasks s) _ _ Htop) as Hperm.
  assert (Hkeys : forall v r',
    Task.startTime (deref (alter (Task.set_sortIndex v) top (tasks s)) r')
      = Task.startTime (deref (tasks s) r') /\
    Task.expirationTime (deref (alter (Task.set_sortIndex v) top (tasks s)) r')
      = Task.expirationTime (deref (tasks s) r')).
  { intros v r'. unfold deref.
    destruct (decide (top = r')) as [->|Hne].
    - rewrite list_lookup_alter_eq. by destruct (tasks s !! r').
    - by rewrite list_lookup_alter_ne. }
  assert (Htop_alloc : (top < length (tasks s))%nat).
  { apply Halloc, elem_of_app. right. by apply peek_elem_of. }
  assert (Htop_out : top ∉ timerQueue (pop_timerQueue s)).
  { rewrite Hperm, <- Permutation_middle in Hnodup.
    apply NoDup_cons in Hnodup as [Hout _]. intros Hin. apply Hout.
    apply elem_of_app. by right. }
  assert (Htop_key :
    Task.sortIndex
      (deref (alter (Task.set_sortIndex
                       (Task.expirationTime (deref (tasks s) top)))
                top (tasks s)) top)
    = Task.expirationTime (deref (tasks s) top)).
  { destruct (deref_promoted (tasks s) top
                (Task.expirationTime (deref (tasks s) top))) as [->|Hnone];
      [done|]. apply lookup_ge_None in Hnone. lia. }
  split; [split|split]; simpl.
  - rewrite push_perm. simpl.
    rewrite Hperm, <- Permutation_middle in Hnodup. done.
  - intros r. rewrite push_perm, length_alter. simpl. intros Hr.
    apply Halloc. rewrite Hperm, <- Permutation_middle. done.
  - intros r Hr. unfold task_at. simpl.
    rewrite deref_alter_ne by (intros ->; by apply Htop_out).
    apply Htimer. by apply elem_of_pop in Hr.
  - intros r Hr. unfold task_at. simpl.
    destruct (Hkeys (Task.expirationTime (deref (tasks s) top)) r) as [_ ->].
    destruct (decide (top = r)) as [<-|Hne]; [done|].
    rewrite deref_alter_ne by done.
    apply elem_of_push in Hr as [->|Hr]; [done|]. by apply Hready.
Qed.

Lemma steps_keyed s s' : rtc step s s' -> queues_keyed s -> queues_keyed s'.
Proof.
  apply (data_steps queues_keyed).
  - intros x y Hobjs Hready Htimer _.
    unfold queues_keyed, queues_distinct, sort_keys_set, task_at.
    by rewrite Hobjs, Hready, Htimer.
  - apply scheduleCallback_keyed.
  - apply write_callback_keyed.
  - apply pop_taskQueue_keyed.
  - intros top x Htop _. by apply (pop_timerQueue_keyed top).
  - intros top x Htop _. by apply promote_keyed.
Qed.

Lemma initial_keyed t0 : queues_keyed (initial t0).
Proof.
  split; [split|split]; simpl.
  - apply NoDup_nil_2.
  - by intros r Hr%elem_of_nil.
  - by intros r Hr%elem_of_nil.
  - by intros r Hr%elem_of_nil.
Qed.

(** X3.  In every state the host can reach, no task is in both queues or
    twice in one queue, and every queue entry refers to a task that
    exists. *)
Theorem task_in_one_queue_once t0 s :
  rtc step (initial t0) s ->
  NoDup (taskQueue s ++ timerQueue s) /\
  forall r, r ∈ taskQueue s ++ timerQueue s -> is_Some (tasks s !! r).
Proof.
  intros Hrun.
  destruct (steps_keyed _ _ Hrun (initial_keyed t0)) as [[Hnodup Halloc] _].
  split; [done|]. intros r Hr. by apply lookup_lt_is_Some_2, Halloc.
Qed.

(** X4.  In every state the host can reach, a task in the timer queue has
    its start time as [sortIndex] and a task in the ready queue has its
    deadline as [sortIndex]. *)
Theorem sortIndex_follows_queue t0 s r :
  rtc step (initial t0) s ->
  (r ∈ timerQueue s ->
   Task.sortIndex (task_at s r) = Task.startTime (task_at s r)) /\
  (r ∈ taskQueue s ->
   Task.sortIndex (task_at s r) = Task.expirationTime (task_at s r)).
Proof.
  intros Hrun.
  destruct (steps_keyed _ _ Hrun (initial_keyed t0)) as [_ [Htimer Hready]].
  auto.
Qed.

(** ** More on timer promotion *)

Lemma advanceTimers_no_root currentTime s :
  peek (timerQueue s) = None -> advanceTimers currentTime s = s.
Proof.
  intros Htop%peek_None. unfold advanceTimers. by rewrite Htop.
Qed.

Lemma advanceTimers_at_root currentTime s top :
  peek (timerQueue s) = Some top ->
  advanceTimers currentTime s =
    if bool_decide (Task.callback (task_at s top) = None)
    then advanceTimers currentTime (pop_timerQueue s)
    else if Task.startTime (task_at s top) <=? currentTime
      then advanceTimers currentTime
             (push_taskQueue top
                (write_sortIndex top (Task.expirationTime (task_at s top))
                   (pop_timerQueue s)))
      else s.
Proof.
  intros Htop.
  pose proof (length_after_pop_timerQueue s top Htop) as Hlen.
  unfold advanceTimers at 1. rewrite <- Hlen. simpl. rewrite Htop.
  case_bool_decide; [by apply advanceTimers_while_enough|].
  destruct (_ <=? _); [|done].
  apply advanceTimers_while_enough. simpl. lia.
Qed.

Lemma advanceTimers_while_then fuel earlier later s :
  earlier <= later ->
  advanceTimers later (advanceTimers_while fuel earlier s)
  = advanceTimers later s.
Proof.
  intros Hle. revert s. induction fuel as [|fuel IH]; intros s; simpl; [done|].
  destruct (peek (timerQueue s)) as [top|] eqn:Htop; [|done].
  case_bool_decide as Hcb.
  { rewrite IH, (advanceTimers_at_root later s top Htop).
    by rewrite bool_decide_eq_true_2. }
  destruct (_ <=? earlier) eqn:Hdue; [|done].
  apply Z.leb_le in Hdue.
  assert (Hdue' : (Task.startTime (task_at s top) <=? later) = true)
    by (apply Z.leb_le; lia).
  rewrite IH, (advanceTimers_at_root later s top Htop).
  by rewrite bool_decide_eq_false_2, Hdue'.
Qed.

(** X5.  Promoting timers at one time and then at a later time is the
    same as promoting once at the later time; in particular a second call
    at the same time changes nothing. *)
Theorem advanceTimers_twice earlier later s :
  earlier <= later ->
  advanceTimers later (advanceTimers earlier s) = advanceTimers later s /\
  advanceTimers later (advanceTimers later s) = advanceTimers later s.
Proof.
  intros Hle. split; apply advanceTimers_while_then; lia.
Qed.

Lemma deref_alter_sortIndex_fields v (r r' : nat) (objs : list Task.t) :
  let t' := deref (alter (Task.set_sortIndex v) r objs) r' in
  let t := deref objs r' in
  Task.id t' = Task.id t /\ Task.priorityLevel t' = Task.priorityLevel t /\
  Task.callback t' = Task.callback t /\ Task.startTime t' = Task.startTime t /\
  Task.expirationTime t' = Task.expirationTime t.
Proof.
  unfold deref. destruct (decide (r = r')) as [->|Hne].
  - rewrite list_lookup_alter_eq. by destruct (objs !! r').
  - by rewrite list_lookup_alter_ne.
Qed.

Lemma advanceTimers_while_accounts fuel currentTime s :
  let s' := advanceTimers_while fuel currentTime s in
  (forall r,
     Task.id (task_at s' r) = Task.id (task_at s r) /\
     Task.priorityLevel (task_at s' r) = Task.priorityLevel (task_at s r) /\
     Task.callback (task_at s' r) = Task.callback (task_at s r) /\
     Task.startTime (task_at s' r) = Task.startTime (task_at s r) /\
     Task.expirationTime (task_at s' r) = Task.expirationTime (task_at s r)) /\
  (exists dropped,
     taskQueue s ++ timerQueue s ≡ₚ taskQueue s' ++ timerQueue s' ++ dropped /\
     Forall (fun r => Task.callback (task_at s r) = None) dropped) /\
  (forall r, r ∈ taskQueue s' ->
     r ∈ taskQueue s \/
     (r ∈ timerQueue s /\ Task.callback (task_at s r) <> None /\
      Task.startTime (task_at s r) <= currentTime)).
Proof.
  revert s. induction fuel as [|fuel IH]; intros s; simpl.
  { split; [done|]. split; [|auto].
    exists []. split; [by rewrite app_nil_r|done]. }
  destruct (peek (timerQueue s)) as [top|] eqn:Htop.
  2:{ split; [done|]. split; [|auto].
      exists []. split; [by rewrite app_nil_r|done]. }
  pose proof (pop_Permutation (tasks s) _ _ Htop) as Hperm.
  pose proof (peek_elem_of _ _ Htop) as Hin.
  case_bool_decide as Hcb.
  - destruct (IH (pop_timerQueue s)) as (Hfields & (dropped & Hacc & Hnone) & Hnew).
    split; [done|]. split.
    + exists (top :: dropped). split.
      * simpl in Hacc. rewrite Hperm, <- Permutation_middle, Hacc.
        by rewrite <- !Permutation_middle.
      * by constructor.
    + intros r [Hr|(Hr%elem_of_pop & ?)]%Hnew; auto.
  - destruct (Task.startTime (task_at s top) <=? currentTime) eqn:Hdue.
    2:{ split; [done|]. split; [|auto].
        exists []. split; [by rewrite app_nil_r|done]. }
    apply Z.leb_le in Hdue.
    set (s1 := push_taskQueue top _).
    assert (Hs1 : forall r,
      Task.id (task_at s1 r) = Task.id (task_at s r) /\
      Task.priorityLevel (task_at s1 r) = Task.priorityLevel (task_at s r) /\
      Task.callback (task_at s1 r) = Task.callback (task_at s r) /\
      Task.startTime (task_at s1 r) = Task.startTime (task_at s r) /\
      Task.expirationTime (task_at s1 r) = Task.expirationTime (task_at s r))
      by (intros r; apply deref_alter_sortIndex_fields).
    destruct (IH s1) as (Hfields & (dropped & Hacc & Hnone) & Hnew).
    split; [|split].
    + intros r. destruct (Hfields r) as (-> & -> & -> & -> & ->). apply Hs1.
    + exists dropped. split.
      * etrans; [|exact Hacc]. simpl. rewrite push_perm.
        set (rest := (pop (tasks s) (timerQueue s)).2) in *.
        by rewrite Hperm, <- Permutation_middle.
      * eapply Forall_impl; [exact Hnone|]. intros r. simpl.
        by destruct (Hs1 r) as (_ & _ & -> & _).
    + intros r [Hr|(Hr & Hlive & Hstart)]%Hnew.
      * apply elem_of_push in Hr as [->|Hr]; auto.
      * right. apply elem_of_pop in Hr.
        destruct (Hs1 r) as (_ & _ & Hc & Hst & _).
        rewrite Hc in Hlive. rewrite Hst in Hstart. auto.
Qed.

(** X6.  [advanceTimers] only rewrites [sortIndex]: every task keeps its
    id, priority, callback, start time and deadline.  It loses no live
    task: the two queues before hold the same tasks as the two queues
    after plus the dropped ones, whose callback slot was empty.  And it
    lets no task into the ready queue early: a ready task it did not find
    there came from the timer queue, was live and had started. *)
Theorem advanceTimers_accounts_for_tasks currentTime s :
  let s' := advanceTimers currentTime s in
  (forall r,
     Task.id (task_at s' r) = Task.id (task_at s r) /\
     Task.priorityLevel (task_at s' r) = Task.priorityLevel (task_at s r) /\
     Task.callback (task_at s' r) = Task.callback (task_at s r) /\
     Task.startTime (task_at s' r) = Task.startTime (task_at s r) /\
     Task.expirationTime (task_at s' r) = Task.expirationTime (task_at s r)) /\
  (exists dropped,
     taskQueue s ++ timerQueue s ≡ₚ taskQueue s' ++ timerQueue s' ++ dropped /\
     Forall (fun r => Task.callback (task_at s r) = None) dropped) /\
  (forall r, r ∈ taskQueue s' ->
     r ∈ taskQueue s \/
     (r ∈ timerQueue s /\ Task.callback (task_at s r) <> None /\
      Task.startTime (task_at s r) <= currentTime)).
Proof. apply advanceTimers_while_accounts. Qed.

(** ** The timeout handler *)

Lemma advanceTimers_while_control fuel currentTime s :
  let s' := advanceTimers_while fuel currentTime s in
  control s' = control s /\ now s' = now s /\ executed s' = executed s /\
  taskIdCounter s' = taskIdCounter s.
Proof.
  revert s. induction fuel as [|fuel IH]; intros s; simpl; [done|].
  destruct (peek (timerQueue s)); [|done].
  destruct (bool_decide _); [exact (IH (pop_timerQueue s))|].
  destruct (_ <=? _); [|done].
  exact (IH (push_taskQueue _ _)).
Qed.

Lemma handleTimeout_data currentTime s :
  let promoted := advanceTimers currentTime (set_isHostTimeoutScheduled false s) in
  let s' := handleTimeout currentTime s in
  tasks s' = tasks promoted /\ taskQueue s' = taskQueue promoted /\
  timerQueue s' = timerQueue promoted /\ now s' = now s /\
  executed s' = executed s /\ posted s' = posted s /\
  isPerformingWork s' = isPerformingWork s /\
  isMessageLoopRunning s' = isMessageLoopRunning s.
Proof.
  intros promoted s'.
  destruct (advanceTimers_while_control
              (length (timerQueue (set_isHostTimeoutScheduled false s)))
              currentTime (set_isHostTimeoutScheduled false s))
    as (Hcontrol & Hnow & Hlog & _).
  fold (advanceTimers currentTime (set_isHostTimeoutScheduled false s))
    in Hcontrol, Hnow, Hlog.
  fold promoted in Hcontrol, Hnow, Hlog.
  injection Hcontrol as _ _ Hperf Hloop _ _ _ _ _ Hposted.
  subst s'. unfold handleTimeout. fold promoted.
  unfold requestHostTimeout, requestHostCallback, setTimeout.
  split_branches; simpl; done.
Qed.

(** X7.  When [handleTimeout] runs with no host callback scheduled and
    promotion leaves the ready queue empty while a task still waits, it
    arms one new timeout that calls [handleTimeout], for the time left
    until the start of the earliest waiting task; that time is positive.
    No task callback runs and no message is posted. *)
Theorem handleTimeout_rearms currentTime s top :
  isHostCallbackScheduled s = false ->
  peek (taskQueue (handleTimeout currentTime s)) = None ->
  peek (timerQueue (handleTimeout currentTime s)) = Some top ->
  let s' := handleTimeout currentTime s in
  let wait := Task.startTime (task_at s' top) - currentTime in
  0 < wait /\
  timers s' = <[nextTimerId s := mkTimer handleTimeoutHandler wait (now s)]>
                (timers s) /\
  taskTimeoutId s' = nextTimerId s /\
  isHostTimeoutScheduled s' = true /\
  isHostCallbackScheduled s' = false /\
  executed s' = executed s /\ posted s' = posted s.
Proof.
  intros Hidle.
  destruct (handleTimeout_data currentTime s)
    as (Hobjs & Hready & Htimer & _ & Hlog & Hposted & _).
  cbv zeta in *. rewrite Hready, Htimer. intros Hnone Htop.
  unfold task_at. rewrite Hobjs. fold (task_at
    (advanceTimers currentTime (set_isHostTimeoutScheduled false s)) top).
  pose proof (advanceTimers_while_stops
                (length (timerQueue (set_isHostTimeoutScheduled false s)))
                currentTime (set_isHostTimeoutScheduled false s)
                (Nat.le_refl _)) as Hstop.
  destruct (advanceTimers_while_control
              (length (timerQueue (set_isHostTimeoutScheduled false s)))
              currentTime (set_isHostTimeoutScheduled false s))
    as (Hcontrol & Hnow & Hlog' & _).
  fold (advanceTimers currentTime (set_isHostTimeoutScheduled false s))
    in Hstop, Hcontrol, Hnow, Hlog'.
  set (promoted := advanceTimers currentTime _) in *.
  rewrite Htop in Hstop. destruct Hstop as [_ Hlater].
  injection Hcontrol as Hcb Hto _ _ _ _ _ Htimers Hnext Hposted'.
  simpl in Hcb, Hto, Htimers, Hnext, Hnow, Hlog', Hposted'.
  split; [lia|].
  unfold handleTimeout. fold promoted.
  rewrite Hcb, Hidle, Hnone, Htop. simpl.
  unfold requestHostTimeout, setTimeout. rewrite Hto. simpl.
  rewrite Hcb, Hidle, Htimers, Hnext, Hnow.
  by repeat split.
Qed.

(** X8.  When [handleTimeout] runs with no host callback scheduled and
    leaves a task in the ready queue, it marks the host callback as
    scheduled and stores [flushWork] for the message handler, arms no
    timeout, runs no task callback, and posts no message. *)
Theorem handleTimeout_requests_flush currentTime s task :
  isHostCallbackScheduled s = false ->
  peek (taskQueue (handleTimeout currentTime s)) = Some task ->
  let s' := handleTimeout currentTime s in
  isHostCallbackScheduled s' = true /\
  scheduledHostCallback s' = Some flushWorkCallback /\
  isHostTimeoutScheduled s' = false /\
  timers s' = timers s /\
  executed s' = executed s /\ posted s' = posted s.
Proof.
  intros Hidle.
  destruct (handleTimeout_data currentTime s)
    as (_ & Hready & _ & _ & Hlog & Hposted & _).
  cbv zeta in *. rewrite Hready. intros Htask.
  destruct (advanceTimers_while_control
              (length (timerQueue (set_isHostTimeoutScheduled false s)))
              currentTime (set_isHostTimeoutScheduled false s))
    as (Hcontrol & _).
  fold (advanceTimers currentTime (set_isHostTimeoutScheduled false s))
    in Hcontrol.
  set (promoted := advanceTimers currentTime _) in *.
  injection Hcontrol as Hcb Hto _ _ _ _ _ Htimers _ _.
  simpl in Hcb, Hto, Htimers.
  split; [|split; [|split; [|split; [|split]]]]; try done;
    unfold handleTimeout; fold promoted; rewrite Hcb, Hidle, Htask; simpl;
    done.
Qed.

(** ** What a flush leaves alone *)

Lemma push_not_nil objs heap node : push objs heap node <> [].
Proof.
  intros Hnil. pose proof (length_push objs heap node) as Hlen.
  by rewrite Hnil in Hlen.
Qed.

Lemma peek_not_None heap : heap <> [] <-> peek heap <> None.
Proof. destruct heap; simpl; split; congruence. Qed.

Lemma scheduleCallback_in_flush p cb delay s :
  isPerformingWork s = true -> taskQueue s <> [] ->
  control (scheduleCallback p cb delay s).2 = control s /\
  taskQueue (scheduleCallback p cb delay s).2 <> [].
Proof.
  intros Hperf Hready. split.
  - apply peek_not_None in Hready.
    unfold_submission. unfold control. destruct (_ >? _); simpl.
    + rewrite (bool_decide_eq_false_2 (peek (taskQueue s) = None)) by done.
      simpl. by rewrite Hperf.
    + rewrite Hperf, andb_false_r. simpl. by rewrite Hperf.
  - destruct (scheduleCallback_queues p cb delay s) as (_ & _ & Hqueues).
    cbv zeta in Hqueues. destruct (_ >? _); destruct Hqueues as [-> _];
      [done|apply push_not_nil].
Qed.

Lemma perform_in_flush s a :
  isPerformingWork s = true -> taskQueue s <> [] ->
  control (perform s a) = control s /\ taskQueue (perform s a) <> [].
Proof.
  destruct a; cbn [perform]; [apply scheduleCallback_in_flush|done..].
Qed.

Lemma foldl_perform_in_flush l s :
  isPerformingWork s = true -> taskQueue s <> [] ->
  control (foldl perform s l) = control s.
Proof.
  revert s. induction l as [|a l IH]; intros s Hperf Hready; simpl; [done|].
  destruct (perform_in_flush s a Hperf Hready) as [Hcontrol Hready'].
  rewrite IH; [done| |done].
  injection Hcontrol as _ _ -> _. done.
Qed.

Lemma advanceTimers_control currentTime s :
  control (advanceTimers currentTime s) = control s.
Proof. apply advanceTimers_while_control. Qed.

Lemma workLoop_pass_control currentTime s :
  isPerformingWork s = true ->
  control (pass_state (workLoop_pass currentTime s)) = control s.
Proof.
  intros Hperf. unfold workLoop_pass.
  destruct (peek (taskQueue s)) as [currentTask|] eqn:Hroot.
  2:{ unfold workLoop_end. by rewrite Hroot. }
  destruct (_ && _); [done|].
  destruct (Task.callback (task_at s currentTask)) as [callback|]; [|done].
  unfold invoke. simpl.
  set (s0 := set_executed _ _).
  assert (Hs1 : control (foldl perform s0 (actions (body callback))) = control s).
  { rewrite foldl_perform_in_flush; [done|done|].
    simpl. apply peek_not_None. by rewrite Hroot. }
  destruct (result (body callback)); simpl; [| |done].
  - by rewrite advanceTimers_control.
  - rewrite advanceTimers_control. by case_bool_decide.
Qed.

Lemma workLoop_while_control fuel currentTime s c s' :
  workLoop_while fuel currentTime s = Some (c, s') ->
  isPerformingWork s = true -> control s' = control s.
Proof.
  revert currentTime s. induction fuel as [|fuel IH]; intros currentTime s;
    simpl; [done|].
  intros Hrun Hperf.
  pose proof (workLoop_pass_control currentTime s Hperf) as Hpass.
  destruct (workLoop_pass currentTime s) as [currentTime1 s1|[c1 s1]];
    simpl in Hpass.
  - rewrite <- Hpass. eapply IH; [done|].
    injection Hpass as _ _ -> _. done.
  - by injection Hrun as <- <-.
Qed.

Lemma workLoop_control fuel hasTimeRemaining initialTime s c s' :
  workLoop fuel hasTimeRemaining initialTime s = Some (c, s') ->
  isPerformingWork s = true -> control s' = control s.
Proof.
  unfold workLoop. intros Hrun Hperf.
  pose proof (advanceTimers_control initialTime s) as Hadv.
  rewrite <- Hadv. eapply workLoop_while_control; [done|].
  injection Hadv as _ _ -> _. done.
Qed.

Lemma flushWork_control_after fuel hasTimeRemaining initialTime s c s' :
  flushWork fuel hasTimeRemaining initialTime s = Some (c, s') ->
  isHostCallbackScheduled s' = false /\
  isHostTimeoutScheduled s' = false /\
  isPerformingWork s' = false /\
  timers s' =
    (if isHostTimeoutScheduled s
     then delete (taskTimeoutId s) (timers s)
     else timers s) /\
  nextTimerId s' = nextTimerId s /\
  posted s' = posted s /\
  scheduledHostCallback s' = scheduledHostCallback s /\
  isMessageLoopRunning s' = isMessageLoopRunning s /\
  startTime s' = startTime s.
Proof.
  unfold flushWork.
  destruct (workLoop _ _ _ _) as [[c1 s1]|] eqn:Hrun; [|done].
  intros [= <- <-].
  apply workLoop_control in Hrun; [|done].
  injection Hrun as Hcb Hto _ Hloop Hstored _ Hslice Htimers Hnext Hposted.
  simpl. rewrite Hcb, Hto, Hloop, Hstored, Hslice, Htimers, Hnext, Hposted.
  destruct (isHostTimeoutScheduled s) eqn:Hflag; simpl; by repeat split.
Qed.


(** X9.  Whatever the callbacks do during a flush (submit tasks, cancel
    tasks, take time), [flushWork] arms no timeout, posts no message and
    does not touch the stored host callback or the slice start.  When it
    completes, normally or by a thrown exception, both
    [isHostCallbackScheduled] and [isHostTimeoutScheduled] are false, and
    the only timeout that can have gone is the one that was pending when
    the flush began. *)
Theorem flushWork_only_clears_flags fuel hasTimeRemaining initialTime s c s' :
  flushWork fuel hasTimeRemaining initialTime s = Some (c, s') ->
  isHostCallbackScheduled s' = false /\
  isHostTimeoutScheduled s' = false /\
  isPerformingWork s' = false /\
  timers s' =
    (if isHostTimeoutScheduled s
     then delete (taskTimeoutId s) (timers s)
     else timers s) /\
  nextTimerId s' = nextTimerId s /\
  posted s' = posted s /\
  scheduledHostCallback s' = scheduledHostCallback s /\
  isMessageLoopRunning s' = isMessageLoopRunning s /\
  startTime s' = startTime s.
Proof. apply flushWork_control_after. Qed.

Lemma workLoop_pass_more_work currentTime s b s' :
  workLoop_pass currentTime s = Leave (Returned b, s') ->
  if b then taskQueue s' <> [] else taskQueue s' = [].
Proof.
  unfold workLoop_pass.
  destruct (peek (taskQueue s)) as [currentTask|] eqn:Hroot.
  2:{ unfold workLoop_end. rewrite Hroot. intros [= <- <-].
      by apply peek_None. }
  destruct (_ && _).
  { intros [= <- <-]. apply peek_not_None. by rewrite Hroot. }
  destruct (Task.callback (task_at s currentTask)) as [callback|]; [|done].
  unfold invoke. simpl.
  set (s0 := set_executed _ _).
  destruct (result (body callback)) as [k| |]; simpl; [|done..].
  intros [= <- <-].
  assert (Hin : currentTask ∈ taskQueue s0) by (by apply peek_elem_of).
  assert (Hin' : currentTask ∈ taskQueue
            (advanceTimers (getCurrentTime (foldl perform s0 (actions (body callback))))
               (write_callback currentTask (Some k)
                  (foldl perform s0 (actions (body callback)))))).
  { eapply (rtc_ready_kept timer_effect);
      [apply timer_effect_ready_kept|by apply advanceTimers_timer|].
    simpl.
    eapply (rtc_ready_kept api_effect);
      [apply api_effect_ready_kept|apply foldl_perform_api|done]. }
  intros Hnil. rewrite Hnil in Hin'. by apply elem_of_nil in Hin'.
Qed.

Lemma workLoop_while_more_work fuel currentTime s b s' :
  workLoop_while fuel currentTime s = Some (Returned b, s') ->
  if b then taskQueue s' <> [] else taskQueue s' = [].
Proof.
  revert currentTime s. induction fuel as [|fuel IH]; intros currentTime s;
    simpl; [done|].
  destruct (workLoop_pass currentTime s) as [currentTime1 s1|r] eqn:Hpass.
  - apply IH.
  - intros [= ->]. by eapply workLoop_pass_more_work.
Qed.

(** X10.  The value [workLoop] returns says whether ready work is left:
    it returns [true] with a ready queue that is not empty and [false]
    with an empty one. *)
Theorem workLoop_returns_whether_work_remains
    fuel hasTimeRemaining initialTime s b s' :
  workLoop fuel hasTimeRemaining initialTime s = Some (Returned b, s') ->
  if b then taskQueue s' <> [] else taskQueue s' = [].
Proof. apply workLoop_while_more_work. Qed.

Lemma performWorkUntilDealine_outcome fuel s c s' :
  scheduledHostCallback s = Some flushWorkCallback ->
  performWorkUntilDealine fuel s = Some (c, s') ->
  startTime s' = Some (now s) /\
  isPerformingWork s' = false /\
  isHostCallbackScheduled s' = false /\
  match c with
  | Thrown =>
    posted s' = S (posted s) /\
    scheduledHostCallback s' = Some flushWorkCallback /\
    isMessageLoopRunning s' = isMessageLoopRunning s
  | Returned _ =>
    if bool_decide (taskQueue s' = [])
    then posted s' = posted s /\ scheduledHostCallback s' = None /\
         isMessageLoopRunning s' = false
    else posted s' = S (posted s) /\
         scheduledHostCallback s' = Some flushWorkCallback /\
         isMessageLoopRunning s' = isMessageLoopRunning s
  end.
Proof.
  intros Hstored. unfold performWorkUntilDealine. rewrite Hstored.
  destruct (flushWork _ _ _ _) as [[c1 s1]|] eqn:Hflush; [|done].
  pose proof (flushWork_control_after _ _ _ _ _ _ Hflush)
    as (Hcb & _ & Hperf & _ & _ & Hposted & Hstored1 & Hloop & Hslice).
  simpl in Hposted, Hstored1, Hloop, Hslice.
  assert (Hwork : forall b, c1 = Returned b ->
            if b then taskQueue s1 <> [] else taskQueue s1 = []).
  { intros b ->. unfold flushWork in Hflush.
    destruct (workLoop _ _ _ _) as [[c2 s2]|] eqn:Hrun; [|done].
    injection Hflush as -> <-. simpl.
    by apply workLoop_while_more_work in Hrun. }
  destruct c1 as [[]|]; intros [= <- <-]; simpl;
    (split; [done|]); (split; [done|]); (split; [done|]).
  - rewrite bool_decide_eq_false_2 by (by apply (Hwork true)).
    by rewrite Hposted, Hstored1, Hstored.
  - rewrite bool_decide_eq_true_2 by (by apply (Hwork false)).
    by rewrite Hposted.
  - by rewrite Hposted, Hstored1, Hstored.
Qed.

(** X11.  A turn of the message handler with [flushWork] stored records
    the clock as the start of the slice and leaves [isPerformingWork]
    and [isHostCallbackScheduled] false.  It posts exactly one message for
    the next turn when a callback threw or when ready work is left, and
    keeps the host callback; when the ready queue is empty it posts
    nothing, forgets the host callback and clears [isMessageLoopRunning]. *)
Theorem performWorkUntilDealine_reposts_while_work_remains fuel s c s' :
  scheduledHostCallback s = Some flushWorkCallback ->
  performWorkUntilDealine fuel s = Some (c, s') ->
  startTime s' = Some (now s) /\
  isPerformingWork s' = false /\
  isHostCallbackScheduled s' = false /\
  match c with
  | Thrown =>
    posted s' = S (posted s) /\
    scheduledHostCallback s' = Some flushWorkCallback /\
    isMessageLoopRunning s' = isMessageLoopRunning s
  | Returned _ =>
    if bool_decide (taskQueue s' = [])
    then posted s' = posted s /\ scheduledHostCallback s' = None /\
         isMessageLoopRunning s' = false
    else posted s' = S (posted s) /\
         scheduledHostCallback s' = Some flushWorkCallback /\
         isMessageLoopRunning s' = isMessageLoopRunning s
  end.
Proof. apply performWorkUntilDealine_outcome. Qed.

(** X12.  A callback that throws is not retried: the exception leaves
    [workLoop], the task stays in the ready queue with an empty callback
    slot, and the log shows the one invocation. *)
Theorem thrown_callback_leaves_empty_slot fuel currentTime s task callback :
  peek (taskQueue s) = Some task ->
  Task.callback (task_at s task) = Some callback ->
  (Task.expirationTime (task_at s task) >? currentTime)
    && shouldYieldToHost s = false ->
  result (body callback) = Throws ->
  exists s',
    workLoop_while (S fuel) currentTime s = Some (Thrown, s') /\
    task ∈ taskQueue s' /\
    Task.callback (task_at s' task) = None /\
    executed s' = executed s ++ [(task, callback)].
Proof.
  intros Hroot Hcb Hrun Hresult.
  set (s' := foldl perform (entered task callback s) (actions (body callback))).
  assert (Hapi : rtc api_effect (entered task callback s) s')
    by apply foldl_perform_api.
  destruct (pending_allocated _ _ _ Hcb) as (t & Ht & _).
  exists s'. split; [|split; [|split]].
  - simpl. unfold workLoop_pass, invoke. rewrite Hroot, Hrun, Hcb. simpl.
    by rewrite Hresult.
  - eapply (rtc_ready_kept api_effect);
      [apply api_effect_ready_kept|done|]. simpl. by apply peek_elem_of.
  - apply cancelled_task_at.
    eapply rtc_api_effect_cancelled; [done|].
    exists (Task.set_callback None t). split; [|done].
    simpl. by rewrite list_lookup_alter_eq, Ht.
  - by rewrite (rtc_api_effect_executed _ _ Hapi).
Qed.

(** ** The end of a task *)

Lemma scheduleCallback_distinct p cb delay s :
  queues_distinct s -> queues_distinct (scheduleCallback p cb delay s).2.
Proof.
  intros [Hnodup Halloc].
  destruct (scheduleCallback_queues p cb delay s) as (Hobjs & _ & Hqueues).
  cbv zeta in Hobjs, Hqueues.
  set (s' := (scheduleCallback p cb delay s).2) in *.
  set (task := length (tasks s)) in *.
  assert (Hfresh : task ∉ taskQueue s ++ timerQueue s).
  { intros Hin%Halloc. unfold task in Hin. lia. }
  assert (Hlen : length (tasks s') = S task).
  { rewrite Hobjs, length_alter, length_app. simpl. unfold task. lia. }
  destruct (now s + default 0 delay >? now s);
    destruct Hqueues as [Hq1 Hq2]; split.
  - rewrite Hq1, Hq2, push_perm. rewrite <- Permutation_middle.
    by apply NoDup_cons.
  - intros r. rewrite Hq1, Hq2, push_perm, <- Permutation_middle, Hlen.
    intros [->|Hr%Halloc]%elem_of_cons; lia.
  - rewrite Hq1, Hq2, push_perm. by apply NoDup_cons.
  - intros r. rewrite Hq1, Hq2, push_perm, Hlen.
    intros [->|Hr%Halloc]%elem_of_cons; lia.
Qed.

Lemma foldl_perform_distinct l s :
  queues_distinct s -> queues_distinct (foldl perform s l).
Proof.
  revert s. induction l as [|a l IH]; intros s Hs; simpl; [done|].
  apply IH. destruct a; cbn [perform].
  - by apply scheduleCallback_distinct.
  - destruct Hs as [Hnodup Halloc]. split; [done|].
    intros r Hr. simpl. rewrite length_alter. auto.
  - done.
Qed.

(** X13.  A task whose callback returns something that is not a function
    is retired: if it is still the root of the ready queue when the
    callback returns, the pass leaves it in neither queue. *)
Theorem finished_task_leaves_queues currentTime s task callback :
  queues_distinct s ->
  peek (taskQueue s) = Some task ->
  Task.callback (task_at s task) = Some callback ->
  (Task.expirationTime (task_at s task) >? currentTime)
    && shouldYieldToHost s = false ->
  result (body callback) = ReturnsOther ->
  peek (taskQueue
          (foldl perform (entered task callback s) (actions (body callback))))
    = Some task ->
  let s' := pass_state (workLoop_pass currentTime s) in
  (task ∉ taskQueue s') /\ (task ∉ timerQueue s').
Proof.
  intros Hdistinct Hroot Hcb Hrun Hresult Hstill s'.
  set (returned := foldl perform (entered task callback s) _) in *.
  assert (Hreturned : queues_distinct returned).
  { apply foldl_perform_distinct. destruct Hdistinct as [Hnodup Halloc].
    split; [done|]. intros r Hr. simpl. rewrite length_alter. auto. }
  assert (Hs' : s' = advanceTimers (getCurrentTime returned)
                       (pop_taskQueue returned)).
  { subst s'. unfold workLoop_pass, invoke. rewrite Hroot, Hrun, Hcb. simpl.
    fold (entered task callback s). fold returned. rewrite Hresult. simpl.
    by rewrite bool_decide_eq_true_2. }
  destruct Hreturned as [Hnodup _].
  pose proof (pop_Permutation (tasks returned) _ _ Hstill) as Hperm.
  rewrite Hperm in Hnodup. simpl in Hnodup.
  apply NoDup_cons in Hnodup as [Hout _].
  destruct (advanceTimers_while_accounts
              (length (timerQueue (pop_taskQueue returned)))
              (getCurrentTime returned) (pop_taskQueue returned))
    as (_ & (dropped & Hacc & _) & _).
  fold (advanceTimers (getCurrentTime returned) (pop_taskQueue returned))
    in Hacc.
  rewrite <- Hs' in Hacc. simpl in Hacc.
  assert (Hnone : task ∉ taskQueue s' ++ timerQueue s').
  { intros Hin. apply Hout. rewrite Hacc. rewrite app_assoc.
    apply elem_of_app. by left. }
  split; intros Hin; apply Hnone, elem_of_app; auto.
Qed.

(** ** Termination of a flush *)

Lemma perform_quiet s a :
  match a with CallScheduleCallback _ _ _ => False | _ => True end ->
  taskQueue (perform s a) = taskQueue s /\
  timerQueue (perform s a) = timerQueue s.
Proof. by destruct a. Qed.

Lemma foldl_perform_quiet l s :
  Forall (fun a => match a with
                   | CallScheduleCallback _ _ _ => False
                   | _ => True
                   end) l ->
  taskQueue (foldl perform s l) = taskQueue s /\
  timerQueue (foldl perform s l) = timerQueue s.
Proof.
  intros Hquiet. revert s.
  induction Hquiet as [|a l Ha _ IH]; intros s; simpl; [done|].
  destruct (IH (perform s a)) as [-> ->]. by apply perform_quiet.
Qed.

Lemma advanceTimers_queued currentTime s :
  (queued (advanceTimers currentTime s) <= queued s)%nat.
Proof.
  destruct (advanceTimers_while_accounts (length (timerQueue s)) currentTime s)
    as (_ & (dropped & Hacc & _) & _).
  fold (advanceTimers currentTime s) in Hacc.
  apply Permutation_length in Hacc. rewrite !length_app in Hacc.
  unfold queued. lia.
Qed.

Lemma pop_taskQueue_queued s top :
  peek (taskQueue s) = Some top ->
  S (queued (pop_taskQueue s)) = queued s.
Proof.
  intros Htop. unfold queued. simpl.
  pose proof (length_pop (tasks s) _ _ Htop). lia.
Qed.

Lemma workLoop_pass_queued currentTime s :
  (forall c, submits_nothing (body c)) ->
  match workLoop_pass currentTime s with
  | Again _ s' => (queued s' < queued s)%nat
  | Leave _ => True
  end.
Proof.
  intros Hquiet. unfold workLoop_pass.
  destruct (peek (taskQueue s)) as [currentTask|] eqn:Hroot; [|done].
  destruct (_ && _); [done|].
  destruct (Task.callback (task_at s currentTask)) as [callback|].
  2:{ pose proof (pop_taskQueue_queued s _ Hroot). lia. }
  unfold invoke. simpl.
  set (s0 := set_executed _ _).
  destruct (foldl_perform_quiet (actions (body callback)) s0 (Hquiet callback))
    as [Hready Htimer].
  set (returned := foldl perform s0 _) in *.
  destruct (result (body callback)); simpl; [done| |done].
  rewrite Hready. simpl. rewrite Hroot.
  rewrite bool_decide_eq_true_2 by done.
  pose proof (advanceTimers_queued (getCurrentTime returned)
                (pop_taskQueue returned)) as Hadv.
  assert (Hpop : S (queued (pop_taskQueue returned)) = queued s).
  { rewrite (pop_taskQueue_queued returned currentTask)
      by (by rewrite Hready).
    unfold queued. by rewrite Hready, Htimer. }
  lia.
Qed.

Lemma workLoop_while_ends fuel currentTime s :
  (forall c, submits_nothing (body c)) ->
  (queued s < fuel)%nat ->
  is_Some (workLoop_while fuel currentTime s).
Proof.
  intros Hquiet. revert currentTime s.
  induction fuel as [|fuel IH]; intros currentTime s Hfuel; [lia|].
  simpl. pose proof (workLoop_pass_queued currentTime s Hquiet) as Hpass.
  destruct (workLoop_pass currentTime s) as [currentTime1 s1|r]; [|done].
  apply IH. lia.
Qed.

(** X14.  If no callback submits a task, a flush ends: [flushWork]
    completes within one pass of the loop per queued task, plus one. *)
Theorem flushWork_ends hasTimeRemaining initialTime s :
  (forall c, submits_nothing (body c)) ->
  is_Some (flushWork (S (queued s)) hasTimeRemaining initialTime s).
Proof.
  intros Hquiet. unfold flushWork, workLoop.
  set (entry := set_isPerformingWork true _).
  assert (Hentry : queued entry = queued s).
  { subst entry. unfold queued. simpl.
    by destruct (isHostTimeoutScheduled s). }
  pose proof (advanceTimers_queued initialTime entry) as Hadv.
  destruct (workLoop_while_ends (S (queued s)) initialTime
              (advanceTimers initialTime entry) Hquiet) as [[c s'] ->];
    [lia|done].
Qed.

(** ** The message channel *)

Lemma step_one_message s s' : step s s' -> one_message s -> one_message s'.
Proof.
  intros Hstep [Hposted Hloop].
  destruct Hstep as [p cb delay s|task s|dt s|fuel s c s' Hrun|tid s].
  - unfold one_message.
    destruct (scheduleCallback_posted p cb delay s) as (-> & -> & _). done.
  - done.
  - done.
  - destruct (scheduledHostCallback s) as [[]|] eqn:Hstored.
    + destruct (performWorkUntilDealine_outcome fuel
                  (set_posted (Nat.pred (posted s)) s) c s' Hstored Hrun)
        as (_ & _ & _ & Hout). simpl in Hout. unfold one_message.
      destruct c as [v|].
      * case_bool_decide; [destruct Hout as (-> & _ & ->)
                          |destruct Hout as (-> & _ & ->)]; split; (lia||done).
      * destruct Hout as (-> & _ & ->). split; [lia|done].
    + unfold performWorkUntilDealine in Hrun. simpl in Hrun.
      rewrite Hstored in Hrun. injection Hrun as _ <-.
      split; simpl; [lia|done].
  - destruct (handleTimeout_data (getCurrentTime s) (clearTimeout tid s))
      as (_ & _ & _ & _ & _ & Hp & _ & Hl).
    split; [by rewrite Hp|by rewrite Hl].
Qed.

(** X15.  However the host takes its turns, at most one message is
    waiting in the channel at any moment, and [isMessageLoopRunning] is
    never set. *)
Theorem at_most_one_message_posted t0 s :
  rtc step (initial t0) s ->
  (posted s <= 1)%nat /\ isMessageLoopRunning s = false.
Proof.
  intros Hrun.
  assert (Hinit : one_message (initial t0)) by (split; simpl; [lia|done]).
  revert Hinit. induction Hrun; eauto using step_one_message.
Qed.

(** ** The flags between turns *)

Lemma scheduleCallback_between_turns p cb delay s :
  between_turns s -> between_turns (scheduleCallback p cb delay s).2.
Proof.
  intros [Hperf Hstored]. unfold between_turns.
  unfold_submission. split_branches; simpl in *; split; auto; congruence.
Qed.

Lemma handleTimeout_between_turns currentTime s :
  between_turns s -> between_turns (handleTimeout currentTime s).
Proof.
  intros [Hperf Hstored].
  destruct (advanceTimers_while_control
              (length (timerQueue (set_isHostTimeoutScheduled false s)))
              currentTime (set_isHostTimeoutScheduled false s))
    as (Hcontrol & _).
  fold (advanceTimers currentTime (set_isHostTimeoutScheduled false s))
    in Hcontrol.
  unfold between_turns, handleTimeout.
  set (promoted := advanceTimers currentTime _) in *.
  injection Hcontrol as Hcb _ Hperf' _ Hstored' _ _ _ _ _.
  simpl in Hcb, Hperf', Hstored'.
  unfold requestHostTimeout, requestHostCallback, setTimeout.
  split_branches; simpl; rewrite ?Hcb, ?Hperf', ?Hstored'; split; auto;
    congruence.
Qed.

Lemma step_between_turns s s' :
  step s s' -> between_turns s -> between_turns s'.
Proof.
  intros Hstep Hs.
  destruct Hstep as [p cb delay s|task s|dt s|fuel s c s' Hrun|tid s].
  - by apply scheduleCallback_between_turns.
  - done.
  - done.
  - destruct (scheduledHostCallback s) as [[]|] eqn:Hstored.
    + destruct (performWorkUntilDealine_outcome fuel
                  (set_posted (Nat.pred (posted s)) s) c s' Hstored Hrun)
        as (_ & Hperf & Hcb & _).
      split; [done|]. congruence.
    + unfold performWorkUntilDealine in Hrun. simpl in Hrun.
      rewrite Hstored in Hrun. injection Hrun as _ <-. done.
  - by apply handleTimeout_between_turns.
Qed.

(** X16.  Whenever the host has control, [isPerformingWork] is false (a
    callback that threw has not left the scheduler locked), and if
    [isHostCallbackScheduled] is set then [flushWork] is stored as the
    host callback. *)
Theorem flags_between_turns t0 s :
  rtc step (initial t0) s ->
  isPerformingWork s = false /\
  (isHostCallbackScheduled s = true ->
   scheduledHostCallback s = Some flushWorkCallback).
Proof.
  intros Hrun.
  assert (Hinit : between_turns (initial t0)) by done.
  revert Hinit. induction Hrun; eauto using step_between_turns.
Qed.

(** ** Promotion of a due task *)

(** X17.  A live task at the root of the timer queue whose start time has
    come is in the ready queue after [advanceTimers]. *)
Theorem advanceTimers_promotes_due_root currentTime s top :
  peek (timerQueue s) = Some top ->
  Task.callback (task_at s top) <> None ->
  Task.startTime (task_at s top) <= currentTime ->
  top ∈ taskQueue (advanceTimers currentTime s).
Proof.
  intros Htop Hlive Hdue.
  rewrite (advanceTimers_at_root currentTime s top Htop).
  rewrite bool_decide_eq_false_2 by done.
  apply Z.leb_le in Hdue. rewrite Hdue.
  apply (advanceTimers_keeps (fun x => top ∈ taskQueue x)).
  - intros _ x _ _ Hx. done.
  - intros r x _ _ Hx. simpl. apply elem_of_push. auto.
  - simpl. apply elem_of_push. auto.
Qed.

(** ** Cancellation by a running callback *)

Lemma advanceTimers_while_slots fuel currentTime s :
  let s' := advanceTimers_while fuel currentTime s in
  executed s' = executed s /\ length (tasks s') = length (tasks s) /\
  forall task, cancelled task s -> cancelled task s'.
Proof.
  revert s. induction fuel as [|fuel IH]; intros s; simpl; [done|].
  destruct (peek (timerQueue s)) as [top|]; [|done].
  case_bool_decide.
  { destruct (IH (pop_timerQueue s)) as (Hlog & Hlen & Hc). done. }
  destruct (_ <=? _); [|done].
  match goal with
  | |- context [advanceTimers_while fuel currentTime ?x] =>
    destruct (IH x) as (Hlog & Hlen & Hc)
  end.
  rewrite Hlog, Hlen. simpl. rewrite length_alter.
  split; [done|]. split; [done|].
  intros task Htask. apply Hc.
  by apply (cancelled_alter
              (Task.set_sortIndex (Task.expirationTime (task_at s top)))
              task top s).
Qed.

Lemma perform_length s a :
  (length (tasks s) <= length (tasks (perform s a)))%nat.
Proof.
  apply extends_length.
  apply (rtc_evolves _ _ _ api_effect_evolves (perform_api s a)).
Qed.

Lemma foldl_perform_length l s :
  (length (tasks s) <= length (tasks (foldl perform s l)))%nat.
Proof.
  apply extends_length.
  apply (rtc_evolves _ _ _ api_effect_evolves (foldl_perform_api l s)).
Qed.

(** Once an action of the callback has cancelled a task that exists, the
    slot of that task is empty when the callback returns. *)
Lemma foldl_perform_cancels task l s :
  (task < length (tasks s))%nat ->
  CallCancelCallback task ∈ l ->
  cancelled task (foldl perform s l).
Proof.
  revert s. induction l as [|a l IH]; intros s Hlen Hin.
  { by apply elem_of_nil in Hin. }
  apply elem_of_cons in Hin as [<-|Hin]; simpl.
  - eapply rtc_api_effect_cancelled; [apply foldl_perform_api|].
    by apply cancelCallback_cancelled, lookup_lt_is_Some_2.
  - apply IH; [|done]. pose proof (perform_length s a). lia.
Qed.

Lemma runs_of_other task r callback :
  r <> task -> runs_of task [(r, callback)] = [].
Proof. intros Hne. unfold runs_of. by rewrite filter_cons_False. Qed.

(** A pass that invokes a callback: the log gains that invocation, and
    a slot that is empty when the callback returns, of a task other than
    the one invoked, is empty when the pass ends. *)
Lemma workLoop_pass_called currentTime s r callback :
  peek (taskQueue s) = Some r ->
  Task.callback (task_at s r) = Some callback ->
  (Task.expirationTime (task_at s r) >? currentTime)
    && shouldYieldToHost s = false ->
  let returned := foldl perform (entered r callback s) (actions (body callback)) in
  let s1 := pass_state (workLoop_pass currentTime s) in
  executed s1 = executed s ++ [(r, callback)] /\
  length (tasks s1) = length (tasks returned) /\
  forall task, r <> task -> cancelled task returned -> cancelled task s1.
Proof.
  intros Hroot Hcb Hrun returned s1.
  assert (Hlog : executed returned = executed s ++ [(r, callback)]).
  { subst returned.
    by rewrite (rtc_api_effect_executed _ _ (foldl_perform_api _ _)). }
  assert (Hadvance : forall s2,
            length (tasks s2) = length (tasks returned) ->
            executed s2 = executed returned ->
            (forall task, r <> task -> cancelled task returned ->
               cancelled task s2) ->
            let s3 := advanceTimers (getCurrentTime returned) s2 in
            executed s3 = executed s ++ [(r, callback)] /\
            length (tasks s3) = length (tasks returned) /\
            forall task, r <> task -> cancelled task returned ->
              cancelled task s3).
  { intros s2 Hlen2 Hlog2 Hc2 s3.
    destruct (advanceTimers_while_slots (length (timerQueue s2))
                (getCurrentTime returned) s2) as (Hlog3 & Hlen3 & Hc3).
    fold (advanceTimers (getCurrentTime returned) s2) in Hlog3, Hlen3, Hc3.
    fold s3 in Hlog3, Hlen3, Hc3.
    split; [congruence|]. split; [congruence|]. auto. }
  subst s1. unfold workLoop_pass, invoke. rewrite Hroot, Hrun, Hcb. simpl.
  fold (entered r callback s). fold returned.
  destruct (result (body callback)) as [k| |]; simpl.
  - apply Hadvance; [simpl; by rewrite length_alter|done|].
    intros task Hne.
    apply (cancelled_alter (Task.set_callback (Some k)) task r); [done|].
    by intros ->.
  - case_bool_decide; by apply Hadvance.
  - done.
Qed.

Lemma cancel_kept_same task s s' :
  (task < length (tasks s))%nat ->
  tasks s' = tasks s -> executed s' = executed s ->
  cancel_kept task s s'.
Proof.
  intros Hlen Hobjs Hlog. split; [by rewrite Hobjs|].
  exists []. split; [by rewrite app_nil_r|]. split.
  - unfold cancelled. by rewrite Hobjs.
  - intros before r callback after Hsplit. by destruct before.
Qed.

Lemma runs_of_app task log log' :
  runs_of task (log ++ log') = runs_of task log ++ runs_of task log'.
Proof. apply filter_app. Qed.

Lemma cancel_kept_trans task s1 s2 s3 :
  cancel_kept task s1 s2 -> cancel_kept task s2 s3 -> cancel_kept task s1 s3.
Proof.
  intros (_ & new1 & Hlog1 & Hc1 & Hsplit1) (Hlen & new2 & Hlog2 & Hc2 & Hsplit2).
  split; [done|]. exists (new1 ++ new2).
  split; [by rewrite Hlog2, Hlog1, <- app_assoc|]. split.
  - intros Hc. destruct (Hc1 Hc) as [Hc' Hruns1].
    destruct (Hc2 Hc') as [Hc'' Hruns2].
    split; [done|]. by rewrite runs_of_app, Hruns1, Hruns2.
  - intros before r callback after Hsplit Hne Hcancels.
    apply app_eq_inv in Hsplit as [(k & Hnew1 & Hrest)|(k & -> & Hnew2)].
    + destruct k as [|e k]; simpl in Hrest.
      * apply (Hsplit2 [] r callback after); by rewrite <- ?Hrest.
      * injection Hrest as <- ->.
        destruct (Hsplit1 before r callback k Hnew1 Hne Hcancels)
          as [Hc' Hruns1].
        destruct (Hc2 Hc') as [Hc'' Hruns2].
        split; [done|]. by rewrite runs_of_app, Hruns1, Hruns2.
    + by apply (Hsplit2 k r callback after).
Qed.

(** One pass of the loop. *)
Lemma workLoop_pass_cancels task currentTime s :
  (task < length (tasks s))%nat ->
  cancel_kept task s (pass_state (workLoop_pass currentTime s)).
Proof.
  intros Hlen.
  destruct (peek (taskQueue s)) as [r|] eqn:Hroot.
  2:{ unfold workLoop_pass. rewrite Hroot.
      apply cancel_kept_same; [done|apply workLoop_end_same_work..]. }
  destruct ((Task.expirationTime (task_at s r) >? currentTime)
            && shouldYieldToHost s) eqn:Hrun.
  { unfold workLoop_pass. rewrite Hroot, Hrun.
    apply cancel_kept_same; [done|apply workLoop_end_same_work..]. }
  destruct (Task.callback (task_at s r)) as [callback|] eqn:Hcb.
  2:{ unfold workLoop_pass. rewrite Hroot, Hrun, Hcb.
      by apply cancel_kept_same. }
  destruct (workLoop_pass_called currentTime s r callback Hroot Hcb Hrun)
    as (Hlog & Hlen1 & Hkeep).
  set (returned :=
         foldl perform (entered r callback s) (actions (body callback))) in *.
  assert (Hlen0 : (task < length (tasks (entered r callback s)))%nat)
    by (simpl; by rewrite length_alter).
  pose proof (foldl_perform_length (actions (body callback))
                (entered r callback s)) as Hgrow.
  fold returned in Hgrow.
  split; [lia|].
  exists [(r, callback)]. split; [done|]. split.
  - intros Hc.
    destruct (called_cancelled task r callback s Hcb Hc) as (Hne & Hc1 & _).
    split; [by apply Hkeep|by apply runs_of_other].
  - intros before r' callback' after Hsplit Hne Hcancels.
    destruct before as [|? before]; simplify_eq/=.
    2:{ by destruct before. }
    split; [|done]. apply Hkeep; [done|].
    by apply foldl_perform_cancels.
Qed.

Lemma workLoop_while_cancels task fuel currentTime s c s' :
  (task < length (tasks s))%nat ->
  workLoop_while fuel currentTime s = Some (c, s') ->
  cancel_kept task s s'.
Proof.
  revert currentTime s. induction fuel as [|fuel IH]; intros currentTime s Hlen;
    simpl; [done|].
  pose proof (workLoop_pass_cancels task currentTime s Hlen) as Hpass.
  destruct (workLoop_pass currentTime s) as [currentTime1 s1|[c1 s1]];
    simpl in Hpass.
  - intros Hrun. eapply cancel_kept_trans; [exact Hpass|].
    eapply IH; [apply Hpass|done].
  - by intros [= <- <-].
Qed.

Lemma advanceTimers_cancels task currentTime s :
  (task < length (tasks s))%nat ->
  cancel_kept task s (advanceTimers currentTime s).
Proof.
  intros Hlen.
  destruct (advanceTimers_while_slots (length (timerQueue s)) currentTime s)
    as (Hlog & Hlen' & Hc).
  fold (advanceTimers currentTime s) in Hlog, Hlen', Hc.
  split; [lia|]. exists []. split; [by rewrite app_nil_r|]. split.
  - auto.
  - intros before r callback after Hsplit. by destruct before.
Qed.

Lemma flushWork_cancels task fuel hasTimeRemaining initialTime s c s' :
  (task < length (tasks s))%nat ->
  flushWork fuel hasTimeRemaining initialTime s = Some (c, s') ->
  cancel_kept task s s'.
Proof.
  intros Hlen. unfold flushWork, workLoop.
  set (entry := set_isPerformingWork true _).
  assert (Hentry : tasks entry = tasks s /\ executed entry = executed s).
  { subst entry. simpl. by destruct (isHostTimeoutScheduled s). }
  destruct Hentry as [Hobjs Hlog].
  destruct (workLoop_while _ _ _) as [[c1 s1]|] eqn:Hrun; [|done].
  intros [= <- <-].
  assert (Hlen1 : (task < length (tasks entry))%nat) by (by rewrite Hobjs).
  pose proof (advanceTimers_cancels task initialTime entry Hlen1) as Hadv.
  eapply cancel_kept_trans; [by apply cancel_kept_same|].
  eapply cancel_kept_trans; [exact Hadv|].
  pose proof (workLoop_while_cancels task _ _ _ _ _ (proj1 Hadv) Hrun) as Hloop.
  eapply cancel_kept_trans; [exact Hloop|].
  apply cancel_kept_same; [apply Hloop|done..].
Qed.

Lemma performWorkUntilDealine_cancels task fuel s c s' :
  (task < length (tasks s))%nat ->
  performWorkUntilDealine fuel s = Some (c, s') ->
  cancel_kept task s s'.
Proof.
  intros Hlen. unfold performWorkUntilDealine.
  destruct (scheduledHostCallback s) as [[]|].
  2:{ intros [= <- <-]. by apply cancel_kept_same. }
  destruct (flushWork _ _ _ _) as [[c1 s1]|] eqn:Hflush; [|done].
  apply (flushWork_cancels task) in Hflush; [|done].
  intros Hret.
  eapply cancel_kept_trans; [|eapply cancel_kept_trans; [exact Hflush|]].
  - by apply cancel_kept_same.
  - destruct c1 as [[]|]; injection Hret as <- <-;
      (apply cancel_kept_same; [apply Hflush|done..]).
Qed.

Lemma step_cancels task s s' :
  (task < length (tasks s))%nat -> step s s' -> cancel_kept task s s'.
Proof.
  intros Hlen Hstep.
  assert (Hquiet : executed s' = executed s ->
            (length (tasks s) <= length (tasks s'))%nat ->
            (cancelled task s -> cancelled task s') ->
            cancel_kept task s s').
  { intros Hlog Hgrow Hc. split; [lia|]. exists [].
    split; [by rewrite app_nil_r|]. split; [auto|].
    intros before r callback after Hsplit. by destruct before. }
  destruct Hstep as [p cb delay s|r s|dt s|fuel s c s' Hrun|tid s].
  - pose proof (scheduleCallback_api p cb delay s) as Hapi.
    apply Hquiet.
    + by apply rtc_api_effect_executed.
    + apply extends_length, (rtc_evolves _ _ _ api_effect_evolves Hapi).
    + by apply rtc_api_effect_cancelled.
  - apply Hquiet; [done|simpl; by rewrite length_alter|].
    by apply (cancelled_alter (Task.set_callback None) task r).
  - by apply cancel_kept_same.
  - apply (cancel_kept_trans task s (set_posted (Nat.pred (posted s)) s) s').
    + by apply cancel_kept_same.
    + by apply (performWorkUntilDealine_cancels task fuel _ c).
  - destruct (handleTimeout_data (getCurrentTime s) (clearTimeout tid s))
      as (Hobjs & _ & _ & _ & Hlog & _).
    cbv zeta in Hobjs, Hlog.
    destruct (advanceTimers_while_slots
                (length (timerQueue
                           (set_isHostTimeoutScheduled false
                              (clearTimeout tid s))))
                (getCurrentTime s)
                (set_isHostTimeoutScheduled false (clearTimeout tid s)))
      as (_ & Hlen' & Hc).
    apply Hquiet.
    + by rewrite Hlog.
    + rewrite Hobjs. unfold advanceTimers. by rewrite Hlen'.
    + intros Hcan. unfold cancelled. rewrite Hobjs. by apply Hc.
Qed.

(** The state a callback returns in when one of its actions cancels a
    task that exists at that moment. *)
Lemma foldl_perform_cancels_at task pre post s :
  (task < length (tasks (foldl perform s pre)))%nat ->
  cancelled task (foldl perform s (pre ++ CallCancelCallback task :: post)).
Proof.
  intros Hlen. rewrite foldl_app.
  apply foldl_perform_cancels; [done|]. apply elem_of_cons. by left.
Qed.

(** ** Cancellation, by the host and by a running callback *)

Lemma cancel_kept_split task s s' before r callback after :
  cancel_kept task s s' ->
  executed s' = executed s ++ before ++ (r, callback) :: after ->
  r <> task ->
  CallCancelCallback task ∈ actions (body callback) ->
  cancelled task s' /\ runs_of task after = [].
Proof.
  intros (_ & new & Hlog & _ & Hsplit) Hlog' Hne Hcancels.
  rewrite Hlog in Hlog'. apply app_inv_head in Hlog'.
  by apply (Hsplit before r callback after).
Qed.

Lemma cancel_kept_empty task s s' :
  cancel_kept task s s' -> cancelled task s ->
  cancelled task s' /\ runs_of task (executed s') = runs_of task (executed s).
Proof.
  intros (_ & new & Hlog & Hc & _) Hcan. destruct (Hc Hcan) as [Hc' Hruns].
  split; [done|]. by rewrite Hlog, runs_of_app, Hruns, app_nil_r.
Qed.

Lemma empty_slot_cancelled task s :
  is_Some (tasks s !! task) -> Task.callback (task_at s task) = None ->
  cancelled task s.
Proof.
  intros [t Ht] Hcb. exists t. split; [done|].
  by rewrite (task_at_lookup _ _ _ Ht) in Hcb.
Qed.

(** C9.  Once [cancelCallback] has been called on a task, its callback is
    not invoked again and its slot stays empty, whoever made the call.

    - The host between two turns: after [cancelCallback task] no turn
      invokes a callback on behalf of the task.
    - A running callback: if the callback of the root, a different task,
      calls [cancelCallback task] on a task that exists at that moment, the
      slot of the task is empty when the pass of the loop ends, whatever
      the callback does next and whatever it returns; the pass invoked
      that one callback.
    - The rest of the loop: in a run of the loop from a state in which the
      task exists, the task is not invoked after an invocation of a
      callback that cancels it, and its slot is empty in the end; a task
      whose slot is empty at the head of the loop is not invoked at all.
    - A whole turn: if a callback invoked in the turn cancels the task,
      the task is not invoked in what is left of the turn nor in any turn
      after it.

    Calling [cancelCallback] again changes nothing, nor does calling it on
    any task whose slot is empty, as is the slot of a task whose callback
    has run to its end (returned something that is not a function, or
    thrown).  A task with an empty slot that reaches the root of the ready
    queue is popped without being run: it leaves the ready queue, which
    keeps its other entries, and nothing else changes. *)
Theorem cancelled_task_never_runs s task :
  (is_Some (tasks s !! task) ->
   forall s',
     rtc step (cancelCallback task s) s' ->
     Task.callback (task_at s' task) = None /\
     runs_of task (executed s') = runs_of task (executed s)) /\
  (forall currentTime r callback pre post,
     peek (taskQueue s) = Some r ->
     Task.callback (task_at s r) = Some callback ->
     (Task.expirationTime (task_at s r) >? currentTime)
       && shouldYieldToHost s = false ->
     r <> task ->
     actions (body callback) = pre ++ CallCancelCallback task :: post ->
     is_Some (tasks (foldl perform (entered r callback s) pre) !! task) ->
     let s' := pass_state (workLoop_pass currentTime s) in
     Task.callback (task_at s' task) = None /\
     executed s' = executed s ++ [(r, callback)]) /\
  (forall fuel currentTime c s',
     is_Some (tasks s !! task) ->
     workLoop_while fuel currentTime s = Some (c, s') ->
     (forall before r callback after,
        executed s' = executed s ++ before ++ (r, callback) :: after ->
        r <> task ->
        CallCancelCallback task ∈ actions (body callback) ->
        Task.callback (task_at s' task) = None /\
        runs_of task after = []) /\
     (Task.callback (task_at s task) = None ->
      Task.callback (task_at s' task) = None /\
      runs_of task (executed s') = runs_of task (executed s))) /\
  (forall s' before r callback after,
     is_Some (tasks s !! task) ->
     step s s' ->
     executed s' = executed s ++ before ++ (r, callback) :: after ->
     r <> task ->
     CallCancelCallback task ∈ actions (body callback) ->
     runs_of task after = [] /\
     forall s'',
       rtc step s' s'' ->
       Task.callback (task_at s'' task) = None /\
       runs_of task (executed s'') = runs_of task (executed s')) /\
  cancelCallback task (cancelCallback task s) = cancelCallback task s /\
  (Task.callback (task_at s task) = None -> cancelCallback task s = s) /\
  (forall currentTime callback,
     peek (taskQueue s) = Some task ->
     Task.callback (task_at s task) = Some callback ->
     (Task.expirationTime (task_at s task) >? currentTime)
       && shouldYieldToHost s = false ->
     (forall k, result (body callback) <> ReturnsFunction k) ->
     let s' := pass_state (workLoop_pass currentTime s) in
     executed s' = executed s ++ [(task, callback)] /\
     cancelCallback task s' = s') /\
  (forall currentTime,
     peek (taskQueue s) = Some task ->
     Task.callback (task_at s task) = None ->
     (Task.expirationTime (task_at s task) >? currentTime)
       && shouldYieldToHost s = false ->
     workLoop_pass currentTime s = Again currentTime (pop_taskQueue s) /\
     taskQueue s ≡ₚ task :: taskQueue (pop_taskQueue s) /\
     timerQueue (pop_taskQueue s) = timerQueue s /\
     tasks (pop_taskQueue s) = tasks s /\
     executed (pop_taskQueue s) = executed s).
Proof.
  split; [|split; [|split; [|split; [|split; [|split; [|split]]]]]].
  - intros Halloc s' Hrun.
    pose proof (cancelCallback_cancelled task s Halloc) as Hc.
    destruct (rtc_work_effect_cancelled task _ _ (steps_work _ _ Hrun) Hc)
      as [Hc' Hruns].
    split; [by apply cancelled_task_at|done].
  - intros currentTime r callback pre post Hroot Hcb Hrun Hne Hacts Halloc s'.
    destruct (workLoop_pass_called currentTime s r callback Hroot Hcb Hrun)
      as (Hlog & _ & Hkeep).
    split; [|done]. apply cancelled_task_at, Hkeep; [done|].
    rewrite Hacts. by apply foldl_perform_cancels_at, lookup_lt_is_Some_1.
  - intros fuel currentTime c s' Halloc%lookup_lt_is_Some_1 Hrun.
    pose proof (workLoop_while_cancels task _ _ _ _ _ Halloc Hrun) as Hkept.
    split.
    + intros before r callback after Hlog Hne Hcancels.
      destruct (cancel_kept_split _ _ _ _ _ _ _ Hkept Hlog Hne Hcancels).
      split; [by apply cancelled_task_at|done].
    + intros Hcb.
      destruct (cancel_kept_empty _ _ _ Hkept) as [Hc Hruns].
      { apply empty_slot_cancelled; [by apply lookup_lt_is_Some_2|done]. }
      split; [by apply cancelled_task_at|done].
  - intros s' before r callback after Halloc%lookup_lt_is_Some_1 Hstep
      Hlog Hne Hcancels.
    pose proof (step_cancels task s s' Halloc Hstep) as Hkept.
    destruct (cancel_kept_split _ _ _ _ _ _ _ Hkept Hlog Hne Hcancels)
      as [Hc Hruns].
    split; [done|]. intros s'' Hrun.
    destruct (rtc_work_effect_cancelled task _ _ (steps_work _ _ Hrun) Hc)
      as [Hc' Hruns'].
    split; [by apply cancelled_task_at|done].
  - apply cancelCallback_empty_slot. unfold task_at, deref. simpl.
    rewrite list_lookup_alter_eq. by destruct (tasks s !! task).
  - apply cancelCallback_empty_slot.
  - intros currentTime callback Hroot Hcb Hrun Hresult s'.
    destruct (pending_allocated _ _ _ Hcb) as (t & Ht & _).
    set (returned :=
           foldl perform (entered task callback s) (actions (body callback))).
    assert (Hapi : rtc api_effect (entered task callback s) returned)
      by apply foldl_perform_api.
    assert (Hc : cancelled task returned).
    { eapply rtc_api_effect_cancelled; [done|].
      exists (Task.set_callback None t). split; [|done].
      simpl. by rewrite list_lookup_alter_eq, Ht. }
    assert (Hlog : executed returned = executed s ++ [(task, callback)])
      by (by rewrite (rtc_api_effect_executed _ _ Hapi)).
    assert (Hadvance : forall s2,
              now s2 = now returned -> cancelled task s2 ->
              executed s2 = executed returned ->
              let s3 := advanceTimers (getCurrentTime returned) s2 in
              executed s3 = executed s ++ [(task, callback)] /\
              cancelCallback task s3 = s3).
    { intros s2 Hnow Hc2 Hlog2 s3.
      assert (Htimer : rtc timer_effect s2 s3)
        by (apply advanceTimers_timer; unfold getCurrentTime; lia).
      split.
      - rewrite (rtc_timer_effect_executed _ _ Htimer). congruence.
      - apply cancelCallback_empty_slot.
        rewrite (rtc_timer_effect_callback _ _ _ Htimer).
        by apply cancelled_task_at. }
    subst s'. unfold workLoop_pass, invoke. rewrite Hroot, Hrun, Hcb. simpl.
    fold (entered task callback s). fold returned.
    destruct (result (body callback)) as [k| |] eqn:Hres; simpl.
    + by destruct (Hresult k).
    + case_bool_decide; by apply Hadvance.
    + split; [done|]. by apply cancelCallback_empty_slot, cancelled_task_at.
  - intros currentTime Hroot Hcb Hrun.
    split; [unfold workLoop_pass; by rewrite Hroot, Hrun, Hcb|].
    split; [|done].
    destruct (peek_Some _ _ Hroot) as [rest Hqueue]. simpl. rewrite Hqueue.
    destruct (pop_perm (tasks s) task rest) as (heap' & -> & Hperm).
    by rewrite Hperm.
Qed.

(** ** Delayed tasks, submitted by the host or by a running callback *)



(** The statements of [moves] are those of the code: one pass of the loop
    of [workLoop], the loop and a whole flush are sequences of them. *)
Lemma workLoop_pass_moves currentTime s :
  rtc moves s (pass_state (workLoop_pass currentTime s)).
Proof.
  unfold workLoop_pass.
  destruct (peek (taskQueue s)) as [currentTask|] eqn:Hroot.
  2:{ apply rtc_once, moves_control, workLoop_end_same_work. }
  destruct (_ && _).
  { apply rtc_once, moves_control, workLoop_end_same_work. }
  destruct (Task.callback (task_at s currentTask)) as [callback|] eqn:Hcb.
  2:{ apply rtc_once, moves_pop. }
  unfold invoke. simpl.
  change (set_executed _ (write_callback currentTask None s))
    with (entered currentTask callback s).
  assert (Hrun : forall l x, rtc moves x (foldl perform x l)).
  { induction l as [|a l IH]; intros x; simpl; [done|].
    eapply rtc_l; [apply (moves_action a)|apply IH]. }
  set (returned := foldl perform (entered currentTask callback s)
                     (actions (body callback))).
  assert (Hreturned : rtc moves s returned).
  { eapply rtc_l; [by apply (moves_enter currentTask callback)|apply Hrun]. }
  destruct (result (body callback)) as [k| |]; simpl.
  - etrans; [exact Hreturned|].
    eapply rtc_l; [apply (moves_continuation currentTask k)|].
    apply rtc_once, moves_advanceTimers. simpl. unfold getCurrentTime. lia.
  - etrans; [exact Hreturned|]. case_bool_decide.
    + eapply rtc_l; [apply moves_pop|].
      apply rtc_once, moves_advanceTimers. simpl. unfold getCurrentTime. lia.
    + apply rtc_once, moves_advanceTimers. unfold getCurrentTime. lia.
  - exact Hreturned.
Qed.

Lemma workLoop_while_moves fuel currentTime s c s' :
  workLoop_while fuel currentTime s = Some (c, s') -> rtc moves s s'.
Proof.
  revert currentTime s. induction fuel as [|fuel IH]; intros currentTime s;
    simpl; [done|].
  pose proof (workLoop_pass_moves currentTime s) as Hpass.
  destruct (workLoop_pass currentTime s) as [currentTime1 s1|[c1 s1]];
    simpl in Hpass.
  - intros Hrun. etrans; [exact Hpass|]. by eapply IH.
  - by intros [= <- <-].
Qed.

Lemma flushWork_moves fuel hasTimeRemaining initialTime s c s' :
  initialTime <= now s ->
  flushWork fuel hasTimeRemaining initialTime s = Some (c, s') ->
  rtc moves s s'.
Proof.
  intros Hnow. unfold flushWork, workLoop.
  set (s1 := set_isHostCallbackScheduled false s).
  set (s2 := if isHostTimeoutScheduled s1 then _ else _).
  assert (Hs2 : same_work s s2).
  { subst s2 s1. destruct (isHostTimeoutScheduled _); solve_same_work. }
  destruct (workLoop_while _ _ _) as [[c1 s3]|] eqn:Hrun; [|done].
  intros [= <- <-].
  eapply rtc_l; [by apply moves_control|].
  eapply rtc_l; [apply (moves_performing true)|].
  eapply rtc_l.
  { apply (moves_advanceTimers initialTime). simpl.
    destruct Hs2 as (_ & _ & _ & -> & _). done. }
  etrans; [by eapply workLoop_while_moves|].
  apply rtc_once, moves_performing.
Qed.



End Properties.

(** * The theorems at sample inputs *)

Lemma scheduleCallback_never_asks_turn_driver_witness :
  rtc (host_step (env := sampleEnv)) (initial 0) readyOnly /\
  taskQueue readyOnly = [0%nat] /\
  posted readyOnly = 0%nat /\ timers readyOnly = ∅ /\ executed readyOnly = [].
Proof.
  assert (Hrun : rtc (host_step (env := sampleEnv)) (initial 0) readyOnly).
  { apply rtc_once.
    apply (host_scheduleCallback NormalPriority (Some 0%nat) None (initial 0)). }
  split; [exact Hrun|]. split; [reflexivity|].
  exact (proj2 (proj2 (scheduleCallback_never_asks_turn_driver
                         (env := sampleEnv))) 0 readyOnly Hrun).
Defined.

Lemma scheduleCallback_arms_no_timeout_witness :
  (* on a freshly loaded module *)
  (isHostTimeoutScheduled delayedOnly = true /\
   nextTimerId delayedOnly = nextTimerId (initial 0) /\
   timers delayedOnly =
     if isHostTimeoutScheduled (initial 0)
     then delete (taskTimeoutId (initial 0)) (timers (initial 0))
     else timers (initial 0)) /\
  timers delayedOnly = ∅ /\
  (* with a timeout pending *)
  size (timers timeoutArmed) = 1%nat /\
  (let s' :=
     (scheduleCallback (env := sampleEnv) NormalPriority (Some 0%nat)
        (Some 20) timeoutArmed).2 in
   isHostTimeoutScheduled s' = true /\
   nextTimerId s' = nextTimerId timeoutArmed /\
   timers s' =
     if isHostTimeoutScheduled timeoutArmed
     then delete (taskTimeoutId timeoutArmed) (timers timeoutArmed)
     else timers timeoutArmed) /\
  timers
    (scheduleCallback (env := sampleEnv) NormalPriority (Some 0%nat)
       (Some 20) timeoutArmed).2 = ∅.
Proof.
  split; [|split; [|split; [|split]]].
  - exact (scheduleCallback_arms_no_timeout (env := sampleEnv)
             NormalPriority (Some 0%nat) 50 (initial 0)
             ltac:(lia) eq_refl ltac:(vm_compute; reflexivity)).
  - vm_compute. reflexivity.
  - vm_compute. reflexivity.
  - exact (scheduleCallback_arms_no_timeout (env := sampleEnv)
             NormalPriority (Some 0%nat) 20 timeoutArmed
             ltac:(lia) ltac:(vm_compute; reflexivity)
             ltac:(vm_compute; reflexivity)).
  - vm_compute. reflexivity.
Defined.

Lemma workLoop_exit_arms_nothing_witness :
  peek (taskQueue timerWaiting) = None /\
  timerQueue timerWaiting = [1%nat] /\
  isHostTimeoutScheduled timerWaiting = false /\
  timers timerWaiting = ∅ /\
  workLoop_while (env := sampleEnv) 1 1 timerWaiting
  = Some (Returned false, timerWaiting).
Proof.
  repeat (split; [reflexivity|]).
  apply (proj1 (workLoop_exit_arms_nothing (env := sampleEnv) 0 1
                  timerWaiting)).
  reflexivity.
Defined.

Lemma workLoop_yields_unless_overdue_witness :
  peek (taskQueue sliceSpent) = Some 0%nat /\
  workLoop_while (env := sampleEnv) 1 5 sliceSpent
  = Some (Returned true, sliceSpent) /\
  executed (pass_state (workLoop_pass (env := sampleEnv) 6000 sliceSpent))
  = [(0%nat, 0%nat)].
Proof.
  split; [reflexivity|].
  destruct (workLoop_yields_unless_overdue (env := sampleEnv) 0 5 sliceSpent
              0%nat eq_refl) as [Hyield _].
  destruct (workLoop_yields_unless_overdue (env := sampleEnv) 0 6000 sliceSpent
              0%nat eq_refl) as [_ Hrun].
  split.
  - apply Hyield; [vm_compute; reflexivity|].
    exists 0. split; [reflexivity|vm_compute; discriminate].
  - apply (Hrun ltac:(vm_compute; discriminate) 0%nat eq_refl).
Defined.

Lemma continuation_resumes_same_task_witness :
  exists s',
    workLoop_while (env := sampleEnv) 1 0 continuationReady
    = Some (Returned true, s') /\
    Task.callback (task_at s' 0%nat) = Some 0%nat /\
    Task.id (task_at s' 0%nat) = 0 /\
    0%nat ∈ taskQueue s' /\
    executed s' = [(0%nat, 1%nat)].
Proof.
  eexists.
  apply (continuation_resumes_same_task (env := sampleEnv) 0 0
           continuationReady 0%nat 1%nat 0%nat); reflexivity.
Defined.




(** Where the sum is exact the two readings of the code agree. *)
Example delay_kept_by_clock :
  scheduleCallback_startTime 0%float (Some 50%float) = 50%float /\
  scheduleCallback_queue 0%float (Some 50%float) = TimerQueue /\
  Task.startTime (task_at delayedOnly 0%nat) = 50 /\
  timerQueue delayedOnly = [0%nat].
Proof. repeat split; reflexivity. Qed.

Lemma cancelled_task_never_runs_witness :
  (is_Some (tasks readyOnly !! 0%nat) /\
   forall s',
     rtc (step (env := sampleEnv)) (cancelCallback 0%nat readyOnly) s' ->
     Task.callback (task_at s' 0%nat) = None /\
     runs_of 0%nat (executed s') = []) /\
  (let s' := pass_state (workLoop_pass (env := quietEnv) 0 cancellerReady) in
   Task.callback (task_at s' 0%nat) = None /\
   executed s' = executed cancellerReady ++ [(1%nat, 1%nat)]).
Proof.
  assert (Halloc : is_Some (tasks readyOnly !! 0%nat)) by (eexists; reflexivity).
  split.
  - split; [exact Halloc|].
    exact (proj1 (cancelled_task_never_runs (env := sampleEnv) readyOnly 0%nat)
             Halloc).
  - exact (proj1 (proj2 (cancelled_task_never_runs (env := quietEnv)
                           cancellerReady 0%nat))
             0 1%nat 1%nat [] [Elapse 7] eq_refl eq_refl eq_refl
             ltac:(discriminate) eq_refl
             ltac:(eexists; reflexivity)).
Defined.

Lemma flushWork_clears_isPerformingWork_witness :
  exists s',
    flushWork (env := sampleEnv) 1 true 0 throwingReady = Some (Thrown, s') /\
    executed s' = [(0%nat, 2%nat)] /\
    isPerformingWork s' = false.
Proof.
  eexists. split; [reflexivity|]. split; [reflexivity|].
  apply (proj2 (flushWork_clears_isPerformingWork (env := sampleEnv)
                  1 true 0 throwingReady) Thrown).
  reflexivity.
Defined.

(** ** Sample runs *)

(** The bug of C3 seen from [flushWork]: the ready task runs, the delayed
    one is left in the timer queue with no timeout armed to wake it up. *)
Example flushWork_leaves_timer_unarmed :
  exists s',
    flushWork (env := sampleEnv) 10 true 0 readyAndDelayed
    = Some (Returned false, s') /\
    executed s' = [(0%nat, 0%nat)] /\
    taskQueue s' = [] /\ timerQueue s' = [1%nat] /\
    isHostTimeoutScheduled s' = false /\ timers s' = ∅.
Proof. eexists. repeat split; reflexivity. Qed.

(** If the host does run the timeout handler and the message handler, a
    delayed task is promoted once its start time has come, and runs. *)
Example delayed_task_promoted_then_run :
  let at60 := set_now 60 delayedOnly in
  let promoted := handleTimeout (getCurrentTime at60) (clearTimeout 1 at60) in
  rtc (step (env := sampleEnv)) delayedOnly promoted /\
  taskQueue promoted = [0%nat] /\ timerQueue promoted = [] /\
  exists s',
    step (env := sampleEnv) promoted s' /\
    executed s' = [(0%nat, 0%nat)] /\ taskQueue s' = [].
Proof.
  intros at60 promoted. split; [|split; [reflexivity|split; [reflexivity|]]].
  - eapply rtc_l; [apply (step_elapse 60 delayedOnly)|].
    apply rtc_once. apply (step_timeout 1 at60).
  - eexists. split.
    + apply (step_message 10 promoted (Returned tt)). vm_compute. reflexivity.
    + split; reflexivity.
Qed.

(** ** Further theorems at sample inputs *)

Lemma readyAndDelayed_reachable :
  rtc (step (env := sampleEnv)) (initial 0) readyAndDelayed.
Proof.
  eapply rtc_l.
  - apply (step_scheduleCallback NormalPriority (Some 0%nat) None (initial 0)).
  - apply rtc_once.
    apply (step_scheduleCallback NormalPriority (Some 0%nat) (Some 50)).
Qed.

Lemma task_ids_are_unique_witness :
  taskIdCounter readyAndDelayed = Z.of_nat (length (tasks readyAndDelayed)) /\
  (forall r t, tasks readyAndDelayed !! r = Some t ->
     Task.id t = Z.of_nat r /\ 0 <= Task.id t < taskIdCounter readyAndDelayed) /\
  (forall r1 r2 t1 t2,
     tasks readyAndDelayed !! r1 = Some t1 ->
     tasks readyAndDelayed !! r2 = Some t2 ->
     Task.id t1 = Task.id t2 -> r1 = r2).
Proof.
  exact (task_ids_are_unique (env := sampleEnv) 0 readyAndDelayed
           readyAndDelayed_reachable).
Defined.

Lemma deadline_is_start_plus_budget_witness :
  Task.expirationTime (task_at readyAndDelayed 1%nat)
  = Task.startTime (task_at readyAndDelayed 1%nat)
    + quotedTimeouts (Task.priorityLevel (task_at readyAndDelayed 1%nat)).
Proof.
  exact (deadline_is_start_plus_budget (env := sampleEnv) 0 readyAndDelayed
           1%nat (task_at readyAndDelayed 1%nat)
           readyAndDelayed_reachable eq_refl).
Defined.

Lemma task_in_one_queue_once_witness :
  NoDup (taskQueue readyAndDelayed ++ timerQueue readyAndDelayed) /\
  forall r, r ∈ taskQueue readyAndDelayed ++ timerQueue readyAndDelayed ->
    is_Some (tasks readyAndDelayed !! r).
Proof.
  exact (task_in_one_queue_once (env := sampleEnv) 0 readyAndDelayed
           readyAndDelayed_reachable).
Defined.

Lemma sortIndex_follows_queue_witness :
  (1%nat ∈ timerQueue readyAndDelayed ->
   Task.sortIndex (task_at readyAndDelayed 1%nat)
   = Task.startTime (task_at readyAndDelayed 1%nat)) /\
  (1%nat ∈ taskQueue readyAndDelayed ->
   Task.sortIndex (task_at readyAndDelayed 1%nat)
   = Task.expirationTime (task_at readyAndDelayed 1%nat)).
Proof.
  exact (sortIndex_follows_queue (env := sampleEnv) 0 readyAndDelayed 1%nat
           readyAndDelayed_reachable).
Defined.

Lemma advanceTimers_twice_witness :
  advanceTimers 60 (advanceTimers 10 delayedOnly) = advanceTimers 60 delayedOnly /\
  advanceTimers 60 (advanceTimers 60 delayedOnly) = advanceTimers 60 delayedOnly.
Proof.
  exact (advanceTimers_twice 10 60 delayedOnly ltac:(lia)).
Defined.

Lemma handleTimeout_rearms_witness :
  let s :=
    set_now 10
      (scheduleCallback (env := sampleEnv) NormalPriority (Some 0%nat)
         (Some 100) (initial 0)).2 in
  let s' := handleTimeout 10 s in
  let wait := Task.startTime (task_at s' 0%nat) - 10 in
  0 < wait /\
  timers s' = <[nextTimerId s := mkTimer handleTimeoutHandler wait (now s)]>
                (timers s) /\
  taskTimeoutId s' = nextTimerId s /\
  isHostTimeoutScheduled s' = true /\
  isHostCallbackScheduled s' = false /\
  executed s' = executed s /\ posted s' = posted s.
Proof.
  exact (handleTimeout_rearms 10
           (set_now 10
              (scheduleCallback (env := sampleEnv) NormalPriority (Some 0%nat)
                 (Some 100) (initial 0)).2)
           0%nat eq_refl ltac:(vm_compute; reflexivity)
           ltac:(vm_compute; reflexivity)).
Defined.

Lemma handleTimeout_requests_flush_witness :
  let s := set_now 60 delayedOnly in
  let s' := handleTimeout 60 s in
  isHostCallbackScheduled s' = true /\
  scheduledHostCallback s' = Some flushWorkCallback /\
  isHostTimeoutScheduled s' = false /\
  timers s' = timers s /\
  executed s' = executed s /\ posted s' = posted s.
Proof.
  exact (handleTimeout_requests_flush 60 (set_now 60 delayedOnly) 0%nat
           eq_refl ltac:(vm_compute; reflexivity)).
Defined.

Lemma flushWork_only_clears_flags_witness :
  exists c s',
    flushWork (env := sampleEnv) 10 true 0 readyAndDelayed = Some (c, s') /\
    isHostCallbackScheduled s' = false /\
    isHostTimeoutScheduled s' = false /\
    isPerformingWork s' = false /\
    timers s' =
      (if isHostTimeoutScheduled readyAndDelayed
       then delete (taskTimeoutId readyAndDelayed) (timers readyAndDelayed)
       else timers readyAndDelayed) /\
    nextTimerId s' = nextTimerId readyAndDelayed /\
    posted s' = posted readyAndDelayed /\
    scheduledHostCallback s' = scheduledHostCallback readyAndDelayed /\
    isMessageLoopRunning s' = isMessageLoopRunning readyAndDelayed /\
    startTime s' = startTime readyAndDelayed.
Proof.
  destruct (flushWork (env := sampleEnv) 10 true 0 readyAndDelayed)
    as [[c s']|] eqn:Hrun; [|vm_compute in Hrun; discriminate].
  exists c, s'. split; [reflexivity|].
  exact (flushWork_only_clears_flags (env := sampleEnv) 10 true 0
           readyAndDelayed c s' Hrun).
Defined.

Lemma workLoop_returns_whether_work_remains_witness :
  exists s',
    workLoop (env := sampleEnv) 1 true 5 sliceSpent = Some (Returned true, s') /\
    taskQueue s' <> [].
Proof.
  eexists. split; [vm_compute; reflexivity|].
  exact (workLoop_returns_whether_work_remains (env := sampleEnv) 1 true 5
           sliceSpent true _ ltac:(vm_compute; reflexivity)).
Defined.

Lemma performWorkUntilDealine_reposts_while_work_remains_witness :
  exists s',
    performWorkUntilDealine (env := sampleEnv) 10 continuationReady
    = Some (Returned tt, s') /\
    startTime s' = Some (now continuationReady) /\
    isPerformingWork s' = false /\
    isHostCallbackScheduled s' = false /\
    if bool_decide (taskQueue s' = [])
    then posted s' = posted continuationReady /\
         scheduledHostCallback s' = None /\
         isMessageLoopRunning s' = false
    else posted s' = S (posted continuationReady) /\
         scheduledHostCallback s' = Some flushWorkCallback /\
         isMessageLoopRunning s' = isMessageLoopRunning continuationReady.
Proof.
  eexists. split; [vm_compute; reflexivity|].
  exact (performWorkUntilDealine_reposts_while_work_remains
           (env := sampleEnv) 10 continuationReady (Returned tt) _
           eq_refl ltac:(vm_compute; reflexivity)).
Defined.

Lemma thrown_callback_leaves_empty_slot_witness :
  exists s',
    workLoop_while (env := sampleEnv) 1 0 throwingReady = Some (Thrown, s') /\
    0%nat ∈ taskQueue s' /\
    Task.callback (task_at s' 0%nat) = None /\
    executed s' = executed throwingReady ++ [(0%nat, 2%nat)].
Proof.
  exact (thrown_callback_leaves_empty_slot (env := sampleEnv) 0 0
           throwingReady 0%nat 2%nat eq_refl eq_refl
           ltac:(vm_compute; reflexivity) eq_refl).
Defined.

Lemma readyOnly_distinct : queues_distinct readyOnly.
Proof.
  apply (steps_keyed (env := sampleEnv) (initial 0) readyOnly).
  - apply rtc_once.
    apply (step_scheduleCallback NormalPriority (Some 0%nat) None (initial 0)).
  - apply initial_keyed.
Qed.

Lemma finished_task_leaves_queues_witness :
  let s' := pass_state (workLoop_pass (env := sampleEnv) 0 readyOnly) in
  (0%nat ∉ taskQueue s') /\ (0%nat ∉ timerQueue s').
Proof.
  exact (finished_task_leaves_queues (env := sampleEnv) 0 readyOnly 0%nat
           0%nat readyOnly_distinct eq_refl eq_refl
           ltac:(vm_compute; reflexivity) eq_refl
           ltac:(vm_compute; reflexivity)).
Defined.

Lemma quietEnv_submits_nothing c : submits_nothing (body (Environment := quietEnv) c).
Proof.
  destruct c as [|[|[|c]]]; repeat constructor.
Qed.

Lemma flushWork_ends_witness :
  is_Some
    (flushWork (env := quietEnv) (S (queued readyAndDelayed)) true 0
       readyAndDelayed).
Proof.
  exact (flushWork_ends (env := quietEnv) true 0 readyAndDelayed
           quietEnv_submits_nothing).
Defined.

Lemma at_most_one_message_posted_witness :
  (posted readyAndDelayed <= 1)%nat /\
  isMessageLoopRunning readyAndDelayed = false.
Proof.
  exact (at_most_one_message_posted (env := sampleEnv) 0 readyAndDelayed
           readyAndDelayed_reachable).
Defined.

Lemma flags_between_turns_witness :
  isPerformingWork readyAndDelayed = false /\
  (isHostCallbackScheduled readyAndDelayed = true ->
   scheduledHostCallback readyAndDelayed = Some flushWorkCallback).
Proof.
  exact (flags_between_turns (env := sampleEnv) 0 readyAndDelayed
           readyAndDelayed_reachable).
Defined.

Lemma advanceTimers_promotes_due_root_witness :
  0%nat ∈ taskQueue (advanceTimers 60 delayedOnly).
Proof.
  exact (advanceTimers_promotes_due_root 60 delayedOnly 0%nat eq_refl
           ltac:(vm_compute; discriminate) ltac:(vm_compute; discriminate)).
Defined.
